(** * Velocity-tree construction (dynamo/tools/construct_velocity_tree.py)

    A shallow embedding of the five routines of the module and the
    properties checked against them:

    - [remove_velocity_points]          (per-cell graph contractor)
    - [calculate_angle]                 (angle helper of the branch voter)
    - [_compute_transition_matrix]      (cluster transition aggregator)
    - [_calculate_segment_probability]  (segment likelihood evaluator)
    - the orientation loop of [construct_velocity_tree] and the tally,
      the edge-writing part and the edge lists of
      [construct_velocity_tree_py];

    and, from dynamo/tools/moments.py, of [stratify], [strat_mom] and
    [calc_1nd_moment].

    Numbers.  numpy works on IEEE doubles.  The model keeps the special
    values the code tests for ([inf], [-inf], [nan]) and takes finite values
    as exact rationals: rounding and overflow of finite arithmetic are not
    modelled.  Python failures ([IndexError], ...) are explicit results. *)

From Stdlib Require Import QArith ZArith Lia List Bool Reals Lra.
From stdpp Require Import base list.
Import ListNotations.

Local Open Scope nat_scope.

(* ================================================================= *)
(** ** Python failures and loops *)

Module Py.

Inductive exn : Type :=
  IndexError | ValueError | UnboundLocalError | TypeError.

Inductive result (A : Type) : Type :=
  | Ok (a : A)
  | Raise (e : exn).
Arguments Ok {A} a.
Arguments Raise {A} e.

Definition bind {A B} (m : result A) (k : A -> result B) : result B :=
  match m with
  | Ok a => k a
  | Raise e => Raise e
  end.

(** [l[i]] for a non-negative index. *)
Definition index {A} (l : list A) (i : nat) : result A :=
  match l !! i with
  | Some x => Ok x
  | None => Raise IndexError
  end.

(** [l[i] = x] for a non-negative index. *)
Definition store {A} (l : list A) (i : nat) (x : A) : result (list A) :=
  if i <? length l then Ok (<[i:=x]> l) else Raise IndexError.

(** [for it in its: s = body it s], stopping at the first failure. *)
Fixpoint for_each {S I} (body : I -> S -> result S) (its : list I) (s : S)
  : result S :=
  match its with
  | [] => Ok s
  | it :: rest => bind (body it s) (for_each body rest)
  end.

(** A list comprehension whose element expression may fail. *)
Fixpoint comprehension {A B} (f : A -> result B) (l : list A)
  : result (list B) :=
  match l with
  | [] => Ok []
  | a :: rest =>
      bind (f a) (fun b => bind (comprehension f rest) (fun bs => Ok (b :: bs)))
  end.

End Py.

Export Py.

Notation "'let*' x ':=' m 'in' k" := (Py.bind m (fun x => k))
  (at level 10, x name, m at level 100, k at level 200).

(* ================================================================= *)
(** ** Doubles with their special values *)

Module Float.

Inductive fval : Type :=
  | Fin (q : Q)
  | PInf
  | NInf
  | NaN.

Definition Qlt_b (x y : Q) : bool := negb (Qle_bool y x).

(** Largest finite double, what [np.nan_to_num] puts for an infinity. *)
Definition DBL_MAX : Q := inject_Z (2 ^ 1024 - 2 ^ 971).

Definition is_finite (x : fval) : bool :=
  match x with Fin _ => true | _ => false end.

Definition fneg (x : fval) : fval :=
  match x with
  | Fin q => Fin (- q)
  | PInf => NInf
  | NInf => PInf
  | NaN => NaN
  end.

Definition fadd (x y : fval) : fval :=
  match x, y with
  | NaN, _ | _, NaN => NaN
  | Fin a, Fin b => Fin (a + b)
  | PInf, NInf | NInf, PInf => NaN
  | PInf, _ | _, PInf => PInf
  | NInf, _ | _, NInf => NInf
  end.

Definition fsub (x y : fval) : fval := fadd x (fneg y).

(** Division; a zero divisor is the double [+0.0]. *)
Definition fdiv (x y : fval) : fval :=
  match x, y with
  | NaN, _ | _, NaN => NaN
  | Fin a, Fin b =>
      if Qeq_bool b 0 then
        if Qeq_bool a 0 then NaN else if Qlt_b 0 a then PInf else NInf
      else Fin (a / b)
  | Fin _, _ => Fin 0
  | PInf, Fin b => if Qlt_b b 0 then NInf else PInf
  | NInf, Fin b => if Qlt_b b 0 then PInf else NInf
  | _, _ => NaN
  end.

(** [x == y] *)
Definition feqb (x y : fval) : bool :=
  match x, y with
  | Fin a, Fin b => Qeq_bool a b
  | PInf, PInf | NInf, NInf => true
  | _, _ => false
  end.

(** [x != y] *)
Definition fneb (x y : fval) : bool := negb (feqb x y).

(** [x < y] *)
Definition fltb (x y : fval) : bool :=
  match x, y with
  | NaN, _ | _, NaN => false
  | Fin a, Fin b => Qlt_b a b
  | NInf, NInf | PInf, _ | _, NInf => false
  | _, _ => true
  end.

(** [x >= y] *)
Definition fgeb (x y : fval) : bool :=
  match x, y with
  | NaN, _ | _, NaN => false
  | _, _ => negb (fltb x y)
  end.

(** Python's builtin [max(x, y)]: the second only if it is greater. *)
Definition py_max (x y : fval) : fval := if fltb x y then y else x.

(** [np.nan_to_num] *)
Definition nan_to_num (x : fval) : fval :=
  match x with
  | NaN => Fin 0
  | PInf => Fin DBL_MAX
  | NInf => Fin (- DBL_MAX)
  | Fin q => Fin q
  end.

(** [a[a == v] = 0] at one element *)
Definition zero_where_eq (v x : fval) : fval :=
  if feqb x v then Fin 0 else x.

End Float.

Export Float.

(* ================================================================= *)
(** ** Two-dimensional arrays *)

Module Nd.

Record ndarray (A : Type) : Type :=
  Arr { shape0 : nat; shape1 : nat; rows : list (list A) }.
Arguments Arr {A} shape0 shape1 rows.
Arguments shape0 {A} n.
Arguments shape1 {A} n.
Arguments rows {A} n.

Definition wf {A} (M : ndarray A) : Prop :=
  length (rows M) = shape0 M /\
  Forall (fun r => length r = shape1 M) (rows M).

(** [M[i, j]] *)
Definition get {A} (M : ndarray A) (i j : nat) : result A :=
  let* r := index (rows M) i in index r j.

(** [M[i, j] = x] *)
Definition set {A} (M : ndarray A) (i j : nat) (x : A) : result (ndarray A) :=
  let* r := index (rows M) i in
  let* r' := store r j x in
  Ok (Arr (shape0 M) (shape1 M) (<[i:=r']> (rows M))).

(** Element read inside a whole-array expression, where numpy has already
    checked the shapes; [d] is never seen on a well-formed array. *)
Definition item {A} (d : A) (M : ndarray A) (i j : nat) : A :=
  match get M i j with Ok x => x | Raise _ => d end.

Definition tabulate {A} (n m : nat) (f : nat -> nat -> A) : ndarray A :=
  Arr n m (map (fun i => map (f i) (seq 0 m)) (seq 0 n)).

(** [np.zeros((n, m))] and friends *)
Definition full {A} (n m : nat) (x : A) : ndarray A :=
  tabulate n m (fun _ _ => x).

Definition amap {A B} (f : A -> B) (M : ndarray A) : ndarray B :=
  Arr (shape0 M) (shape1 M) (map (map f) (rows M)).

(** [M.T] *)
Definition transpose {A} (d : A) (M : ndarray A) : ndarray A :=
  tabulate (shape1 M) (shape0 M) (fun i j => item d M j i).

(** [np.diag(M.diagonal())] of a square array *)
Definition diag_part {A} (d z : A) (M : ndarray A) : ndarray A :=
  tabulate (shape0 M) (shape0 M)
    (fun i j => if i =? j then item d M i i else z).

(** [M op N], element by element, for arrays of one shape *)
Definition elementwise {A} (d : A) (op : A -> A -> A) (M N : ndarray A)
  : ndarray A :=
  tabulate (shape0 M) (shape1 M) (fun i j => op (item d M i j) (item d N i j)).

End Nd.

Export Nd.

(* ================================================================= *)
(** ** Weighted adjacency matrices read as graphs: 0 is no edge *)

Module Graph.

(** [v] and [k] are joined in [G] *)
Definition adjacent (G : ndarray fval) (v k : nat) : bool :=
  fneb (item NaN G v k) (Fin 0) || fneb (item NaN G k v) (Fin 0).

(** exactly one of [G[u, v]] and [G[v, u]] is nonzero *)
Definition one_direction (G : ndarray fval) (u v : nat) : bool :=
  xorb (fneb (item NaN G u v) (Fin 0)) (fneb (item NaN G v u) (Fin 0)).

(** every weight is a number [>= 0] *)
Definition weights_nonnegative (G : ndarray fval) : Prop :=
  forall i j x, get G i j = Ok x -> fgeb x (Fin 0) = true.

(** [u] is followed by [v] somewhere in the ordering *)
Definition consecutive (orders : list nat) (u v : nat) : Prop :=
  exists i, orders !! i = Some u /\ orders !! (S i) = Some v.

(** The pass of the orientation loop at index [i] works on the pair
    [{u, v}]. *)
Definition handles_pair (orders : list nat) (u v i : nat) : Prop :=
  (orders !! (i - 1) = Some u /\ orders !! i = Some v) \/
  (orders !! (i - 1) = Some v /\ orders !! i = Some u).

End Graph.

Export Graph.

(* ================================================================= *)
(** ** Cluster transition aggregator *)

Module Aggregator.

Local Open Scope Q_scope.

(** [np.max] of one row (a zero-size reduction fails) *)
Definition row_max (r : list Q) : result Q :=
  match r with
  | [] => Raise ValueError
  | x :: t => Ok (fold_left (fun m y => if Qlt_b m y then y else m) t x)
  end.

(** [np.argmax] of one row: the first position of the maximum *)
Fixpoint argmax_from (l : list Q) (pos : nat) (best : Q) (best_pos : nat)
  : nat :=
  match l with
  | [] => best_pos
  | x :: t =>
      if Qlt_b best x then argmax_from t (S pos) x pos
      else argmax_from t (S pos) best best_pos
  end.

Definition row_argmax (r : list Q) : result nat :=
  match r with
  | [] => Raise ValueError
  | x :: t => Ok (argmax_from t 1%nat x 0%nat)
  end.

(** [np.where(assignment == i)[0]] *)
Fixpoint where_eq (assignment : list nat) (i : nat) (pos : nat) : list nat :=
  match assignment with
  | [] => []
  | c :: t =>
      if (c =? i)%nat then pos :: where_eq t i (S pos)
      else where_eq t i (S pos)
  end.

(** [np.sum] of a Python list *)
Definition np_sum (l : list Q) : Q := fold_left Qplus l 0.

Section Accumulate.

Variable transition_matrix : ndarray Q.
Variable highest_probability : list Q.
Variable assignment : list nat.

(** [clusters[i]]: the dict is filled for every [i] of [range(R.shape[1])]
    before it is read, and read only at those keys. *)
Definition clusters (i : nat) : list nat := where_eq assignment i 0.

(** The comprehension under [np.sum], lines 81-85. *)
Definition pair_mass (a b : nat) : result Q :=
  let* terms :=
    comprehension
      (fun ij : nat * nat =>
         let* pi := index highest_probability (fst ij) in
         let* pj := index highest_probability (snd ij) in
         let* t := get transition_matrix (fst ij) (snd ij) in
         Ok (pi * pj * t))
      (list_prod (clusters a) (clusters b)) in
  Ok (np_sum terms).

(** Body of the inner loop, lines 81-87, on the pair
    [(transition, totals)]. *)
Definition inner_body (a b : nat) (st : ndarray Q * list Q)
  : result (ndarray Q * list Q) :=
  let* q := pair_mass a b in
  let* ta := index (snd st) a in
  let* totals := store (snd st) a (ta + q) in
  let* transition := set (fst st) a b q in
  Ok (transition, totals).

(** The two nested loops, lines 79-87. *)
Definition accumulate (k : nat) : result (ndarray Q * list Q) :=
  for_each
    (fun a st => for_each (inner_body a) (seq a (k - a)) st)
    (seq 0 k)
    (full k k 0, replicate k 0).

End Accumulate.

(** [transition / totals] with [totals] reshaped to a column. *)
Definition divide_rows (transition : ndarray Q) (totals : list Q)
  : ndarray fval :=
  Arr (shape0 transition) (shape1 transition)
    (zip_with (fun row t => map (fun x => fdiv (Fin x) (Fin t)) row)
       (rows transition) totals).

(** Lines 90-92: the division, [res[res == np.inf] = 0], [np.nan_to_num]. *)
Definition normalize (transition : ndarray Q) (totals : list Q)
  : ndarray fval :=
  amap nan_to_num (amap (zero_where_eq PInf) (divide_rows transition totals)).

(** Line 93: [res + res.T - np.diag(res.diagonal())]. *)
Definition symmetrize (res : ndarray fval) : ndarray fval :=
  elementwise NaN fsub
    (elementwise NaN fadd res (transpose NaN res))
    (diag_part NaN (Fin 0) res).

(** The intermediate values up to line 92: [(transition, totals, res)]. *)
Definition raw_stage (transition_matrix R : ndarray Q)
  : result (ndarray Q * list Q * ndarray fval) :=
  let* highest_probability := comprehension row_max (rows R) in
  let* assignment := comprehension row_argmax (rows R) in
  let* st := accumulate transition_matrix highest_probability assignment
               (shape1 R) in
  Ok (fst st, snd st, normalize (fst st) (snd st)).

Definition _compute_transition_matrix (transition_matrix R : ndarray Q)
  : result (ndarray fval) :=
  let* st := raw_stage transition_matrix R in
  Ok (symmetrize (snd st)).

(** *** Names for what the loops compute *)

(** The value [q] of the pair [(a, b)], 0 where the comprehension fails. *)
Definition mass (transition_matrix : ndarray Q) (highest_probability : list Q)
  (assignment : list nat) (a b : nat) : Q :=
  match pair_mass transition_matrix highest_probability assignment a b with
  | Ok q => q
  | Raise _ => 0
  end.

(** The loop state is a [k] by [k] array and a list of [k] totals. *)
Definition state_shape (k : nat) (st : ndarray Q * list Q) : Prop :=
  wf (fst st) /\ shape0 (fst st) = k /\ shape1 (fst st) = k /\
  length (snd st) = k.

(** Inputs the aggregator is meant for: a cells by cells transition matrix
    and a cells by clusters assignment matrix with at least one cluster. *)
Definition valid_input (transition_matrix R : ndarray Q) : Prop :=
  wf transition_matrix /\ wf R /\
  shape0 transition_matrix = shape0 R /\ shape1 transition_matrix = shape0 R /\
  (0 < shape1 R)%nat.

Definition nonnegative (M : ndarray Q) : Prop :=
  forall i j x, get M i j = Ok x -> (0 <= x)%Q.

(** The sum of one row of doubles, from the left. *)
Definition row_total (r : list fval) : fval := fold_left fadd r (Fin 0).

End Aggregator.

Export Aggregator.

(* ================================================================= *)
(** ** Segment likelihood evaluator *)

Module Likelihood.

Section WithLog.

(** [np.log] on a positive finite double; a library function, taken as
    given.  What it does at the special values is written out below. *)
Variable ln : Q -> Q.

Definition np_log (x : fval) : fval :=
  match x with
  | Fin q =>
      if Qlt_b 0 q then Fin (ln q)
      else if Qeq_bool q 0 then NInf else NaN
  | PInf => PInf
  | NInf => NaN
  | NaN => NaN
  end.

(** Lines 98-101 at one element. *)
Definition clean_log (x : fval) : fval :=
  nan_to_num (zero_where_eq NInf (zero_where_eq PInf (np_log x))).

Definition log_matrix (M : ndarray fval) : ndarray fval := amap clean_log M.

(** Body of the loop of lines 103-104. *)
Definition segment_body (L : ndarray fval) (orders : list nat) (i : nat)
  (probability : list fval) : result (list fval) :=
  let* prev := index probability (i - 2) in
  let* r := index orders (i - 1) in
  let* c := index orders i in
  let* l := get L r c in
  Ok (probability ++ [fadd prev l]).

Definition _calculate_segment_probability
  (center_transition_matrix : ndarray fval) (orders : list nat)
  : result (list fval) :=
  let L := log_matrix center_transition_matrix in
  let* o0 := index orders 0 in
  let* o1 := index orders 1 in
  let* first := get L o0 o1 in
  for_each (segment_body L orders) (seq 2 (length orders - 2)) [first].

End WithLog.

End Likelihood.

Export Likelihood.

(* ================================================================= *)
(** ** Cluster tree orienter *)

Module Orienter.

(** Body of the loop of lines 117-126. *)
Definition orient_body (orders : list nat)
  (segment_p segment_p_reversed : list fval) (i : nat)
  (velocity_tree : ndarray fval) : result (ndarray fval) :=
  let* r := index orders (i - 1) in
  let* c := index orders i in
  let* p := index segment_p (i - 1) in
  let* p_rev := index segment_p_reversed (i - 1) in
  if fgeb p p_rev then
    let* x := get velocity_tree r c in
    let* y := get velocity_tree c r in
    let* t := set velocity_tree r c (py_max x y) in
    set t c r (Fin 0)
  else
    let* x := get velocity_tree r c in
    let* y := get velocity_tree c r in
    let* t := set velocity_tree c r (py_max x y) in
    set t r c (Fin 0).

Definition orient (orders : list nat)
  (segment_p segment_p_reversed : list fval) (velocity_tree : ndarray fval)
  : result (ndarray fval) :=
  for_each (orient_body orders segment_p segment_p_reversed)
    (seq 1 (length orders - 1)) velocity_tree.

(** [construct_velocity_tree], with what it reads from [adata] as
    arguments: the transition matrix, [R], the ordering ([np.argsort] of
    the centers' order is done by numpy) and the spanning tree. *)
Definition construct_velocity_tree (ln : Q -> Q)
  (transition_matrix R : ndarray Q) (orders : list nat)
  (velocity_tree : ndarray fval) : result (ndarray fval) :=
  let* center_transition_matrix :=
    _compute_transition_matrix transition_matrix R in
  let* segment_p :=
    _calculate_segment_probability ln center_transition_matrix orders in
  let* segment_p_reversed :=
    _calculate_segment_probability ln center_transition_matrix (rev orders) in
  orient orders segment_p segment_p_reversed velocity_tree.

End Orienter.

Export Orienter.

(* ================================================================= *)
(** ** Per-cell graph contractor *)

Module Contractor.

(** Lines 23-26: the columns [nb_id] with [G[nodeid][nb_id] != 0]. *)
Definition neighbours_body (G : ndarray fval) (nodeid nb_id : nat)
  (nb_ids : list nat) : result (list nat) :=
  let* w := get G nodeid nb_id in
  if fneb w (Fin 0) then Ok (nb_ids ++ [nb_id]) else Ok nb_ids.

(** Lines 34-38 on the pair [(min_val, min_ind)]; [min_ind] is a local of
    the function, bound only once a weight below [min_val] is met. *)
Definition scan_body (G : ndarray fval) (nodeid i : nat)
  (st : fval * option nat) : result (fval * option nat) :=
  let* w := get G nodeid i in
  if fneb w (Fin 0) then
    if fltb w (fst st) then Ok (w, Some i) else Ok st
  else Ok st.

(** Lines 39-43. *)
Definition reroute_body (nodeid : nat) (min_val : fval)
  (min_ind : option nat) (i : nat) (G : ndarray fval)
  : result (ndarray fval) :=
  match min_ind with
  | None => Raise UnboundLocalError
  | Some m =>
      if i =? m then Ok G
      else
        let* w := get G nodeid i in
        let new_weight := fadd w min_val in
        let* G1 := set G i m new_weight in
        set G1 m i new_weight
  end.

(** Lines 30-31 and 45-46: only the edge to [nb_ids[0]] is cleared. *)
Definition clear_first (nodeid : nat) (nb_ids : list nat) (G : ndarray fval)
  : result (ndarray fval) :=
  let* nb0 := index nb_ids 0 in
  let* G1 := set G nodeid nb0 (Fin 0) in
  set G1 nb0 nodeid (Fin 0).

(** Body of the loop over [nodeid], lines 23-46. *)
Definition contract_body (nodeid : nat) (st : ndarray fval * option nat)
  : result (ndarray fval * option nat) :=
  let G := fst st in
  let* row0 := index (rows G) 0 in
  let* nb_ids :=
    for_each (neighbours_body G nodeid) (seq 0 (length row0)) [] in
  if length nb_ids =? 1 then
    let* G1 := clear_first nodeid nb_ids G in
    Ok (G1, snd st)
  else
    let* mm :=
      for_each (scan_body G nodeid) (seq 0 (length row0)) (PInf, snd st) in
    let* G1 := for_each (reroute_body nodeid (fst mm) (snd mm)) nb_ids G in
    let* G2 := clear_first nodeid nb_ids G1 in
    Ok (G2, snd mm).

Definition remove_velocity_points (G : ndarray fval) (n : nat)
  : result (ndarray fval) :=
  let* st := for_each contract_body (seq n n) (G, None) in
  Ok (fst st).

(** *** What the contractor is asked to deliver, as checks on a graph *)

(** [v] has no edge to any of the nodes [0 .. size-1] *)
Definition isolated (G : ndarray fval) (size v : nat) : bool :=
  forallb (fun k => negb (adjacent G v k)) (seq 0 size).

(** number of edges among the nodes [0 .. size-1] *)
Definition edge_count (G : ndarray fval) (size : nat) : nat :=
  length
    (filter (fun ij : nat * nat =>
               (fst ij <? snd ij) && adjacent G (fst ij) (snd ij))
       (list_prod (seq 0 size) (seq 0 size))).

(** one round of reachability among the nodes [0 .. size-1] *)
Definition grow (G : ndarray fval) (size : nat) (seen : list nat) : list nat :=
  filter
    (fun j => existsb (fun i => (i =? j) || adjacent G i j) seen)
    (seq 0 size).

Definition connected (G : ndarray fval) (size : nat) : bool :=
  match size with
  | O => true
  | S _ => length (Nat.iter size (grow G size) [0]) =? size
  end.

(** connected with one edge less than nodes *)
Definition is_tree (G : ndarray fval) (size : nat) : bool :=
  connected G size && (edge_count G size + 1 =? size).

(** no duplicate [n .. 2n-1] is adjacent to a duplicate *)
Definition no_duplicate_pair (G : ndarray fval) (n : nat) : bool :=
  forallb (fun v => forallb (fun k => negb (adjacent G v k)) (seq n n))
    (seq n n).

End Contractor.

Export Contractor.

(* ================================================================= *)
(** ** Branch direction voter *)

(** [construct_velocity_tree_py] is an unfinished port.  The lines that read
    the branches from a file (178-187) cannot run as written, so the
    branches are taken as given: lists of node numbers.  The rest is modelled
    as it is written: [path(bp)] calls a list, which Python refuses with
    [TypeError], and the report glues a number to a string, which it refuses
    with [TypeError] as well. *)

Module Voter.

(** [l(arg)] for a list [l]: a list is not callable. *)
Definition call_list {A} (l : list A) (arg : nat) : result A :=
  Raise TypeError.

(** [l[i]] for an index that may be negative: [l[-1]] is the last element. *)
Definition index_z {A} (l : list A) (i : Z) : result A :=
  if (i <? 0)%Z then
    if (- i <=? Z.of_nat (length l))%Z
    then index l (Z.to_nat (Z.of_nat (length l) + i))
    else Raise IndexError
  else index l (Z.to_nat i).

Section Votes.

(** Lines 198-217 for the node [u]: the nodes [i <= n] met on the tree
    path from [u] to its duplicate [u + n]; scipy's [shortest_path] and
    the walk over its predecessors are taken as given. *)
Variable valid_idx_of : nat -> list nat.

(** Lines 221-225 and 230-234: the value of
    [calculate_angle(Z[:, u], Z[:, w], Z[:, u + n]) / 3.14 * 180] as the
    comparison with 90 sees it, or the failure of that comparison. *)
Variable angle_deg : nat -> nat -> result fval.

(** Body of the loop over [bp], lines 194-246.  Its first statement,
    [u = path(bp)], is a call. *)
Definition vote (path : list nat) (bp : nat) (pos_direct : nat)
  : result nat :=
  let* u := call_list path bp in
  let valid_idx := valid_idx_of u in
  if length valid_idx =? 1 then
    if bp <? length path then
      let* w := call_list path bp in
      let* angle := angle_deg u w in
      if fltb angle (Fin 90) then Ok (pos_direct + 1) else Ok pos_direct
    else
      let* w := call_list path (bp - 1) in
      let* angle := angle_deg u w in
      if fltb (Fin 90) angle then Ok (pos_direct + 1) else Ok pos_direct
  else
    if bp <? length path then
      let* w := index path (bp + 1) in
      let* d := index valid_idx 2 in
      if w =? d then Ok (pos_direct + 1) else Ok pos_direct
    else
      let* w := index_z path (Z.of_nat bp - 1) in
      let* d := index valid_idx 2 in
      if negb (w =? d) then Ok (pos_direct + 1) else Ok pos_direct.

(** Lines 192-246: [pos_direct] of one branch. *)
Definition tally (path : list nat) : result nat :=
  for_each (vote path) (seq 0 (length path)) 0.

End Votes.

(** Line 248. *)
Definition neg_direct (path : list nat) (pos_direct : nat) : Z :=
  (Z.of_nat (length path) - Z.of_nat pos_direct)%Z.

(** Lines 266-267 at one [bp]: [dG[path[bp], path[bp + 1]] = 1]. *)
Definition forward_edge (path : list nat) (bp : nat) (dG : ndarray fval)
  : result (ndarray fval) :=
  let* a := index path bp in
  let* b := index path (bp + 1) in
  set dG a b (Fin 1).

(** Lines 270-271 at one [bp]: [dG[path(bp + 1), path(bp)] = 1], with two
    calls of the list. *)
Definition backward_edge (path : list nat) (bp : nat) (dG : ndarray fval)
  : result (ndarray fval) :=
  let* a := call_list path (bp + 1) in
  let* b := call_list path bp in
  set dG a b (Fin 1).

(** Lines 249-261, the first [print]: the string built so far is added to
    [path[0]], a number. *)
Definition report (path : list nat) : result unit :=
  let* first := index path 0 in
  Raise TypeError.

(** Lines 265-271. *)
Definition write_edges (path : list nat) (pos_direct : nat) (neg : Z)
  (dG : ndarray fval) : result (ndarray fval) :=
  if (neg <? Z.of_nat pos_direct)%Z then
  for_each (forward_edge path) (seq 0 (length path - 1)) dG
  else
  for_each (backward_edge path) (seq 0 (length path - 1)) dG.

(** Lines 248-271. *)
Definition orient_branch (path : list nat) (pos_direct : nat)
  (dG : ndarray fval) : result (ndarray fval) :=
  let neg := neg_direct path pos_direct in
  let* reported := report path in
  write_edges path pos_direct neg dG.

(** Lines 189-271: [dG] after all branches. *)
Definition vote_branches (valid_idx_of : nat -> list nat)
  (angle_deg : nat -> nat -> result fval) (n : nat)
  (branch_cell : list (list nat)) : result (ndarray fval) :=
  for_each
    (fun path dG =>
       let* pos_direct := tally valid_idx_of angle_deg path in
       orient_branch path pos_direct dG)
    branch_cell (full n n (Fin 0)).

End Voter.

Export Voter.

(* ================================================================= *)
(** ** The angle helper, over the reals *)

Module Angle.

Local Open Scope R_scope.

Definition vsub (a b : list R) : list R := zip_with Rminus a b.

(** [scipy.linalg.norm] of a vector: the Euclidean norm *)
Definition norm (v : list R) : R :=
  sqrt (fold_right (fun x acc => x * x + acc) 0 v).

Definition vdiv (v : list R) (s : R) : list R := map (fun x => x / s) v.

(** Lines 63-68 for one-dimensional arrays of one length, where [.T] does
    nothing and [*] multiplies place by place. *)
Definition calculate_angle (o y x : list R) : list R :=
  let yo := vsub y o in
  let norm_yo := vdiv yo (norm yo) in
  let xo := vsub x o in
  let norm_xo := vdiv xo (norm xo) in
  map acos (zip_with Rmult norm_yo norm_xo).



End Angle.

Export Angle.

(* ================================================================= *)
(** ** Data of the worked examples *)

Module Examples.

(** The three-cluster matrix of the specification's example, one cell per
    cluster, and the assignment of each cell to its own cluster with
    confidence 1. *)
Definition T3 : ndarray Q := Arr 3 3 [[0; 2; 0]; [2; 0; 1]; [0; 1; 0]]%Q.
Definition I3 : ndarray Q := Arr 3 3 [[1; 0; 0]; [0; 1; 0]; [0; 0; 1]]%Q.

(** What the aggregator returns on them. *)
Definition M3 : ndarray Q := Arr 3 3 [[0; 1; 0]; [1; 0; 1]; [0; 1; 0]]%Q.

(** A first-order stand-in for the logarithm, used where a concrete
    function is needed to run the evaluator. *)
Definition ln_affine (q : Q) : Q := (q - 1)%Q.

(** A tree on four nodes, [n = 2]: real nodes 0 and 1, duplicates 2 and 3,
    edges 0-2 (weight 1), 2-1 (weight 2) and 1-3 (weight 1). *)
Definition G4 : ndarray fval :=
  amap Fin (Arr 4 4 [[0; 0; 1; 0]; [0; 0; 2; 1]; [1; 2; 0; 0]; [0; 1; 0; 0]]%Q).

(** An undirected tree on two clusters, its weight on both sides. *)
Definition Tree2 : ndarray fval := amap Fin (Arr 2 2 [[0; 1]; [1; 0]]%Q).

End Examples.

Export Examples.

(** numpy's [np.array_equal] on arrays of doubles *)
Definition array_equal (M N : ndarray fval) : bool :=
  (shape0 M =? shape0 N) && (shape1 M =? shape1 N) &&
  forallb (fun i => forallb (fun j => feqb (item NaN M i j) (item NaN N i j))
                      (seq 0 (shape1 M)))
    (seq 0 (shape0 M)).

(** Equality of two lists of doubles, place by place, as [==] sees it. *)
Definition list_equal (l1 l2 : list fval) : bool :=
  (length l1 =? length l2) && forallb (fun xy => feqb (fst xy) (snd xy)) (zip l1 l2).

(* ================================================================= *)
(** ** The edge list of the contracted graph *)

Module EdgeList.

(** Body of the inner loop of lines 168-173 on the triple
    [(row, col, val)]; the value appended to [val] is read from row 1. *)
Definition edge_body (sG : ndarray fval) (i j : nat)
  (st : list nat * list nat * list fval)
  : result (list nat * list nat * list fval) :=
  let* x := get sG i j in
  if fneb x (Fin 0) then
    let* v := get sG 1 j in
    Ok (fst (fst st) ++ [i], snd (fst st) ++ [j], snd st ++ [v])
  else Ok st.

(** Lines 165-173. *)
Definition edge_lists (sG : ndarray fval)
  : result (list nat * list nat * list fval) :=
  for_each
    (fun i st => for_each (edge_body sG i) (seq 0 (shape1 sG)) st)
    (seq 0 (shape0 sG))
    ([], [], []).

End EdgeList.

Export EdgeList.

(* ================================================================= *)
(** ** Moments by stratum (dynamo/tools/moments.py) *)

Module Moments.

Section Stratify.

(** The values a stratum label can take, with the order [np.unique] sorts
    them by and the comparison [==] of numpy on them.  Being the same value
    is decidable; [==] need not agree with it ([nan == nan] is false). *)
Context {key : Type} `{EqDecision key}.
Variable leb : key -> key -> bool.
Variable eqb : key -> key -> bool.

Fixpoint insert_sorted (x : key) (l : list key) : list key :=
  match l with
  | [] => [x]
  | y :: t => if leb x y then x :: y :: t else y :: insert_sorted x t
  end.

(** [np.unique]: the distinct values, sorted. *)
Definition np_unique (strata : list key) : list key :=
  fold_right insert_sorted [] (remove_dups strata).

Context {A : Type}.

(** [arr[mask]] for a boolean array [mask]: numpy refuses a mask whose
    length is not that of [arr]. *)
Definition mask_select (arr : list A) (mask : list bool) : result (list A) :=
  if length mask =? length arr
  then Ok (map fst (List.filter snd (zip arr mask)))
  else Raise IndexError.

(** [stratify], lines 8-10. *)
Definition stratify (arr : list A) (strata : list key)
  : result (list (list A)) :=
  let s := np_unique strata in
  comprehension
    (fun v => mask_select arr (map (fun t => eqb t v) strata))
    s.

(** [strat_mom], lines 13-15. *)
Definition strat_mom {B} (arr : list A) (strata : list key)
  (fcn_mom : list A -> B) : result (list B) :=
  let* x := stratify arr strata in
  Ok (map fcn_mom x).

End Stratify.

(** [np.mean] of a one-dimensional array: the mean of nothing is [nan]. *)
Definition np_mean (l : list Q) : fval :=
  fdiv (Fin (np_sum l)) (Fin (inject_Z (Z.of_nat (length l)))).

(** The product of two doubles. *)
Definition fmul (x y : fval) : fval :=
  match x, y with
  | NaN, _ | _, NaN => NaN
  | Fin a, Fin b => Fin (a * b)
  | Fin a, PInf | PInf, Fin a =>
      if Qeq_bool a 0 then NaN else if Qlt_b 0 a then PInf else NInf
  | Fin a, NInf | NInf, Fin a =>
      if Qeq_bool a 0 then NaN else if Qlt_b 0 a then NInf else PInf
  | PInf, PInf | NInf, NInf => PInf
  | PInf, NInf | NInf, PInf => NInf
  end.

(** [np.sum(W, 1)] *)
Definition row_sums (W : ndarray fval) : list fval := map row_total (rows W).

(** [np.diag(v)] of a one-dimensional array *)
Definition np_diag (v : list fval) : ndarray fval :=
  tabulate (length v) (length v)
    (fun i j => if i =? j then nth i v NaN else Fin 0).

(** [A @ B] for two-dimensional arrays: the inner sizes must agree. *)
Definition matmul (A B : ndarray fval) : result (ndarray fval) :=
  if shape1 A =? shape0 B then
    Ok (tabulate (shape0 A) (shape1 B)
          (fun i j =>
             fold_left fadd
               (map (fun k => fmul (item NaN A i k) (item NaN B k j))
                    (seq 0 (shape1 A)))
               (Fin 0)))
  else Raise ValueError.

(** [calc_1nd_moment], lines 36-40. *)
Definition calc_1nd_moment (X W : ndarray fval) (normalize_W : bool)
  : result (ndarray fval) :=
  let* W' :=
    if normalize_W then
      let d := row_sums W in
      matmul (np_diag (map (fdiv (Fin 1)) d)) W
    else Ok W in
  matmul W' X.

End Moments.

Export Moments.

(* ================================================================= *)
(** ** Further notions used in the properties *)

Module Notions.

(** [G[i][j]] and [G[j][i]] read the same, everywhere *)
Definition symmetric (G : ndarray fval) : Prop :=
  forall i j, get G i j = get G j i.

(** every entry of [G] is 0 or 1 *)
Definition binary (G : ndarray fval) : Prop :=
  forall i j x, get G i j = Ok x -> x = Fin 0 \/ x = Fin 1.

(** Four nodes, [n = 2], with the edges 0-1 and 1-3 only: the duplicate 2
    has no neighbour. *)
Definition G4_stranded : ndarray fval :=
  amap Fin (Arr 4 4 [[0; 1; 0; 0]; [1; 0; 0; 1]; [0; 0; 0; 0]; [0; 1; 0; 0]]%Q).

(** A tree on two clusters with the one edge [tree[0, 1] = -1]. *)
Definition Tree2_negative : ndarray fval :=
  amap Fin (Arr 2 2 [[0; -1]; [0; 0]]%Q).

(** the cleaned logarithm of the entry of [M] for the step from the [j]-th
    to the [j+1]-th cluster of an ordering *)
Definition log_step (ln : Q -> Q) (M : ndarray fval) (orders : list nat)
  (j : nat) : fval :=
  clean_log ln (item NaN M (nth j orders 0) (nth (S j) orders 0)).

(** the total of cluster [a] as the loops build it: the sum of [q(a, b)]
    over the clusters [b >= a] *)
Definition total_from (T : ndarray Q) (hp : list Q) (assignment : list nat)
  (k a : nat) : Q :=
  np_sum (map (mass T hp assignment a) (seq a (k - a))).

(** the sum of the weights of row [i] *)
Definition weight_sum (W : ndarray Q) (i : nat) : Q :=
  np_sum (map (fun j => item 0%Q W i j) (seq 0 (shape1 W))).

(** the sum of the entries of column [c] of [X], each weighted by row [i]
    of [W] *)
Definition weighted_sum (W X : ndarray Q) (i c : nat) : Q :=
  np_sum (map (fun j => (item 0 W i j * item 0 X j c)%Q) (seq 0 (shape1 W))).

End Notions.

Export Notions.

(* ================================================================= *)
(** * Properties *)

(** ** Lists, failures and loops *)

Section PyFacts.

Context {A : Type}.

Lemma index_Ok (l : list A) (i : nat) (x : A) :
  index l i = Ok x <-> l !! i = Some x.
Proof.
  unfold index. destruct (l !! i); split; intros H; inversion H; reflexivity.
Qed.

Lemma index_lt (l : list A) (i : nat) :
  i < length l -> exists x, index l i = Ok x /\ l !! i = Some x.
Proof.
  intros H. destruct (lookup_lt_is_Some_2 l i H) as [x Hx].
  exists x. split; [apply index_Ok|]; assumption.
Qed.

Lemma store_lt (l : list A) (i : nat) (x : A) :
  i < length l -> store l i x = Ok (<[i:=x]> l).
Proof.
  intros H. unfold store.
  destruct (Nat.ltb_spec i (length l)); [reflexivity|lia].
Qed.

Lemma store_Ok (l l' : list A) (i : nat) (x : A) :
  store l i x = Ok l' -> i < length l /\ l' = <[i:=x]> l.
Proof.
  unfold store. destruct (Nat.ltb_spec i (length l)) as [Hlt|Hge];
    intros E; inversion E.
  split; [assumption|reflexivity].
Qed.

Lemma lookup_map {B} (f : A -> B) (l : list A) (i : nat) :
  map f l !! i = f <$> (l !! i).
Proof.
  revert i. induction l as [|a l IH]; intros [|i]; simpl; auto.
Qed.

End PyFacts.

(** A loop whose body keeps an invariant and never fails on states that
    satisfy it runs to the end and keeps the invariant. *)
Lemma for_each_invariant {S I} (Inv : S -> Prop) (body : I -> S -> result S)
  (its : list I) (s : S) :
  Inv s ->
  (forall it st, In it its -> Inv st -> exists st', body it st = Ok st' /\ Inv st') ->
  exists s', for_each body its s = Ok s' /\ Inv s'.
Proof.
  revert s. induction its as [|it its IH]; intros s Hs Hbody; simpl.
  - exists s. split; [reflexivity|assumption].
  - destruct (Hbody it s (or_introl eq_refl) Hs) as [st' [E Hst']].
    rewrite E. simpl. apply IH; [assumption|].
    intros it' st Hin. apply Hbody. right. assumption.
Qed.

(** The same for a loop that is only known to have finished. *)
Lemma for_each_preserves {S I} (Inv : S -> Prop) (body : I -> S -> result S)
  (its : list I) (s s' : S) :
  (forall it st st', In it its -> Inv st -> body it st = Ok st' -> Inv st') ->
  Inv s -> for_each body its s = Ok s' -> Inv s'.
Proof.
  revert s. induction its as [|it its IH]; intros s Hbody Hs; simpl.
  - intros E. inversion E. subst. assumption.
  - destruct (body it s) as [st|e] eqn:E; simpl; [|discriminate].
    apply IH.
    + intros it' st0 st1 Hin. apply Hbody. right. assumption.
    + apply (Hbody it s st); [left; reflexivity|assumption|assumption].
Qed.

Lemma comprehension_Ok {A B} (f : A -> result B) (l : list A) :
  (forall a, In a l -> exists b, f a = Ok b) ->
  exists bs, comprehension f l = Ok bs /\ Forall2 (fun a b => f a = Ok b) l bs.
Proof.
  induction l as [|a l IH]; intros H; simpl.
  - exists []. split; [reflexivity|constructor].
  - destruct (H a (or_introl eq_refl)) as [b Hb].
    destruct IH as [bs [E F]].
    { intros a' Ha'. apply H. right. assumption. }
    rewrite Hb, E. simpl. exists (b :: bs). split; [reflexivity|].
    constructor; assumption.
Qed.

(** ** Arrays *)

Section NdFacts.

Context {A : Type}.

Lemma wf_tabulate (n m : nat) (f : nat -> nat -> A) : wf (tabulate n m f).
Proof.
  unfold wf, tabulate. simpl. split.
  - rewrite length_map, length_seq. reflexivity.
  - apply Forall_lookup. intros i r Hr. rewrite lookup_map in Hr.
    destruct (seq 0 n !! i); inversion Hr.
    rewrite length_map, length_seq. reflexivity.
Qed.

Lemma get_tabulate (n m : nat) (f : nat -> nat -> A) (i j : nat) :
  i < n -> j < m -> get (tabulate n m f) i j = Ok (f i j).
Proof.
  intros Hi Hj. unfold get, tabulate, index. simpl.
  rewrite lookup_map, (lookup_seq_lt 0 n i Hi). simpl.
  rewrite lookup_map, (lookup_seq_lt 0 m j Hj). reflexivity.
Qed.

Lemma item_tabulate (d : A) (n m : nat) (f : nat -> nat -> A) (i j : nat) :
  i < n -> j < m -> item d (tabulate n m f) i j = f i j.
Proof.
  intros Hi Hj. unfold item. rewrite get_tabulate by assumption. reflexivity.
Qed.

Lemma get_lt (M : ndarray A) (i j : nat) :
  wf M -> i < shape0 M -> j < shape1 M -> exists x, get M i j = Ok x.
Proof.
  intros [Hr Hc] Hi Hj. unfold get.
  destruct (index_lt (rows M) i) as [r [E Hl]]; [lia|].
  rewrite E. simpl.
  assert (length r = shape1 M) as Hlen.
  { exact (proj1 (Forall_lookup _ _) Hc i r Hl). }
  destruct (index_lt r j) as [x [E' _]]; [lia|].
  exists x. exact E'.
Qed.

Lemma get_Ok_lt (M : ndarray A) (i j : nat) (x : A) :
  wf M -> get M i j = Ok x -> i < shape0 M /\ j < shape1 M.
Proof.
  intros [Hr Hc]. unfold get.
  destruct (index (rows M) i) as [r|e] eqn:E; simpl; [|discriminate].
  intros E'. apply index_Ok in E. apply index_Ok in E'.
  assert (length r = shape1 M) as Hlen.
  { exact (proj1 (Forall_lookup _ _) Hc i r E). }
  apply lookup_lt_Some in E. apply lookup_lt_Some in E'. lia.
Qed.

Lemma get_amap {B} (f : A -> B) (M : ndarray A) (i j : nat) :
  get (amap f M) i j = let* x := get M i j in Ok (f x).
Proof.
  unfold get, amap, index. simpl. rewrite lookup_map.
  destruct (rows M !! i) as [r|]; simpl; [|reflexivity].
  rewrite lookup_map. destruct (r !! j); reflexivity.
Qed.

Lemma wf_amap {B} (f : A -> B) (M : ndarray A) : wf M -> wf (amap f M).
Proof.
  intros [Hr Hc]. unfold wf, amap. simpl. split.
  - rewrite length_map. exact Hr.
  - apply Forall_lookup. intros i r Hin. rewrite lookup_map in Hin.
    destruct (rows M !! i) as [r0|] eqn:E; inversion Hin.
    rewrite length_map. exact (proj1 (Forall_lookup _ _) Hc i r0 E).
Qed.

(** What a cell write does: shapes stay, the written cell reads back, the
    others are as before. *)
Lemma set_Ok (M M' : ndarray A) (i j : nat) (x : A) :
  wf M -> set M i j x = Ok M' ->
  wf M' /\ shape0 M' = shape0 M /\ shape1 M' = shape1 M /\
  i < shape0 M /\ j < shape1 M /\
  get M' i j = Ok x /\
  (forall i' j', (i', j') <> (i, j) -> get M' i' j' = get M i' j').
Proof.
  intros [Hr Hc] HS. unfold set in HS.
  destruct (index (rows M) i) as [r|e] eqn:E; simpl in HS; [|discriminate].
  destruct (store r j x) as [r'|e] eqn:E'; simpl in HS; [|discriminate].
  inversion HS. subst M'. clear HS. simpl.
  apply index_Ok in E. apply store_Ok in E'. destruct E' as [Hj ->].
  assert (length r = shape1 M) as Hlen.
  { exact (proj1 (Forall_lookup _ _) Hc i r E). }
  assert (i < length (rows M)) as Hi by (apply lookup_lt_Some in E; exact E).
  repeat split; simpl; try lia.
  - rewrite length_insert. exact Hr.
  - apply Forall_lookup. intros i0 r0 Hi0.
    destruct (Nat.eq_dec i i0) as [->|Hne].
    + rewrite list_lookup_insert_eq in Hi0 by assumption.
      inversion Hi0. rewrite length_insert. exact Hlen.
    + rewrite list_lookup_insert_ne in Hi0 by assumption.
      exact (proj1 (Forall_lookup _ _) Hc i0 r0 Hi0).
  - unfold get, index. simpl.
    rewrite list_lookup_insert_eq by assumption. simpl.
    rewrite list_lookup_insert_eq by assumption. reflexivity.
  - intros i' j' Hne. unfold get, index. simpl.
    destruct (Nat.eq_dec i i') as [<-|Hi'].
    + rewrite list_lookup_insert_eq by assumption. rewrite E. simpl.
      rewrite list_lookup_insert_ne; [reflexivity|].
      intros ->. apply Hne. reflexivity.
    + rewrite list_lookup_insert_ne by assumption. reflexivity.
Qed.

Lemma set_lt (M : ndarray A) (i j : nat) (x : A) :
  wf M -> i < shape0 M -> j < shape1 M -> exists M', set M i j x = Ok M'.
Proof.
  intros [Hr Hc] Hi Hj. unfold set.
  destruct (index_lt (rows M) i) as [r [E Hl]]; [lia|].
  rewrite E. simpl.
  assert (length r = shape1 M) as Hlen.
  { exact (proj1 (Forall_lookup _ _) Hc i r Hl). }
  rewrite store_lt by lia. simpl. eexists. reflexivity.
Qed.

End NdFacts.

(** ** Doubles *)

Lemma nan_to_num_finite (x : fval) : is_finite (nan_to_num x) = true.
Proof. destruct x; reflexivity. Qed.

Lemma fadd_finite (x y : fval) :
  is_finite x = true -> is_finite y = true -> is_finite (fadd x y) = true.
Proof. destruct x, y; simpl; intros; congruence. Qed.

Lemma is_finite_Fin (x : fval) : is_finite x = true -> exists q, x = Fin q.
Proof. destruct x; simpl; intros H; try discriminate. exists q. reflexivity. Qed.

(** ** Segment likelihood evaluator *)

Section LikelihoodFacts.

Variable ln : Q -> Q.

Lemma clean_log_finite (x : fval) : is_finite (clean_log ln x) = true.
Proof. unfold clean_log. apply nan_to_num_finite. Qed.

Lemma log_matrix_finite (M : ndarray fval) (i j : nat) (x : fval) :
  get (log_matrix ln M) i j = Ok x -> is_finite x = true.
Proof.
  unfold log_matrix. rewrite get_amap.
  destruct (get M i j); simpl; intros E; inversion E.
  apply clean_log_finite.
Qed.

Lemma log_matrix_lt (M : ndarray fval) (i j : nat) :
  wf M -> i < shape0 M -> j < shape1 M ->
  exists x, get (log_matrix ln M) i j = Ok x.
Proof.
  intros W Hi Hj. unfold log_matrix. rewrite get_amap.
  destruct (get_lt M i j W Hi Hj) as [x E]. rewrite E. simpl.
  eexists. reflexivity.
Qed.

(** The loop of lines 103-104 started at index [i] with [i - 1] values
    already in [probability] appends one value per remaining index. *)
Lemma segment_loop_length (L : ndarray fval) (orders : list nat) (k : nat) :
  wf L -> shape0 L = k -> shape1 L = k -> Forall (fun o => o < k) orders ->
  forall m i probability,
    2 <= i -> i + m = length orders -> length probability = i - 1 ->
    exists p, for_each (segment_body L orders) (seq i m) probability = Ok p /\
              length p = length orders - 1.
Proof.
  intros W H0 H1 Hord. induction m as [|m IH]; intros i probability Hi Hn Hp.
  - simpl. exists probability. split; [reflexivity|lia].
  - simpl. unfold segment_body at 1.
    destruct (index_lt probability (i - 2)) as [prev [-> _]]; [lia|].
    destruct (index_lt orders (i - 1)) as [r [-> Hr]]; [lia|].
    destruct (index_lt orders i) as [c [-> Hc]]; [lia|].
    simpl.
    assert (r < k) as Hrk by exact (proj1 (Forall_lookup _ _) Hord _ _ Hr).
    assert (c < k) as Hck by exact (proj1 (Forall_lookup _ _) Hord _ _ Hc).
    destruct (get_lt L r c W) as [l ->]; [lia|lia|]. simpl.
    apply IH; [lia|lia|]. rewrite length_app. simpl. lia.
Qed.

Lemma segment_loop_finite (L : ndarray fval) (orders : list nat) :
  (forall i j x, get L i j = Ok x -> is_finite x = true) ->
  forall its probability p,
    Forall (fun x => is_finite x = true) probability ->
    for_each (segment_body L orders) its probability = Ok p ->
    Forall (fun x => is_finite x = true) p.
Proof.
  intros HL its probability p HF.
  apply for_each_preserves; [|exact HF].
  intros i st st' _ Hst. unfold segment_body.
  destruct (index st (i - 2)) as [prev|] eqn:Eprev; simpl; [|discriminate].
  destruct (index orders (i - 1)) as [r|]; simpl; [|discriminate].
  destruct (index orders i) as [c|]; simpl; [|discriminate].
  destruct (get L r c) as [l|] eqn:El; simpl; [|discriminate].
  intros E. inversion E. subst st'.
  apply Forall_app. split; [exact Hst|].
  constructor; [|constructor].
  apply fadd_finite; [|exact (HL _ _ _ El)].
  apply index_Ok in Eprev.
  exact (proj1 (Forall_lookup _ _) Hst _ _ Eprev).
Qed.

End LikelihoodFacts.

(** On an ordering of at least two cluster indices the evaluator returns
    one value per consecutive pair. *)
Lemma segment_probability_ok (ln : Q -> Q) (M : ndarray fval)
  (orders : list nat) (k : nat) :
  wf M -> shape0 M = k -> shape1 M = k -> Forall (fun o => o < k) orders ->
  2 <= length orders ->
  exists p, _calculate_segment_probability ln M orders = Ok p /\
            length p = length orders - 1.
Proof.
  intros W H0 H1 Hord Hlen. unfold _calculate_segment_probability.
  destruct (index_lt orders 0) as [o0 [-> Ho0]]; [lia|].
  destruct (index_lt orders 1) as [o1 [-> Ho1]]; [lia|].
  simpl.
  assert (o0 < k) as Hk0 by exact (proj1 (Forall_lookup _ _) Hord _ _ Ho0).
  assert (o1 < k) as Hk1 by exact (proj1 (Forall_lookup _ _) Hord _ _ Ho1).
  destruct (log_matrix_lt ln M o0 o1 W) as [x ->]; [lia|lia|]. simpl.
  apply (segment_loop_length (log_matrix ln M) orders k).
  - apply wf_amap. exact W.
  - exact H0.
  - exact H1.
  - exact Hord.
  - lia.
  - lia.
  - reflexivity.
Qed.

(** C9.  [_calculate_segment_probability] is defined for orderings of length
    at least 2 only: on an ordering of [n >= 2] cluster indices it returns a
    sequence of exactly [n - 1] values, and on an ordering of length 0 or 1
    its first index access is out of bounds, so that it fails with
    [IndexError] and produces no result. *)
Theorem segment_probability_needs_two (ln : Q -> Q) (M : ndarray fval)
  (orders : list nat) (k : nat) :
  wf M -> shape0 M = k -> shape1 M = k -> Forall (fun o => o < k) orders ->
  (2 <= length orders ->
   exists p, _calculate_segment_probability ln M orders = Ok p /\
             length p = length orders - 1) /\
  (length orders < 2 ->
   _calculate_segment_probability ln M orders = Raise IndexError).
Proof.
  intros W H0 H1 Hord. split; intros Hlen.
  - apply (segment_probability_ok ln M orders k); assumption.
  - unfold _calculate_segment_probability.
    destruct orders as [|o0 [|o1 rest]]; simpl in *; [reflexivity|reflexivity|lia].
Qed.

Lemma segment_probability_needs_two_witness :
  (exists p, _calculate_segment_probability ln_affine (amap Fin M3) [0; 1; 2] = Ok p /\
             length p = 2) /\
  _calculate_segment_probability ln_affine (amap Fin M3) [1] = Raise IndexError.
Proof.
  split.
  - apply (segment_probability_needs_two ln_affine (amap Fin M3) [0; 1; 2] 3).
    + apply wf_amap. split; [reflexivity|]. repeat constructor.
    + reflexivity.
    + reflexivity.
    + repeat constructor.
    + simpl. lia.
  - apply (segment_probability_needs_two ln_affine (amap Fin M3) [1] 3).
    + apply wf_amap. split; [reflexivity|]. repeat constructor.
    + reflexivity.
    + reflexivity.
    + repeat constructor.
    + simpl. lia.
Defined.


(** ** Cluster transition aggregator: the two loops *)

Ltac case_nat :=
  repeat match goal with
    | |- context [?x =? ?y] => destruct (Nat.eqb_spec x y)
    | |- context [?x <=? ?y] => destruct (Nat.leb_spec x y)
    | |- context [?x <? ?y] => destruct (Nat.ltb_spec x y)
    end.

Lemma where_eq_bound (assignment : list nat) (i pos j : nat) :
  In j (where_eq assignment i pos) -> pos <= j < pos + length assignment.
Proof.
  revert pos. induction assignment as [|c t IH]; intros pos; simpl.
  - intros [].
  - destruct (c =? i).
    + intros [<-|H]; [lia|]. apply IH in H. lia.
    + intros H. apply IH in H. lia.
Qed.

Section AccumulateFacts.

Variable T : ndarray Q.
Variable hp : list Q.
Variable assignment : list nat.
Variable k : nat.

Local Abbreviation q := (mass T hp assignment).

(** The comprehension under [np.sum] reads [highest_probability] and the
    transition matrix at cell indices only, so it cannot fail when both
    cover the cells. *)
Lemma pair_mass_ok (a b : nat) :
  wf T -> shape0 T = length assignment -> shape1 T = length assignment ->
  length hp = length assignment ->
  pair_mass T hp assignment a b = Ok (q a b).
Proof.
  intros W H0 H1 Hhp. unfold mass, pair_mass.
  destruct (comprehension_Ok
              (fun ij : nat * nat =>
                 let* pi := index hp (fst ij) in
                 let* pj := index hp (snd ij) in
                 let* t := get T (fst ij) (snd ij) in
                 Ok (pi * pj * t)%Q)
              (list_prod (clusters assignment a) (clusters assignment b)))
    as [terms [E _]].
  - intros [i j] Hin. apply in_prod_iff in Hin. destruct Hin as [Hi Hj].
    apply where_eq_bound in Hi. apply where_eq_bound in Hj. simpl.
    destruct (index_lt hp i) as [pi [-> _]]; [lia|].
    destruct (index_lt hp j) as [pj [-> _]]; [lia|].
    destruct (get_lt T i j W) as [t ->]; [lia|lia|].
    simpl. eexists. reflexivity.
  - rewrite E. reflexivity.
Qed.

Hypothesis mass_ok : forall a b, pair_mass T hp assignment a b = Ok (q a b).

(** The inner loop over [b] for a fixed [a]: the cells [(a, b0 .. b0+n-1)]
    receive their values and [totals[a]] grows by their sum. *)
Lemma inner_loop (a : nat) :
  a < k ->
  forall n b0 st t0,
    state_shape k st -> b0 + n <= k -> snd st !! a = Some t0 ->
    exists tr',
      for_each (inner_body T hp assignment a) (seq b0 n) st =
        Ok (tr', <[a := fold_left Qplus (map (q a) (seq b0 n)) t0]> (snd st)) /\
      state_shape k (tr', snd st) /\
      forall i j,
        get tr' i j =
        if (i =? a) && (b0 <=? j) && (j <? b0 + n) then Ok (q a j)
        else get (fst st) i j.
Proof.
  intros Ha. induction n as [|n IH]; intros b0 [tr totals] t0 Hst Hb Ht0;
    cbn [fst snd] in *; simpl.
  - exists tr. rewrite (list_insert_id _ _ _ Ht0). split; [reflexivity|].
    split; [exact Hst|]. intros i j. case_nat; simpl; try lia; reflexivity.
  - destruct Hst as (W & H0 & H1 & Hlen). cbn [fst snd] in *.
    unfold inner_body at 1. cbn [fst snd]. rewrite mass_ok. simpl.
    rewrite (proj2 (index_Ok totals a t0) Ht0). simpl.
    rewrite store_lt by lia. simpl.
    destruct (set_lt tr a b0 (q a b0) W) as [tr1 E1]; [lia|lia|].
    rewrite E1. simpl.
    destruct (set_Ok tr tr1 a b0 (q a b0) W E1)
      as (W1 & S0 & S1 & _ & _ & Hget & Hother).
    destruct (IH (S b0) (tr1, <[a:=(t0 + q a b0)%Q]> totals) (t0 + q a b0)%Q)
      as (tr' & E & Hshape & Hcells).
    + unfold state_shape. simpl.
      rewrite length_insert.
      split; [exact W1|]. split; [lia|]. split; lia.
    + lia.
    + simpl. apply list_lookup_insert_eq. lia.
    + cbn [fst snd] in *. exists tr'. rewrite E, list_insert_insert_eq.
      split; [reflexivity|]. split.
      * destruct Hshape as (W' & S0' & S1' & _).
        split; [exact W'|]. split; [exact S0'|]. split; [exact S1'|exact Hlen].
      * intros i j. rewrite Hcells.
        destruct (Nat.eq_dec i a) as [->|Hia];
          destruct (Nat.eq_dec j b0) as [->|Hjb].
        -- rewrite Hget. case_nat; simpl; try lia; reflexivity.
        -- rewrite Hother by congruence.
           case_nat; simpl; try lia; reflexivity.
        -- rewrite Hother by congruence.
           case_nat; simpl; try lia; reflexivity.
        -- rewrite Hother by congruence.
           case_nat; simpl; try lia; reflexivity.
Qed.

(** The outer loop over [a]: the rows [a0 .. a0+n-1] receive their cells
    from the diagonal rightwards, and their totals. *)
Lemma outer_loop :
  forall n a0 st,
    state_shape k st -> a0 + n <= k ->
    exists st',
      for_each
        (fun a st => for_each (inner_body T hp assignment a) (seq a (k - a)) st)
        (seq a0 n) st = Ok st' /\
      state_shape k st' /\
      (forall i j,
          get (fst st') i j =
          if (a0 <=? i) && (i <? a0 + n) && (i <=? j) && (j <? k)
          then Ok (q i j) else get (fst st) i j) /\
      (forall i,
          snd st' !! i =
          if (a0 <=? i) && (i <? a0 + n)
          then (fun t => fold_left Qplus (map (q i) (seq i (k - i))) t)
                 <$> (snd st !! i)
          else snd st !! i).
Proof.
  induction n as [|n IH]; intros a0 st Hst Ha; simpl.
  - exists st. split; [reflexivity|]. split; [exact Hst|]. split.
    + intros i j. case_nat; simpl; try lia; reflexivity.
    + intros i. case_nat; simpl; try lia; reflexivity.
  - assert (a0 < length (snd st)) as Hlt.
    { destruct Hst as (_ & _ & _ & ->). lia. }
    destruct (lookup_lt_is_Some_2 _ _ Hlt) as [t0 Ht0].
    destruct (inner_loop a0 ltac:(lia) (k - a0) a0 st t0 Hst ltac:(lia) Ht0)
      as (tr1 & E1 & Hshape1 & Hcells1).
    rewrite E1. simpl.
    destruct (IH (S a0)
                (tr1, <[a0:=fold_left Qplus (map (q a0) (seq a0 (k - a0))) t0]>
                        (snd st)))
      as (st' & E & Hshape & Hcells & Htotals).
    + destruct Hshape1 as (W & S0 & S1 & Hl). unfold state_shape.
      cbn [fst snd] in *.
      rewrite length_insert.
      split; [exact W|]. split; [exact S0|]. split; [exact S1|exact Hl].
    + lia.
    + exists st'. split; [exact E|]. split; [exact Hshape|]. split.
      * intros i j. rewrite Hcells. cbn [fst snd]. rewrite Hcells1.
        case_nat; simpl; try lia; try reflexivity; subst; reflexivity.
      * intros i. rewrite Htotals. cbn [fst snd].
        destruct (Nat.eq_dec i a0) as [->|Hne].
        -- rewrite list_lookup_insert_eq by lia. rewrite Ht0.
           case_nat; simpl; try lia; reflexivity.
        -- rewrite list_lookup_insert_ne by congruence.
           case_nat; simpl; try lia; reflexivity.
Qed.

Lemma state_shape_init : state_shape k (full k k 0%Q, replicate k 0%Q).
Proof.
  repeat split; simpl.
  - rewrite length_map, length_seq. reflexivity.
  - exact (proj2 (wf_tabulate k k (fun _ _ => 0%Q))).
  - apply length_replicate.
Qed.

(** What lines 79-87 leave in [transition] and [totals]. *)
Lemma accumulate_spec :
  exists tr totals,
    accumulate T hp assignment k = Ok (tr, totals) /\
    state_shape k (tr, totals) /\
    (forall a b, a < k -> b < k ->
                 get tr a b = Ok (if a <=? b then q a b else 0%Q)) /\
    (forall a, a < k ->
               totals !! a = Some (np_sum (map (q a) (seq a (k - a))))).
Proof.
  destruct (outer_loop k 0 (full k k 0%Q, replicate k 0%Q) state_shape_init)
    as ([tr totals] & E & Hshape & Hcells & Htotals); [lia|].
  exists tr, totals. split; [exact E|]. split; [exact Hshape|]. split.
  - intros a b Ha Hb. rewrite Hcells. cbn [fst snd].
    unfold full. rewrite get_tabulate by assumption.
    case_nat; simpl; try lia; reflexivity.
  - intros a Ha. rewrite Htotals. cbn [fst snd].
    rewrite lookup_replicate_2 by assumption.
    case_nat; simpl; try lia; reflexivity.
Qed.

End AccumulateFacts.


(** ** Cluster transition aggregator: normalisation and symmetrisation *)

Lemma row_reductions_ok (R : ndarray Q) :
  wf R -> 0 < shape1 R ->
  exists hp assignment,
    comprehension row_max (rows R) = Ok hp /\
    comprehension row_argmax (rows R) = Ok assignment /\
    length hp = shape0 R /\ length assignment = shape0 R.
Proof.
  intros [Hr Hc] Hk.
  assert (forall r, In r (rows R) -> exists x t, r = x :: t) as Hne.
  { intros r Hin. apply list_elem_of_In, list_elem_of_lookup in Hin.
    destruct Hin as [i Hi].
    pose proof (proj1 (Forall_lookup _ _) Hc i r Hi) as Hlen.
    destruct r as [|x t]; [simpl in Hlen; lia|]. exists x, t. reflexivity. }
  destruct (comprehension_Ok row_max (rows R)) as [hp [E1 F1]].
  { intros r Hin. destruct (Hne r Hin) as (x & t & ->). simpl. eexists.
    reflexivity. }
  destruct (comprehension_Ok row_argmax (rows R)) as [asg [E2 F2]].
  { intros r Hin. destruct (Hne r Hin) as (x & t & ->). simpl. eexists.
    reflexivity. }
  exists hp, asg. repeat split; try assumption.
  - rewrite <- (Forall2_length _ _ _ F1). exact Hr.
  - rewrite <- (Forall2_length _ _ _ F2). exact Hr.
Qed.

Section NormalizeFacts.

Variable k : nat.
Variable tr : ndarray Q.
Variable totals : list Q.
Hypothesis shape : state_shape k (tr, totals).

Lemma get_divide_rows (a b : nat) :
  a < k -> b < k ->
  exists x t,
    get tr a b = Ok x /\ totals !! a = Some t /\
    get (divide_rows tr totals) a b = Ok (fdiv (Fin x) (Fin t)).
Proof.
  intros Ha Hb. destruct shape as (W & S0 & S1 & Hlen). cbn [fst snd] in *.
  destruct (get_lt tr a b W) as [x Hx]; [lia|lia|].
  destruct (lookup_lt_is_Some_2 totals a) as [t Ht]; [lia|].
  exists x, t. split; [exact Hx|]. split; [exact Ht|].
  unfold get in *. unfold divide_rows, index in *. simpl.
  rewrite lookup_zip_with, Ht.
  destruct (rows tr !! a) as [r|]; simpl in *; [|discriminate].
  rewrite lookup_map. destruct (r !! b); simpl in *; [|discriminate].
  inversion Hx. reflexivity.
Qed.

Lemma wf_divide_rows :
  wf (divide_rows tr totals) /\
  shape0 (divide_rows tr totals) = k /\ shape1 (divide_rows tr totals) = k.
Proof.
  destruct shape as ((Hr & Hc) & S0 & S1 & Hlen). cbn [fst snd] in *.
  unfold wf, divide_rows. simpl. repeat split; try assumption.
  - rewrite length_zip_with. lia.
  - apply Forall_lookup. intros i r Hi. rewrite lookup_zip_with in Hi.
    destruct (rows tr !! i) as [r0|] eqn:E; simpl in Hi; [|discriminate].
    destruct (totals !! i); simpl in Hi; [|discriminate].
    inversion Hi. rewrite length_map.
    exact (proj1 (Forall_lookup _ _) Hc i r0 E).
Qed.

(** Lines 90-92 at one cell. *)
Lemma get_normalize (a b : nat) :
  a < k -> b < k ->
  exists x t,
    get tr a b = Ok x /\ totals !! a = Some t /\
    get (normalize tr totals) a b =
      Ok (nan_to_num (zero_where_eq PInf (fdiv (Fin x) (Fin t)))).
Proof.
  intros Ha Hb. destruct (get_divide_rows a b Ha Hb) as (x & t & Hx & Ht & E).
  exists x, t. split; [exact Hx|]. split; [exact Ht|].
  unfold normalize. rewrite !get_amap, E. reflexivity.
Qed.

Lemma wf_normalize :
  wf (normalize tr totals) /\
  shape0 (normalize tr totals) = k /\ shape1 (normalize tr totals) = k.
Proof.
  destruct wf_divide_rows as (W & S0 & S1). unfold normalize.
  split; [apply wf_amap, wf_amap, W|]. simpl. split; assumption.
Qed.

Lemma item_normalize_finite (a b : nat) :
  a < k -> b < k -> exists v, item NaN (normalize tr totals) a b = Fin v.
Proof.
  intros Ha Hb. destruct (get_normalize a b Ha Hb) as (x & t & _ & _ & E).
  unfold item. rewrite E. apply is_finite_Fin, nan_to_num_finite.
Qed.

(** Line 93 at one cell. *)
Lemma get_symmetrize (a b : nat) :
  a < k -> b < k ->
  get (symmetrize (normalize tr totals)) a b =
    Ok (fsub (fadd (item NaN (normalize tr totals) a b)
                   (item NaN (normalize tr totals) b a))
             (if a =? b then item NaN (normalize tr totals) a a else Fin 0)).
Proof.
  intros Ha Hb. destruct wf_normalize as (W & S0 & S1).
  unfold symmetrize, elementwise, transpose, diag_part.
  cbn [shape0 shape1 tabulate]. rewrite S0, S1.
  rewrite get_tabulate by assumption.
  rewrite !item_tabulate by assumption. reflexivity.
Qed.

Lemma wf_symmetrize :
  wf (symmetrize (normalize tr totals)) /\
  shape0 (symmetrize (normalize tr totals)) = k /\
  shape1 (symmetrize (normalize tr totals)) = k.
Proof.
  destruct wf_normalize as (W & S0 & S1).
  unfold symmetrize, elementwise. split; [apply wf_tabulate|].
  cbn [shape0 shape1 tabulate]. rewrite S0, S1. split; reflexivity.
Qed.

End NormalizeFacts.

(** On valid inputs the aggregator runs to the end; its intermediate values
    are the ones the loop lemmas describe. *)
Lemma raw_stage_ok (T R : ndarray Q) :
  valid_input T R ->
  exists hp assignment tr totals,
    comprehension row_max (rows R) = Ok hp /\
    comprehension row_argmax (rows R) = Ok assignment /\
    raw_stage T R = Ok (tr, totals, normalize tr totals) /\
    _compute_transition_matrix T R = Ok (symmetrize (normalize tr totals)) /\
    state_shape (shape1 R) (tr, totals) /\
    (forall a b, pair_mass T hp assignment a b = Ok (mass T hp assignment a b)) /\
    (forall a b, a < shape1 R -> b < shape1 R ->
        get tr a b = Ok (if a <=? b then mass T hp assignment a b else 0%Q)) /\
    (forall a, a < shape1 R ->
        totals !! a =
        Some (np_sum (map (mass T hp assignment a) (seq a (shape1 R - a))))).
Proof.
  intros (WT & WR & H0 & H1 & Hk).
  destruct (row_reductions_ok R WR Hk) as (hp & asg & E1 & E2 & L1 & L2).
  assert (forall a b, pair_mass T hp asg a b = Ok (mass T hp asg a b)) as Hm.
  { intros a b. apply pair_mass_ok; congruence. }
  destruct (accumulate_spec T hp asg (shape1 R) Hm)
    as (tr & totals & E & Hshape & Hcells & Htotals).
  exists hp, asg, tr, totals.
  unfold _compute_transition_matrix, raw_stage. rewrite E1, E2. simpl.
  rewrite E. simpl. repeat split; try assumption; apply Hshape.
Qed.

Lemma feqb_Fin (x y : Q) : (x == y)%Q -> feqb (Fin x) (Fin y) = true.
Proof. intros H. simpl. apply Qeq_eq_bool. exact H. Qed.

Lemma nonnegative_rows (M : ndarray Q) :
  Forall (Forall (fun x => (0 <= x)%Q)) (rows M) -> nonnegative M.
Proof.
  intros H i j x. unfold get.
  destruct (index (rows M) i) as [r|] eqn:E; simpl; [|discriminate].
  intros E'. apply index_Ok in E. apply index_Ok in E'.
  pose proof (proj1 (Forall_lookup _ _) H i r E) as Hr.
  exact (proj1 (Forall_lookup _ _) Hr j x E').
Qed.

(** C2.  For every nonnegative cell-level transition matrix and every
    assignment matrix [R] (of fitting shapes), [_compute_transition_matrix]
    returns a clusters by clusters matrix [M] that is symmetric:
    [M[a, b] == M[b, a]] for all cluster indices [a], [b]. *)
Theorem transition_matrix_symmetric (T R : ndarray Q) :
  valid_input T R -> nonnegative T ->
  exists M,
    _compute_transition_matrix T R = Ok M /\
    wf M /\ shape0 M = shape1 R /\ shape1 M = shape1 R /\
    forall a b, a < shape1 R -> b < shape1 R ->
      exists x y, get M a b = Ok x /\ get M b a = Ok y /\ feqb x y = true.
Proof.
  intros Hv _.
  destruct (raw_stage_ok T R Hv)
    as (hp & asg & tr & totals & _ & _ & _ & EM & Hshape & _).
  exists (symmetrize (normalize tr totals)). split; [exact EM|].
  destruct (wf_symmetrize _ tr totals Hshape) as (W & S0 & S1).
  split; [exact W|]. split; [exact S0|]. split; [exact S1|].
  intros a b Ha Hb.
  rewrite (get_symmetrize _ tr totals Hshape a b Ha Hb).
  rewrite (get_symmetrize _ tr totals Hshape b a Hb Ha).
  do 2 eexists. split; [reflexivity|]. split; [reflexivity|].
  destruct (Nat.eqb_spec a b) as [->|Hne].
  - rewrite ?Nat.eqb_refl.
    destruct (item_normalize_finite _ tr totals Hshape b b Hb Hb) as [d ->].
    apply feqb_Fin. reflexivity.
  - destruct (Nat.eqb_spec b a) as [->|_]; [congruence|].
    destruct (item_normalize_finite _ tr totals Hshape a b Ha Hb) as [x ->].
    destruct (item_normalize_finite _ tr totals Hshape b a Hb Ha) as [y ->].
    apply feqb_Fin. ring.
Qed.

Lemma transition_matrix_symmetric_witness :
  exists M,
    _compute_transition_matrix T3 I3 = Ok M /\
    wf M /\ shape0 M = 3 /\ shape1 M = 3 /\
    forall a b, a < 3 -> b < 3 ->
      exists x y, get M a b = Ok x /\ get M b a = Ok y /\ feqb x y = true.
Proof.
  apply (transition_matrix_symmetric T3 I3).
  - unfold valid_input, wf. simpl. repeat split; try lia; repeat constructor.
  - apply nonnegative_rows. simpl.
    repeat (constructor; try (unfold Qle; simpl; lia)).
Defined.

(** ** Sums of rationals *)

Lemma np_sum_acc (l : list Q) (acc : Q) :
  (fold_left Qplus l acc == acc + np_sum l)%Q.
Proof.
  unfold np_sum. revert acc. induction l as [|x l IH]; intros acc; simpl.
  - ring.
  - rewrite (IH (acc + x)%Q), (IH (0 + x)%Q). ring.
Qed.

Lemma np_sum_cons (x : Q) (l : list Q) : (np_sum (x :: l) == x + np_sum l)%Q.
Proof. unfold np_sum at 1. simpl. rewrite np_sum_acc. ring. Qed.

Lemma np_sum_app (l1 l2 : list Q) :
  (np_sum (l1 ++ l2) == np_sum l1 + np_sum l2)%Q.
Proof.
  induction l1 as [|x l1 IH]; simpl.
  - unfold np_sum at 2. simpl. ring.
  - rewrite !np_sum_cons, IH. ring.
Qed.

Lemma np_sum_ext {A} (f g : A -> Q) (l : list A) :
  (forall a, In a l -> (f a == g a)%Q) ->
  (np_sum (map f l) == np_sum (map g l))%Q.
Proof.
  induction l as [|a l IH]; intros H; simpl; [reflexivity|].
  rewrite !np_sum_cons, (H a (or_introl eq_refl)), IH; [reflexivity|].
  intros a' Ha'. apply H. right. exact Ha'.
Qed.

Lemma np_sum_zero {A} (l : list A) : (np_sum (map (fun _ => 0%Q) l) == 0)%Q.
Proof.
  induction l as [|a l IH]; simpl; [reflexivity|].
  rewrite np_sum_cons, IH. ring.
Qed.

Lemma np_sum_div {A} (f : A -> Q) (t : Q) (l : list A) :
  (np_sum (map (fun a => f a / t) l) == np_sum (map f l) / t)%Q.
Proof.
  induction l as [|a l IH]; simpl.
  - unfold np_sum. simpl. unfold Qdiv. ring.
  - rewrite !np_sum_cons, IH. unfold Qdiv. ring.
Qed.

(** The sum of a row of finite doubles is the double of the sum. *)
Lemma row_total_Fin (l : list Q) : row_total (map Fin l) = Fin (np_sum l).
Proof.
  unfold row_total, np_sum. generalize 0%Q.
  induction l as [|x l IH]; intros acc; simpl; [reflexivity|apply IH].
Qed.

Lemma fdiv_finite (x t : Q) :
  (0 < t)%Q ->
  nan_to_num (zero_where_eq PInf (fdiv (Fin x) (Fin t))) = Fin (x / t).
Proof.
  intros Ht. simpl.
  destruct (Qeq_bool t 0) eqn:E; [|reflexivity].
  apply Qeq_bool_eq in E. rewrite E in Ht. discriminate.
Qed.

(** C4, as the code has it.  The denominator of cluster [a] is the mass
    [total[a]] summed over the clusters [b >= a] only (the pairs the loops
    visit); each raw entry is [q(a, b) / total[a]] for [b >= a] and
    [0 / total[a]] below the diagonal, with [inf] and [nan] replaced by 0;
    and, in exact arithmetic (the rounding of the doubles' divisions and
    additions aside), every row [a] of the normalised matrix, before
    symmetrisation, sums to 1 whenever [total[a] > 0]. *)
Theorem mass_conservation (T R : ndarray Q) :
  valid_input T R ->
  exists hp assignment tr totals res,
    comprehension row_max (rows R) = Ok hp /\
    comprehension row_argmax (rows R) = Ok assignment /\
    raw_stage T R = Ok (tr, totals, res) /\
    forall a, a < shape1 R ->
      exists t row,
        totals !! a = Some t /\
        t = np_sum (map (mass T hp assignment a) (seq a (shape1 R - a))) /\
        rows res !! a = Some row /\ length row = shape1 R /\
        (forall b, b < shape1 R ->
           pair_mass T hp assignment a b = Ok (mass T hp assignment a b) /\
           row !! b =
             Some (nan_to_num (zero_where_eq PInf
                     (fdiv (Fin (if a <=? b then mass T hp assignment a b
                                 else 0%Q))
                           (Fin t))))) /\
        ((0 < t)%Q -> feqb (row_total row) (Fin 1) = true).
Proof.
  intros Hv.
  destruct (raw_stage_ok T R Hv)
    as (hp & asg & tr & totals & E1 & E2 & E & _ & Hshape & Hm & Hcells & Htot).
  exists hp, asg, tr, totals, (normalize tr totals).
  split; [exact E1|]. split; [exact E2|]. split; [exact E|].
  intros a Ha. set (k := shape1 R) in *.
  set (t := np_sum (map (mass T hp asg a) (seq a (k - a)))).
  destruct (wf_normalize k tr totals Hshape) as ((Hr & Hc) & S0 & S1).
  destruct (lookup_lt_is_Some_2 (rows (normalize tr totals)) a) as [row Hrow];
    [lia|].
  pose proof (proj1 (Forall_lookup _ _) Hc a row Hrow) as Hlen.
  assert (forall b, b < k ->
            row !! b =
            Some (nan_to_num (zero_where_eq PInf
                    (fdiv (Fin (if a <=? b then mass T hp asg a b else 0%Q))
                          (Fin t))))) as Hcell.
  { intros b Hb.
    destruct (get_normalize k tr totals Hshape a b Ha Hb)
      as (x & t' & Hx & Ht' & G).
    rewrite (Hcells a b Ha Hb) in Hx. inversion Hx. subst x.
    rewrite (Htot a Ha) in Ht'. inversion Ht'. subst t'.
    unfold get, index in G. rewrite Hrow in G. simpl in G.
    destruct (row !! b) as [v|]; inversion G. reflexivity. }
  exists t, row. split; [apply Htot, Ha|]. split; [reflexivity|].
  split; [exact Hrow|]. split; [rewrite Hlen; exact S1|]. split.
  - intros b Hb. split; [apply Hm|apply Hcell, Hb].
  - intros Ht.
    assert (row = map Fin (map (fun b => (if a <=? b then mass T hp asg a b
                                          else 0) / t)%Q (seq 0 k))) as ->.
    { apply list_eq. intros b. destruct (Nat.lt_ge_cases b k) as [Hb|Hb].
      - rewrite (Hcell b Hb), fdiv_finite by exact Ht.
        rewrite !lookup_map, (lookup_seq_lt 0 k b Hb). reflexivity.
      - rewrite !lookup_ge_None_2; [reflexivity| |].
        + rewrite !length_map, length_seq. exact Hb.
        + rewrite Hlen, S1. exact Hb. }
    rewrite row_total_Fin. apply feqb_Fin.
    rewrite (np_sum_div (fun b => if a <=? b then mass T hp asg a b else 0%Q)).
    replace (seq 0 k) with (seq 0 a ++ seq a (k - a)).
    2:{ rewrite <- seq_app. f_equal. lia. }
    rewrite map_app, np_sum_app.
    rewrite (np_sum_ext _ (fun _ => 0%Q) (seq 0 a)).
    2:{ intros b Hb. apply in_seq in Hb.
        destruct (Nat.leb_spec a b); [lia|reflexivity]. }
    rewrite (np_sum_ext _ (mass T hp asg a) (seq a (k - a))).
    2:{ intros b Hb. apply in_seq in Hb.
        destruct (Nat.leb_spec a b); [reflexivity|lia]. }
    rewrite np_sum_zero. fold t. field.
    intros H0. rewrite H0 in Ht. discriminate.
Qed.

Lemma mass_conservation_witness :
  exists hp assignment tr totals res,
    comprehension row_max (rows I3) = Ok hp /\
    comprehension row_argmax (rows I3) = Ok assignment /\
    raw_stage T3 I3 = Ok (tr, totals, res) /\
    forall a, a < 3 ->
      exists t row,
        totals !! a = Some t /\
        t = np_sum (map (mass T3 hp assignment a) (seq a (3 - a))) /\
        rows res !! a = Some row /\ length row = 3 /\
        (forall b, b < 3 ->
           pair_mass T3 hp assignment a b = Ok (mass T3 hp assignment a b) /\
           row !! b =
             Some (nan_to_num (zero_where_eq PInf
                     (fdiv (Fin (if a <=? b then mass T3 hp assignment a b
                                 else 0%Q))
                           (Fin t))))) /\
        ((0 < t)%Q -> feqb (row_total row) (Fin 1) = true).
Proof.
  apply (mass_conservation T3 I3).
  unfold valid_input, wf. simpl. repeat split; try lia; repeat constructor.
Defined.

(** C4, refuted as stated: on the three-cluster example the denominator of
    cluster 1 is 1, the mass of the pairs [(1, 1)] and [(1, 2)], while the
    mass of cluster 1 over every cluster [b] is 3. *)
Lemma total_is_not_over_every_cluster :
  exists tr totals res,
    raw_stage T3 I3 = Ok (tr, totals, res) /\
    totals !! 1 = Some 1%Q /\
    np_sum (map (mass T3 [1; 1; 1]%Q [0; 1; 2] 1) (seq 0 3)) = 3%Q /\
    ~ (1 == 3)%Q.
Proof.
  do 3 eexists. split; [vm_compute; reflexivity|].
  split; [reflexivity|]. split; [vm_compute; reflexivity|].
  intros H. discriminate H.
Qed.

(** ** The three-cluster example *)

(** C5, as the code has it.  On the matrix [[0,2,0],[2,0,1],[0,1,0]] with one
    cell per cluster and confidence 1, the aggregator divides the upper
    triangle by the totals 2, 1, 0 and symmetrises to
    [[0,1,0],[1,0,1],[0,1,0]], which is not the input; on the ordering
    [0,1,2] the evaluator then returns [log(1), log(1) + log(1)], that is
    [0, 0] for a logarithm with [log(1) = 0].  (The sequence
    [log(2), log(2) + log(1)] is what the evaluator returns on the input
    matrix itself.) *)
Theorem three_cluster_example (ln : Q -> Q) :
  (forall q, (q == 1)%Q -> (ln q == 0)%Q) ->
  exists tr totals res M p,
    raw_stage T3 I3 = Ok (tr, totals, res) /\
    totals = [2; 1; 0]%Q /\
    _compute_transition_matrix T3 I3 = Ok M /\
    array_equal M (amap Fin M3) = true /\
    array_equal M (amap Fin T3) = false /\
    _calculate_segment_probability ln M [0; 1; 2] = Ok p /\
    list_equal p [Fin 0; Fin 0] = true /\
    _calculate_segment_probability ln (amap Fin T3) [0; 1; 2] =
      Ok [Fin (ln 2%Q); fadd (Fin (ln 2%Q)) (Fin (ln 1%Q))].
Proof.
  intros Hln.
  do 3 eexists.
  exists (symmetrize (normalize (Arr 3 3 [[0; 2; 0]; [0; 0; 1]; [0; 0; 0]]%Q)
                        [2; 1; 0]%Q)).
  exists [Fin (ln (2 # 2)); fadd (Fin (ln (2 # 2))) (Fin (ln 1%Q))].
  split; [vm_compute; reflexivity|].
  split; [reflexivity|].
  split; [vm_compute; reflexivity|].
  split; [vm_compute; reflexivity|].
  split; [vm_compute; reflexivity|].
  split; [reflexivity|].
  split; [|reflexivity].
  unfold list_equal. cbn [length Nat.eqb andb zip zip_with forallb fst snd fadd].
  rewrite !feqb_Fin; [reflexivity| |].
  - rewrite (Hln (2 # 2)), (Hln 1%Q); reflexivity.
  - apply Hln. reflexivity.
Qed.

Lemma three_cluster_example_witness :
  exists tr totals res M p,
    raw_stage T3 I3 = Ok (tr, totals, res) /\
    totals = [2; 1; 0]%Q /\
    _compute_transition_matrix T3 I3 = Ok M /\
    array_equal M (amap Fin M3) = true /\
    array_equal M (amap Fin T3) = false /\
    _calculate_segment_probability ln_affine M [0; 1; 2] = Ok p /\
    list_equal p [Fin 0; Fin 0] = true /\
    _calculate_segment_probability ln_affine (amap Fin T3) [0; 1; 2] =
      Ok [Fin (ln_affine 2); fadd (Fin (ln_affine 2)) (Fin (ln_affine 1))].
Proof.
  apply (three_cluster_example ln_affine).
  intros q Hq. unfold ln_affine. rewrite Hq. reflexivity.
Defined.

(** C5, refuted as stated: the totals the aggregator divides by are 2, 1, 0
    and not 2, 3, 1, and the matrix it returns differs from the input (its
    entry [0, 1] is 1, the input's is 2). *)
Lemma three_cluster_example_not_identity :
  exists tr totals res M,
    raw_stage T3 I3 = Ok (tr, totals, res) /\
    totals = [2; 1; 0]%Q /\ totals <> [2; 3; 1]%Q /\
    _compute_transition_matrix T3 I3 = Ok M /\
    array_equal M (amap Fin T3) = false /\
    feqb (item NaN M 0 1) (Fin 1) = true /\
    feqb (item NaN (amap Fin T3) 0 1) (Fin 2) = true.
Proof.
  do 4 eexists.
  split; [vm_compute; reflexivity|].
  split; [reflexivity|]. split; [discriminate|].
  split; [vm_compute; reflexivity|].
  split; [vm_compute; reflexivity|].
  split; vm_compute; reflexivity.
Qed.

(** ** Cluster tree orienter *)

Lemma item_get {A} (d : A) (M : ndarray A) (i j : nat) (x : A) :
  get M i j = Ok x -> item d M i j = x.
Proof. unfold item. intros ->. reflexivity. Qed.

Lemma py_max_cases (x y : fval) : py_max x y = x \/ py_max x y = y.
Proof. unfold py_max. destruct (fltb x y); auto. Qed.

Lemma Qlt_b_true (a b : Q) : Qlt_b a b = true <-> (a < b)%Q.
Proof.
  unfold Qlt_b. rewrite negb_true_iff. split; intros H.
  - apply Qnot_le_lt. intros Hle. apply Qle_bool_iff in Hle. congruence.
  - destruct (Qle_bool b a) eqn:E; [|reflexivity].
    apply Qle_bool_iff in E. apply Qle_not_lt in E. contradiction.
Qed.

Lemma Qlt_b_false (a b : Q) : Qlt_b a b = false <-> (b <= a)%Q.
Proof.
  unfold Qlt_b. rewrite negb_false_iff. apply Qle_bool_iff.
Qed.

(** The larger of two weights [>= 0], one of them nonzero, is nonzero. *)
Lemma py_max_nonzero (x y : fval) :
  fgeb x (Fin 0) = true -> fgeb y (Fin 0) = true ->
  fneb x (Fin 0) || fneb y (Fin 0) = true ->
  fneb (py_max x y) (Fin 0) = true.
Proof.
  destruct x as [a| | |], y as [b| | |]; try discriminate; try reflexivity.
  unfold py_max, fneb, fgeb, fltb, feqb. intros Ha Hb Hne.
  apply negb_true_iff, Qlt_b_false in Ha.
  apply negb_true_iff, Qlt_b_false in Hb.
  destruct (Qlt_b a b) eqn:Hab.
  - apply Qlt_b_true in Hab. apply negb_true_iff.
    destruct (Qeq_bool b 0) eqn:E; [|reflexivity].
    apply Qeq_bool_eq in E. rewrite E in Hab.
    apply Qlt_not_le in Hab. contradiction.
  - apply Qlt_b_false in Hab. apply negb_true_iff.
    destruct (Qeq_bool a 0) eqn:E; [|reflexivity].
    apply Qeq_bool_eq in E. rewrite E in Hab.
    assert (b == 0)%Q as Hb0 by (apply Qle_antisym; assumption).
    apply Qeq_eq_bool in Hb0. rewrite Hb0 in Hne. discriminate.
Qed.

Section OrienterFacts.

Variable orders : list nat.
Variables segment_p segment_p_reversed : list fval.
Variable k : nat.

Hypothesis orders_in_range : Forall (fun o => o < k) orders.
Hypothesis p_long : length orders - 1 <= length segment_p.
Hypothesis p_rev_long : length orders - 1 <= length segment_p_reversed.

(** The tree during the loop: a [k] by [k] array of weights [>= 0]. *)
Local Abbreviation tree_ok t :=
  (wf t /\ shape0 t = k /\ shape1 t = k /\ weights_nonnegative t).

(** Two cell writes in a row, as the loop body does them. *)
Lemma two_writes (t : ndarray fval) (r c : nat) (m : fval) :
  tree_ok t -> r < k -> c < k -> fgeb m (Fin 0) = true ->
  exists t1 t2,
    set t r c m = Ok t1 /\ set t1 c r (Fin 0) = Ok t2 /\ tree_ok t2 /\
    get t2 c r = Ok (Fin 0) /\
    (r <> c -> get t2 r c = Ok m) /\
    (forall i j, (i, j) <> (r, c) -> (i, j) <> (c, r) ->
                 get t2 i j = get t i j).
Proof.
  intros (W & S0 & S1 & Hnn) Hr Hc Hm.
  destruct (set_lt t r c m W) as [t1 E1]; [lia|lia|].
  destruct (set_Ok t t1 r c m W E1) as (W1 & A0 & A1 & _ & _ & G1 & O1).
  destruct (set_lt t1 c r (Fin 0) W1) as [t2 E2]; [lia|lia|].
  destruct (set_Ok t1 t2 c r (Fin 0) W1 E2) as (W2 & B0 & B1 & _ & _ & G2 & O2).
  exists t1, t2. split; [exact E1|]. split; [exact E2|]. split.
  - split; [exact W2|]. split; [lia|]. split; [lia|].
    intros i j x Hx.
    destruct (decide ((i, j) = (c, r))) as [Heq|Hne].
    + inversion Heq. subst. rewrite G2 in Hx. inversion Hx. reflexivity.
    + rewrite (O2 i j Hne) in Hx.
      destruct (decide ((i, j) = (r, c))) as [Heq|Hne'].
      * inversion Heq. subst. rewrite G1 in Hx. inversion Hx. subst. exact Hm.
      * rewrite (O1 i j Hne') in Hx. exact (Hnn i j x Hx).
  - split; [exact G2|]. split.
    + intros Hrc. rewrite O2 by congruence. exact G1.
    + intros i j H1 H2. rewrite (O2 i j H2). apply (O1 i j H1).
Qed.

(** One pass of the loop body, lines 118-126. *)
Lemma orient_body_spec (i : nat) (t : ndarray fval) :
  tree_ok t -> 1 <= i < length orders ->
  exists r c p p_rev x y t',
    orders !! (i - 1) = Some r /\ orders !! i = Some c /\
    segment_p !! (i - 1) = Some p /\
    segment_p_reversed !! (i - 1) = Some p_rev /\
    get t r c = Ok x /\ get t c r = Ok y /\
    orient_body orders segment_p segment_p_reversed i t = Ok t' /\
    tree_ok t' /\
    (r <> c ->
     if fgeb p p_rev
     then get t' r c = Ok (py_max x y) /\ get t' c r = Ok (Fin 0)
     else get t' c r = Ok (py_max x y) /\ get t' r c = Ok (Fin 0)) /\
    (forall a b, (a, b) <> (r, c) -> (a, b) <> (c, r) ->
                 get t' a b = get t a b).
Proof.
  intros Ht Hi. pose proof Ht as (W & S0 & S1 & Hnn).
  destruct (index_lt orders (i - 1)) as [r [Er Hr]]; [lia|].
  destruct (index_lt orders i) as [c [Ec Hc]]; [lia|].
  destruct (index_lt segment_p (i - 1)) as [p [Ep Hp]]; [lia|].
  destruct (index_lt segment_p_reversed (i - 1)) as [p_rev [Epr Hpr]]; [lia|].
  assert (r < k) as Hrk by exact (proj1 (Forall_lookup _ _) orders_in_range _ _ Hr).
  assert (c < k) as Hck by exact (proj1 (Forall_lookup _ _) orders_in_range _ _ Hc).
  destruct (get_lt t r c W) as [x Ex]; [lia|lia|].
  destruct (get_lt t c r W) as [y Ey]; [lia|lia|].
  assert (fgeb (py_max x y) (Fin 0) = true) as Hm.
  { destruct (py_max_cases x y) as [->| ->]; [exact (Hnn _ _ _ Ex)|exact (Hnn _ _ _ Ey)]. }
  unfold orient_body. rewrite Er, Ec, Ep, Epr. simpl. rewrite Ex, Ey. simpl.
  destruct (fgeb p p_rev) eqn:Hge.
  - destruct (two_writes t r c (py_max x y) Ht Hrk Hck Hm)
      as (t1 & t2 & E1 & E2 & Ht2 & G0 & Gm & Other).
    rewrite E1. simpl.
    exists r, c, p, p_rev, x, y, t2.
    split; [exact Hr|]. split; [exact Hc|]. split; [exact Hp|].
    split; [exact Hpr|]. split; [exact Ex|]. split; [exact Ey|].
    split; [exact E2|]. split; [exact Ht2|]. split.
    + intros Hne. rewrite Hge. split; [exact (Gm Hne)|exact G0].
    + exact Other.
  - destruct (two_writes t c r (py_max x y) Ht Hck Hrk Hm)
      as (t1 & t2 & E1 & E2 & Ht2 & G0 & Gm & Other).
    rewrite E1. simpl.
    exists r, c, p, p_rev, x, y, t2.
    split; [exact Hr|]. split; [exact Hc|]. split; [exact Hp|].
    split; [exact Hpr|]. split; [exact Ex|]. split; [exact Ey|].
    split; [exact E2|]. split; [exact Ht2|]. split.
    + intros Hne. rewrite Hge. split; [apply Gm; congruence|exact G0].
    + intros a b H1 H2. apply Other; assumption.
Qed.

End OrienterFacts.

Lemma fgeb_tie (p q : fval) : feqb p q = true -> fgeb p q = true.
Proof.
  destruct p as [a| | |], q as [b| | |]; try discriminate; try reflexivity.
  unfold feqb, fgeb, fltb. intros H. apply Qeq_bool_eq in H.
  apply negb_true_iff, Qlt_b_false. rewrite H. apply Qle_refl.
Qed.

Lemma weights_rows (G : ndarray fval) :
  Forall (Forall (fun x => fgeb x (Fin 0) = true)) (rows G) ->
  weights_nonnegative G.
Proof.
  intros H i j x. unfold get.
  destruct (index (rows G) i) as [r|] eqn:E; simpl; [|discriminate].
  intros E'. apply index_Ok in E. apply index_Ok in E'.
  pose proof (proj1 (Forall_lookup _ _) H i r E) as Hr.
  exact (proj1 (Forall_lookup _ _) Hr j x E').
Qed.

Section OrienterLoop.

Variable orders : list nat.
Variables segment_p segment_p_reversed : list fval.
Variable k : nat.

Hypothesis orders_in_range : Forall (fun o => o < k) orders.
Hypothesis p_long : length orders - 1 <= length segment_p.
Hypothesis p_rev_long : length orders - 1 <= length segment_p_reversed.

Variables u v : nat.
Hypothesis u_not_v : u <> v.
Hypothesis u_lt : u < k.
Hypothesis v_lt : v < k.

Local Abbreviation tree_ok t :=
  (wf t /\ shape0 t = k /\ shape1 t = k /\ weights_nonnegative t).

Local Abbreviation handles := (handles_pair orders u v).

(** One pass keeps the edge [{u, v}], keeps its orientation if it has one,
    and gives it one if the pass handles the pair. *)
Lemma orient_body_edge (i : nat) (t : ndarray fval) :
  tree_ok t -> 1 <= i < length orders -> adjacent t u v = true ->
  exists t',
    orient_body orders segment_p segment_p_reversed i t = Ok t' /\
    tree_ok t' /\ adjacent t' u v = true /\
    (one_direction t u v = true \/ handles i -> one_direction t' u v = true).
Proof.
  intros Ht Hi Hadj. pose proof Ht as (W & S0 & S1 & Hnn).
  destruct (orient_body_spec orders segment_p segment_p_reversed k
              orders_in_range p_long p_rev_long i t Ht Hi)
    as (r & c & p & p_rev & x & y & t' & Hr & Hc & _ & _ & Ex & Ey & E & Ht'
        & Hdir & Hother).
  exists t'. split; [exact E|]. split; [exact Ht'|].
  destruct (decide ((r, c) = (u, v) \/ (r, c) = (v, u))) as [Hpair|Hnot].
  - (* the pass handles the pair *)
    assert (r <> c) as Hrc.
    { destruct Hpair as [Hp|Hp]; inversion Hp; subst; congruence. }
    assert (fneb (py_max x y) (Fin 0) = true) as Hm.
    { apply py_max_nonzero; [exact (Hnn _ _ _ Ex)|exact (Hnn _ _ _ Ey)|].
      unfold adjacent in Hadj.
      destruct Hpair as [Hp|Hp]; inversion Hp; subst;
        rewrite (item_get NaN t _ _ _ Ex), (item_get NaN t _ _ _ Ey) in Hadj.
      - exact Hadj.
      - rewrite orb_comm. exact Hadj. }
    specialize (Hdir Hrc).
    assert (fneb (Fin 0) (Fin 0) = false) as Hz by reflexivity.
    assert (adjacent t' u v = true /\ one_direction t' u v = true) as [Ha Ho].
    { unfold adjacent, one_direction.
      destruct (fgeb p p_rev); destruct Hdir as [G1 G2];
        destruct Hpair as [Hp|Hp]; inversion Hp; subst;
        rewrite (item_get NaN t' _ _ _ G1), (item_get NaN t' _ _ _ G2), Hm, Hz;
        split; reflexivity. }
    split; [exact Ha|]. intros _. exact Ho.
  - (* the pass works elsewhere *)
    assert (item NaN t' u v = item NaN t u v) as Euv.
    { unfold item. rewrite Hother; [reflexivity| |]; intros Heq; inversion Heq;
        subst; apply Hnot; auto. }
    assert (item NaN t' v u = item NaN t v u) as Evu.
    { unfold item. rewrite Hother; [reflexivity| |]; intros Heq; inversion Heq;
        subst; apply Hnot; auto. }
    unfold adjacent, one_direction in *. rewrite Euv, Evu.
    split; [exact Hadj|]. intros [Ho|Hh]; [exact Ho|].
    exfalso. apply Hnot.
    destruct Hh as [[H1 H2]|[H1 H2]]; rewrite H1 in Hr; rewrite H2 in Hc;
      inversion Hr; inversion Hc; subst; auto.
Qed.

(** The same over a run of passes. *)
Lemma orient_loop_edge (its : list nat) :
  Forall (fun i => 1 <= i < length orders) its ->
  forall t,
    tree_ok t -> adjacent t u v = true ->
    exists t',
      for_each (orient_body orders segment_p segment_p_reversed) its t = Ok t' /\
      tree_ok t' /\ adjacent t' u v = true /\
      (one_direction t u v = true \/ (exists i, In i its /\ handles i) ->
       one_direction t' u v = true).
Proof.
  induction its as [|i its IH]; intros Hits t Ht Hadj.
  - exists t. split; [reflexivity|]. split; [exact Ht|]. split; [exact Hadj|].
    intros [H|[i [[] _]]]. exact H.
  - inversion Hits as [|? ? Hi Hrest]. subst.
    destruct (orient_body_edge i t Ht Hi Hadj) as (t1 & E1 & Ht1 & Ha1 & Ho1).
    destruct (IH Hrest t1 Ht1 Ha1) as (t' & E & Ht' & Ha' & Ho').
    exists t'. simpl. rewrite E1. simpl.
    split; [exact E|]. split; [exact Ht'|]. split; [exact Ha'|].
    intros [H|[j [[<-|Hin] Hj]]]; apply Ho'.
    + left. apply Ho1. left. exact H.
    + left. apply Ho1. right. exact Hj.
    + right. exists j. split; assumption.
Qed.

End OrienterLoop.

(** The loop runs to the end, and every edge that some consecutive pair of
    the ordering covers ends with exactly one nonzero direction. *)
Lemma orient_covered_edges (orders : list nat)
  (segment_p segment_p_reversed : list fval) (tree : ndarray fval) (k : nat) :
  wf tree -> shape0 tree = k -> shape1 tree = k -> weights_nonnegative tree ->
  Forall (fun o => o < k) orders ->
  length orders - 1 <= length segment_p ->
  length orders - 1 <= length segment_p_reversed ->
  exists tree',
    orient orders segment_p segment_p_reversed tree = Ok tree' /\
    ((forall u v, u < k -> v < k -> u <> v -> adjacent tree u v = true ->
                  consecutive orders u v \/ consecutive orders v u) ->
     forall u v, u < k -> v < k -> u <> v -> adjacent tree u v = true ->
                 one_direction tree' u v = true).
Proof.
  intros W S0 S1 Hnn Hord Hp Hpr.
  assert (Forall (fun i => 1 <= i < length orders)
            (seq 1 (length orders - 1))) as Hits.
  { apply List.Forall_forall. intros i Hi. apply in_seq in Hi. lia. }
  assert (wf tree /\ shape0 tree = k /\ shape1 tree = k /\
          weights_nonnegative tree) as Ht.
  { split; [exact W|]. split; [exact S0|]. split; [exact S1|exact Hnn]. }
  destruct (for_each_invariant
              (fun t => wf t /\ shape0 t = k /\ shape1 t = k /\
                        weights_nonnegative t)
              (orient_body orders segment_p segment_p_reversed)
              (seq 1 (length orders - 1)) tree Ht) as (tree' & E & _).
  { intros i t Hi Hti. apply in_seq in Hi.
    destruct (orient_body_spec orders segment_p segment_p_reversed k
                Hord Hp Hpr i t Hti ltac:(lia))
      as (r & c & p & p_rev & x & y & t' & _ & _ & _ & _ & _ & _ & E & Ht'
          & _).
    exists t'. split; [exact E|exact Ht']. }
  exists tree'. split; [exact E|].
  intros Hcover u v Hu Hv Huv Hadj.
  destruct (orient_loop_edge orders segment_p segment_p_reversed k
              Hord Hp Hpr u v Huv Hu Hv (seq 1 (length orders - 1)) Hits
              tree Ht Hadj) as (t' & E' & _ & _ & Hone).
  unfold orient in E. rewrite E in E'. inversion E'. subst t'.
  apply Hone. right.
  destruct (Hcover u v Hu Hv Huv Hadj) as [[i [H1 H2]]|[i [H1 H2]]].
  - exists (S i). split.
    + apply in_seq. apply lookup_lt_Some in H2. lia.
    + left. replace (S i - 1) with i by lia. split; assumption.
  - exists (S i). split.
    + apply in_seq. apply lookup_lt_Some in H2. lia.
    + right. replace (S i - 1) with i by lia. split; assumption.
Qed.

(** [construct_velocity_tree] as a whole: on valid inputs and an ordering of
    at least two clusters it returns the oriented tree. *)
Lemma construct_velocity_tree_orients (ln : Q -> Q) (T R : ndarray Q)
  (orders : list nat) (tree : ndarray fval) :
  valid_input T R ->
  Forall (fun o => o < shape1 R) orders -> 2 <= length orders ->
  wf tree -> shape0 tree = shape1 R -> shape1 tree = shape1 R ->
  weights_nonnegative tree ->
  exists tree',
    construct_velocity_tree ln T R orders tree = Ok tree' /\
    ((forall u v, u < shape1 R -> v < shape1 R -> u <> v ->
                  adjacent tree u v = true ->
                  consecutive orders u v \/ consecutive orders v u) ->
     forall u v, u < shape1 R -> v < shape1 R -> u <> v ->
                 adjacent tree u v = true -> one_direction tree' u v = true).
Proof.
  intros Hv Hord Hlen W S0 S1 Hnn.
  destruct (raw_stage_ok T R Hv)
    as (hp & asg & tr & totals & _ & _ & _ & EM & Hshape & _).
  destruct (wf_symmetrize _ tr totals Hshape) as (WM & M0 & M1).
  destruct (segment_probability_ok ln _ orders _ WM M0 M1 Hord Hlen)
    as (p & Ep & Lp).
  destruct (segment_probability_ok ln _ (rev orders) _ WM M0 M1)
    as (p_rev & Epr & Lpr).
  { apply List.Forall_rev. exact Hord. }
  { rewrite length_rev. exact Hlen. }
  rewrite length_rev in Lpr.
  unfold construct_velocity_tree. rewrite EM. simpl. rewrite Ep. simpl.
  rewrite Epr. simpl.
  apply (orient_covered_edges orders p p_rev tree (shape1 R)); try assumption;
    lia.
Qed.

(** ** Per-cell graph contractor *)

(** Lines 39-43 write outside the row of [nodeid] when neither the
    neighbours nor [min_ind] are [nodeid] itself. *)
Lemma reroute_loop (N nodeid m : nat) (min_val : fval) (ids : list nat) :
  m < N -> m <> nodeid ->
  Forall (fun i => i < N /\ i <> nodeid) ids ->
  forall G0,
    wf G0 -> shape0 G0 = N -> shape1 G0 = N -> nodeid < N ->
    exists G1,
      for_each (reroute_body nodeid min_val (Some m)) ids G0 = Ok G1 /\
      wf G1 /\ shape0 G1 = N /\ shape1 G1 = N /\
      forall j, get G1 nodeid j = get G0 nodeid j.
Proof.
  intros Hm Hmn. induction ids as [|i ids IH]; intros Hids G0 W S0 S1 Hn.
  - exists G0. simpl. repeat split; try assumption; apply W.
  - apply Forall_cons in Hids. destruct Hids as [[Hi Hin] Hrest]. simpl.
    unfold reroute_body at 1.
    destruct (Nat.eqb_spec i m) as [->|Him].
    + simpl. apply IH; assumption.
    + destruct (get_lt G0 nodeid i W) as [w ->]; [lia|lia|]. simpl.
      destruct (set_lt G0 i m (fadd w min_val) W) as [G1 E1]; [lia|lia|].
      destruct (set_Ok G0 G1 i m _ W E1) as (W1 & A0 & A1 & _ & _ & _ & O1).
      destruct (set_lt G1 m i (fadd w min_val) W1) as [G2 E2]; [lia|lia|].
      destruct (set_Ok G1 G2 m i _ W1 E2) as (W2 & B0 & B1 & _ & _ & _ & O2).
      rewrite E1. simpl. rewrite E2. simpl.
      destruct (IH Hrest G2 W2) as (G3 & E & W3 & C0 & C1 & Hrow); try lia.
      exists G3. split; [exact E|]. split; [exact W3|].
      split; [exact C0|]. split; [exact C1|].
      intros j. rewrite Hrow, O2, O1; [reflexivity| |]; congruence.
Qed.

Section ContractorPass.

Variable G : ndarray fval.
Variable N : nat.
Variable nodeid : nat.

Hypothesis G_wf : wf G.
Hypothesis G_rows : shape0 G = N.
Hypothesis G_cols : shape1 G = N.
Hypothesis nodeid_lt : nodeid < N.

(** [j] is a neighbour of [nodeid] in [G] *)
Local Abbreviation nb := (fun j => fneb (item NaN G nodeid j) (Fin 0)).

(** Lines 23-26 collect the neighbours in increasing order. *)
Lemma neighbours_loop (n s : nat) (acc : list nat) :
  s + n <= N ->
  for_each (neighbours_body G nodeid) (seq s n) acc =
  Ok (acc ++ List.filter nb (seq s n)).
Proof.
  revert s acc. induction n as [|n IH]; intros s acc Hs; simpl.
  - rewrite app_nil_r. reflexivity.
  - unfold neighbours_body at 1.
    destruct (get_lt G nodeid s G_wf) as [w Hw]; [lia|lia|].
    rewrite Hw. simpl. rewrite (item_get NaN G nodeid s w Hw).
    destruct (fneb w (Fin 0)); simpl.
    + rewrite IH by lia. rewrite <- app_assoc. reflexivity.
    + apply IH. lia.
Qed.

Hypothesis row_finite :
  forall j w, get G nodeid j = Ok w -> is_finite w = true.

(** [min_ind] is bound to a neighbour *)
Local Abbreviation bound st :=
  (exists m, snd st = Some m /\ m < N /\ nb m = true).

(** Lines 33-38: as soon as the scan has met a neighbour, [min_ind] is bound
    to one. *)
Lemma scan_loop (n s : nat) (st : fval * option nat) :
  s + n <= N ->
  fst st = PInf \/ bound st ->
  exists st',
    for_each (scan_body G nodeid) (seq s n) st = Ok st' /\
    (fst st' = PInf \/ bound st') /\
    (bound st \/ (exists j, In j (seq s n) /\ nb j = true) -> bound st').
Proof.
  revert s st. induction n as [|n IH]; intros s st Hs Hst; simpl.
  - exists st. split; [reflexivity|]. split; [exact Hst|].
    intros [H|[j [[] _]]]. exact H.
  - unfold scan_body at 1.
    destruct (get_lt G nodeid s G_wf) as [w Hw]; [lia|lia|].
    rewrite Hw. simpl.
    pose proof (item_get NaN G nodeid s w Hw) as Hitem.
    pose proof (row_finite s w Hw) as Hfin.
    assert (exists st1,
               (if fneb w (Fin 0)
                then if fltb w (fst st) then Ok (w, Some s) else Ok st
                else Ok st) = Ok st1 /\
               (fst st1 = PInf \/ bound st1) /\
               (bound st \/ nb s = true -> bound st1))
      as (st1 & E1 & Inv1 & Hb1).
    { destruct (fneb w (Fin 0)) eqn:Hnb.
      - destruct (fltb w (fst st)) eqn:Hlt.
        + exists (w, Some s). split; [reflexivity|].
          assert (bound (w, Some s)) as Hbs.
          { exists s. simpl. rewrite Hitem, Hnb. repeat split. lia. }
          split; [right; exact Hbs|]. intros _. exact Hbs.
        + exists st. split; [reflexivity|]. split; [exact Hst|].
          intros _. destruct Hst as [Hinf|Hb]; [|exact Hb].
          rewrite Hinf in Hlt. destruct w; discriminate.
      - exists st. split; [reflexivity|]. split; [exact Hst|].
        intros [Hb|Hs']; [exact Hb|]. rewrite Hitem in Hs'. congruence. }
    rewrite E1. simpl.
    destruct (IH (S s) st1 ltac:(lia) Inv1) as (st' & E & Inv' & Hb').
    exists st'. split; [exact E|]. split; [exact Inv'|].
    intros [Hb|[j [[<-|Hin] Hj]]]; apply Hb'.
    + left. apply Hb1. left. exact Hb.
    + left. apply Hb1. right. exact Hj.
    + right. exists j. split; assumption.
Qed.

Hypothesis no_self_loop : nb nodeid = false.

(** One pass of the loop over a duplicate with at least two neighbours
    (finite weights, no loop at the node) runs to the end and leaves the
    edge to the second neighbour where it was: only the edge to
    [nb_ids[0]] is cleared. *)
Lemma contract_body_keeps_second_edge (min_ind : option nat)
  (nb0 nb1 : nat) (others : list nat) :
  List.filter nb (seq 0 N) = nb0 :: nb1 :: others ->
  exists G' min_ind',
    contract_body nodeid (G, min_ind) = Ok (G', min_ind') /\
    get G' nodeid nb1 = get G nodeid nb1 /\
    adjacent G' nodeid nb1 = true.
Proof.
  intros Hnbs.
  assert (forall i, In i (nb0 :: nb1 :: others) ->
                    i < N /\ i <> nodeid /\ nb i = true) as Hall.
  { intros i Hi. rewrite <- Hnbs in Hi. apply List.filter_In in Hi.
    destruct Hi as [Hseq Hnb]. apply in_seq in Hseq.
    split; [lia|]. split; [|exact Hnb].
    intros ->. rewrite no_self_loop in Hnb. discriminate. }
  assert (nb0 <> nb1) as Hdiff.
  { assert (List.NoDup (nb0 :: nb1 :: others)) as Hnd.
    { rewrite <- Hnbs. apply List.NoDup_filter, List.seq_NoDup. }
    inversion Hnd as [|? ? Hnotin _]. intros ->. apply Hnotin. left.
    reflexivity. }
  destruct G_wf as [Hr Hc].
  destruct (index_lt (rows G) 0) as [row0 [E0 L0]]; [lia|].
  pose proof (proj1 (Forall_lookup _ _) Hc 0 row0 L0) as Hlen0.
  rewrite G_cols in Hlen0.
  unfold contract_body. cbn [fst snd]. rewrite E0. cbn [bind].
  rewrite Hlen0, neighbours_loop by lia. rewrite Hnbs.
  cbn [bind app length Nat.eqb].
  destruct (scan_loop N 0 (PInf, min_ind) ltac:(lia) (or_introl eq_refl))
    as ([min_val mi] & Escan & _ & Hbound).
  rewrite Escan. cbn [bind fst snd].
  destruct Hbound as (m & Hmi & Hm & Hnbm).
  { right. exists nb0. split; [|apply (Hall nb0); left; reflexivity].
    apply in_seq. destruct (Hall nb0 (or_introl eq_refl)). lia. }
  cbn [snd] in Hmi. rewrite Hmi in *. clear Hmi.
  assert (m <> nodeid) as Hmn.
  { intros ->. rewrite no_self_loop in Hnbm. discriminate. }
  assert (Forall (fun i => i < N /\ i <> nodeid) (nb0 :: nb1 :: others))
    as Hids.
  { apply List.Forall_forall. intros i Hi.
    destruct (Hall i Hi) as (Hlt & Hne & _). split; assumption. }
  destruct (reroute_loop N nodeid m min_val (nb0 :: nb1 :: others) Hm Hmn
              Hids G (conj Hr Hc) G_rows G_cols nodeid_lt)
    as (G1 & E1 & W1 & A0 & A1 & Hrow).
  rewrite E1. cbn [bind].
  destruct (Hall nb0 (or_introl eq_refl)) as (H0lt & H0ne & _).
  destruct (Hall nb1 (or_intror (or_introl eq_refl))) as (H1lt & H1ne & H1nb).
  unfold clear_first. simpl.
  destruct (set_lt G1 nodeid nb0 (Fin 0) W1) as [G2 E2]; [lia|lia|].
  destruct (set_Ok G1 G2 nodeid nb0 _ W1 E2) as (W2 & B0 & B1 & _ & _ & _ & O2).
  destruct (set_lt G2 nb0 nodeid (Fin 0) W2) as [G3 E3]; [lia|lia|].
  destruct (set_Ok G2 G3 nb0 nodeid _ W2 E3) as (W3 & _ & _ & _ & _ & _ & O3).
  rewrite E2. simpl. rewrite E3. simpl.
  exists G3, (Some m). split; [reflexivity|].
  assert (get G3 nodeid nb1 = get G nodeid nb1) as Hsame.
  { rewrite O3, O2, Hrow; [reflexivity| |]; congruence. }
  split; [exact Hsame|].
  unfold adjacent, item. rewrite Hsame.
  unfold item in H1nb. rewrite H1nb. reflexivity.
Qed.

End ContractorPass.

(** C1 at a failing input.  [G4] is a tree on [2n = 4] nodes in which the
    duplicates 2 and 3 are not adjacent.  After [remove_velocity_points] the
    duplicate 2, which had the two neighbours 0 and 1, still has its edge to
    node 1: only the edge to its first neighbour was cleared.  (The real
    nodes 0 and 1 do form a tree with one edge.) *)
Theorem contractor_keeps_duplicate_edge :
  is_tree G4 4 = true /\ no_duplicate_pair G4 2 = true /\
  exists G',
    remove_velocity_points G4 2 = Ok G' /\
    get G' 2 1 = Ok (Fin 2) /\ get G' 1 2 = Ok (Fin 2) /\
    isolated G' 4 2 = false /\ isolated G' 4 3 = true /\
    is_tree G' 2 = true.
Proof.
  split; [vm_compute; reflexivity|]. split; [vm_compute; reflexivity|].
  eexists. split; [vm_compute; reflexivity|].
  repeat split; vm_compute; reflexivity.
Qed.

(** ** Branch direction voter *)

Section WriteLoop.

Variable n : nat.

(** The cell a pass writes, if its index reads succeed. *)
Variable cell : nat -> option (nat * nat).
Variable body : nat -> ndarray fval -> result (ndarray fval).

Hypothesis body_writes :
  forall bp dG,
    body bp dG =
    match cell bp with
    | Some (a, b) => set dG a b (Fin 1)
    | None => Raise IndexError
    end.


End WriteLoop.


(** The vote loop stops at its first statement: [path(bp)] calls a list. *)
Lemma tally_nonempty (valid_idx_of : nat -> list nat)
  (angle_deg : nat -> nat -> result fval) (u : nat) (path : list nat) :
  tally valid_idx_of angle_deg (u :: path) = Raise TypeError.
Proof. reflexivity. Qed.

(** The report of a branch with a first node adds a number to a string. *)
Lemma report_nonempty (u : nat) (path : list nat) :
  report (u :: path) = Raise TypeError.
Proof. reflexivity. Qed.





(** C8, as the code has it.  A branch of length 0 or 1 adds no edge to
    [dG]: the loops that write edges have nothing to run over.  It is not
    skipped, and it does not pass without failure: an empty branch casts no
    vote and fails with [IndexError] when the report reads [path[0]]; for a
    branch of length 1 the vote loop runs its body at the one position, and
    there, as the code is written, the call [path(bp)] fails with
    [TypeError]; either way the voter stops at that branch. *)
Theorem short_branch_rule (valid_idx_of : nat -> list nat)
  (angle_deg : nat -> nat -> result fval) (path : list nat) :
  length path <= 1 ->
  (forall pos_direct neg dG, write_edges path pos_direct neg dG = Ok dG) /\
  (path = [] ->
   tally valid_idx_of angle_deg path = Ok 0 /\
   (forall pos_direct dG, orient_branch path pos_direct dG = Raise IndexError) /\
   forall n rest,
     vote_branches valid_idx_of angle_deg n (path :: rest) = Raise IndexError) /\
  (length path = 1 ->
   tally valid_idx_of angle_deg path = vote valid_idx_of angle_deg path 0 0 /\
   tally valid_idx_of angle_deg path = Raise TypeError /\
   forall n rest,
     vote_branches valid_idx_of angle_deg n (path :: rest) = Raise TypeError).
Proof.
  intros Hlen. split; [|split].
  - intros pos_direct neg dG. unfold write_edges.
    replace (length path - 1) with 0 by lia.
    destruct (neg <? Z.of_nat pos_direct)%Z; reflexivity.
  - intros ->. split; [reflexivity|]. split; reflexivity.
  - intros H1. destruct path as [|u [|v path]]; try discriminate.
    split; [|split; [apply tally_nonempty|]].
    + unfold tally. cbn [length seq for_each].
      destruct (vote valid_idx_of angle_deg [u] 0 0); reflexivity.
    + intros n rest. unfold vote_branches. cbn [for_each].
      rewrite tally_nonempty. reflexivity.
Qed.

Lemma short_branch_rule_witness :
  (forall pos_direct neg dG, write_edges [0] pos_direct neg dG = Ok dG) /\
  tally (fun _ => [0]) (fun _ _ => Ok (Fin 0)) [0] = Raise TypeError.
Proof.
  destruct (short_branch_rule (fun _ => [0]) (fun _ _ => Ok (Fin 0)) [0])
    as (Hw & _ & H1).
  - simpl. lia.
  - split; [exact Hw|]. destruct H1 as (_ & Ht & _); [reflexivity|exact Ht].
Defined.

(** C8, refuted as stated: with the empty branch, and with the branch [0]
    of length 1, the voter fails. *)
Lemma short_branch_is_an_error :
  vote_branches (fun _ => [0]) (fun _ _ => Ok (Fin 0)) 1 [[]]
    = Raise IndexError /\
  vote_branches (fun _ => [0]) (fun _ _ => Ok (Fin 0)) 1 [[0]]
    = Raise TypeError.
Proof. split; reflexivity. Qed.

(** ** The angle helper *)

Section AngleFacts.

Local Open Scope R_scope.


Lemma lookup_vsub (a b : list R) (i : nat) (ai bi : R) :
  a !! i = Some ai -> b !! i = Some bi -> vsub a b !! i = Some (ai - bi).
Proof.
  intros Ha Hb. unfold vsub. rewrite lookup_zip_with, Ha, Hb. reflexivity.
Qed.

Lemma lookup_vdiv (v : list R) (s : R) (i : nat) (x : R) :
  v !! i = Some x -> vdiv v s !! i = Some (x / s).
Proof. intros H. unfold vdiv. rewrite lookup_map, H. reflexivity. Qed.

Lemma norm_e1 : norm [1 - 0; 0 - 0] = 1.
Proof.
  unfold norm. simpl.
  replace ((1 - 0) * (1 - 0) + ((0 - 0) * (0 - 0) + 0)) with 1 by ring.
  apply sqrt_1.
Qed.

End AngleFacts.

(* ================================================================= *)
(** * Further properties of the code *)

(** ** Loops *)

Lemma for_each_app {S I} (body : I -> S -> result S) (l1 l2 : list I) (s : S) :
  for_each body (l1 ++ l2) s =
  let* s1 := for_each body l1 s in for_each body l2 s1.
Proof.
  revert s. induction l1 as [|a l1 IH]; intros s; simpl; [reflexivity|].
  destruct (body a s); simpl; [apply IH|reflexivity].
Qed.

(** ** Per-cell graph contractor: symmetry *)

(** Writing one value at [(a, b)] and at [(b, a)] keeps a symmetric array
    symmetric. *)
Lemma symmetric_pair_write (G G1 G2 : ndarray fval) (a b : nat) (x : fval) :
  wf G -> symmetric G ->
  set G a b x = Ok G1 -> set G1 b a x = Ok G2 ->
  wf G2 /\ shape0 G2 = shape0 G /\ shape1 G2 = shape1 G /\ symmetric G2.
Proof.
  intros W Hs E1 E2.
  destruct (set_Ok G G1 a b x W E1) as (W1 & A0 & A1 & _ & _ & G1ab & O1).
  destruct (set_Ok G1 G2 b a x W1 E2) as (W2 & B0 & B1 & _ & _ & G2ba & O2).
  split; [exact W2|]. split; [congruence|]. split; [congruence|].
  assert (get G2 a b = Ok x) as G2ab.
  { destruct (decide ((a, b) = (b, a))) as [Heq|Hne].
    - inversion Heq. subst. exact G2ba.
    - rewrite (O2 a b Hne). exact G1ab. }
  intros i j.
  destruct (decide ((i, j) = (a, b))) as [Hab|Hnab].
  { inversion Hab. subst. rewrite G2ab, G2ba. reflexivity. }
  destruct (decide ((i, j) = (b, a))) as [Hba|Hnba].
  { inversion Hba. subst. rewrite G2ab, G2ba. reflexivity. }
  rewrite (O2 i j Hnba), (O1 i j Hnab).
  rewrite O2, O1; [apply Hs| |]; intros Heq; inversion Heq; subst; congruence.
Qed.

Section SymmetryKept.

Variable n0 n1 : nat.

(** The array during the run: well formed, of the first shape, symmetric. *)
Local Abbreviation sym_ok G :=
  (wf G /\ shape0 G = n0 /\ shape1 G = n1 /\ symmetric G).

Lemma reroute_body_symmetric (nodeid : nat) (min_val : fval)
  (min_ind : option nat) (i : nat) (G G' : ndarray fval) :
  sym_ok G -> reroute_body nodeid min_val min_ind i G = Ok G' -> sym_ok G'.
Proof.
  intros (W & S0 & S1 & Hs). unfold reroute_body.
  destruct min_ind as [m|]; [|discriminate].
  destruct (i =? m).
  - intros E. inversion E. subst. repeat split; try assumption; apply W.
  - destruct (get G nodeid i) as [w|]; simpl; [|discriminate].
    destruct (set G i m (fadd w min_val)) as [G1|] eqn:E1; simpl;
      [|discriminate].
    intros E2.
    destruct (symmetric_pair_write G G1 G' i m _ W Hs E1 E2)
      as (W' & A0 & A1 & Hs').
    split; [exact W'|]. split; [congruence|]. split; [congruence|exact Hs'].
Qed.

Lemma clear_first_symmetric (nodeid : nat) (nb_ids : list nat)
  (G G' : ndarray fval) :
  sym_ok G -> clear_first nodeid nb_ids G = Ok G' -> sym_ok G'.
Proof.
  intros (W & S0 & S1 & Hs). unfold clear_first.
  destruct (index nb_ids 0) as [nb0|]; simpl; [|discriminate].
  destruct (set G nodeid nb0 (Fin 0)) as [G1|] eqn:E1; simpl; [|discriminate].
  intros E2.
  destruct (symmetric_pair_write G G1 G' nodeid nb0 _ W Hs E1 E2)
    as (W' & A0 & A1 & Hs').
  split; [exact W'|]. split; [congruence|]. split; [congruence|exact Hs'].
Qed.

Lemma contract_body_symmetric (nodeid : nat)
  (st st' : ndarray fval * option nat) :
  sym_ok (fst st) -> contract_body nodeid st = Ok st' -> sym_ok (fst st').
Proof.
  intros Hok. unfold contract_body.
  destruct (index (rows (fst st)) 0) as [row0|]; simpl; [|discriminate].
  destruct (for_each (neighbours_body (fst st) nodeid) (seq 0 (length row0)) [])
    as [nb_ids|]; simpl; [|discriminate].
  destruct (length nb_ids =? 1).
  - destruct (clear_first nodeid nb_ids (fst st)) as [G1|] eqn:E1; simpl;
      [|discriminate].
    intros E. inversion E. subst. simpl.
    exact (clear_first_symmetric nodeid nb_ids _ G1 Hok E1).
  - destruct (for_each (scan_body (fst st) nodeid) (seq 0 (length row0))
                (PInf, snd st)) as [mm|]; simpl; [|discriminate].
    destruct (for_each (reroute_body nodeid (fst mm) (snd mm)) nb_ids (fst st))
      as [G1|] eqn:E1; simpl; [|discriminate].
    destruct (clear_first nodeid nb_ids G1) as [G2|] eqn:E2; simpl;
      [|discriminate].
    intros E. inversion E. subst. simpl.
    apply (clear_first_symmetric nodeid nb_ids G1 G2); [|exact E2].
    revert E1.
    apply (for_each_preserves
             (fun t => wf t /\ shape0 t = n0 /\ shape1 t = n1 /\ symmetric t));
      [|exact Hok].
    intros i t t' _. apply reroute_body_symmetric.
Qed.

End SymmetryKept.

(** X1.  [remove_velocity_points] keeps the shape and the symmetry of the
    adjacency matrix: if [G] is symmetric, so is the matrix returned, every
    weight written being written at [(i, j)] and at [(j, i)]. *)
Theorem remove_velocity_points_keeps_symmetry (G G' : ndarray fval) (n : nat) :
  wf G -> symmetric G ->
  remove_velocity_points G n = Ok G' ->
  wf G' /\ shape0 G' = shape0 G /\ shape1 G' = shape1 G /\ symmetric G'.
Proof.
  intros W Hs. unfold remove_velocity_points.
  destruct (for_each contract_body (seq n n) (G, None)) as [st|] eqn:E;
    simpl; [|discriminate].
  intros E'. inversion E'. subst G'. revert E.
  apply (for_each_preserves
           (fun st => wf (fst st) /\ shape0 (fst st) = shape0 G /\
                      shape1 (fst st) = shape1 G /\ symmetric (fst st))).
  - intros nodeid t t' _. apply contract_body_symmetric.
  - simpl. repeat split; try assumption; apply W.
Qed.

Lemma G4_symmetric : symmetric G4.
Proof.
  intros i j.
  destruct i as [|[|[|[|i]]]]; destruct j as [|[|[|[|j]]]]; reflexivity.
Qed.

Lemma remove_velocity_points_keeps_symmetry_witness :
  exists G',
    remove_velocity_points G4 2 = Ok G' /\
    wf G' /\ shape0 G' = 4 /\ shape1 G' = 4 /\ symmetric G'.
Proof.
  eexists. split; [vm_compute; reflexivity|].
  apply (remove_velocity_points_keeps_symmetry G4 _ 2).
  - apply wf_amap. split; [reflexivity|]. repeat constructor.
  - exact G4_symmetric.
  - vm_compute. reflexivity.
Defined.

(** ** Per-cell graph contractor: one pass *)

Lemma fltb_irrefl (x : fval) : fltb x x = false.
Proof.
  destruct x as [a| | |]; try reflexivity.
  unfold fltb. apply Qlt_b_false. apply Qle_refl.
Qed.

(** Below a value that lies below another one. *)
Lemma fltb_below (x y z : fval) :
  is_finite x = true -> is_finite y = true -> is_finite z = true ->
  fltb x y = true -> fltb z y = false ->
  fltb x z = true /\ fltb z x = false.
Proof.
  destruct x as [a| | |], y as [b| | |], z as [c| | |]; try discriminate.
  unfold fltb. intros _ _ _ Hab Hcb.
  apply Qlt_b_true in Hab. apply Qlt_b_false in Hcb.
  split.
  - apply Qlt_b_true. apply (Qlt_le_trans _ b); assumption.
  - apply Qlt_b_false. apply Qlt_le_weak. apply (Qlt_le_trans _ b); assumption.
Qed.

(** Lines 39-43 in full: every neighbour other than [min_ind] is joined to
    [min_ind] by its own weight plus [min_val], on both sides, and nothing
    else is written. *)
Lemma reroute_loop_cells (N nodeid m : nat) (min_val : fval) (ids : list nat) :
  m < N -> m <> nodeid -> nodeid < N ->
  Forall (fun i => i < N /\ i <> nodeid) ids ->
  forall G0,
    wf G0 -> shape0 G0 = N -> shape1 G0 = N ->
    exists G1,
      for_each (reroute_body nodeid min_val (Some m)) ids G0 = Ok G1 /\
      wf G1 /\ shape0 G1 = N /\ shape1 G1 = N /\
      (forall i w, In i ids -> i <> m -> get G0 nodeid i = Ok w ->
                   get G1 i m = Ok (fadd w min_val) /\
                   get G1 m i = Ok (fadd w min_val)) /\
      (forall a b,
          (forall i, In i ids -> i <> m -> (a, b) <> (i, m) /\ (a, b) <> (m, i)) ->
          get G1 a b = get G0 a b).
Proof.
  intros Hm Hmn Hn. induction ids as [|i ids IH]; intros Hids G0 W S0 S1.
  - exists G0. simpl. split; [reflexivity|]. split; [exact W|].
    split; [exact S0|]. split; [exact S1|]. split.
    + intros i w [].
    + reflexivity.
  - apply Forall_cons in Hids. destruct Hids as [[Hi Hin] Hrest]. simpl.
    unfold reroute_body at 1.
    destruct (Nat.eqb_spec i m) as [Heq|Him].
    + simpl. destruct (IH Hrest G0 W S0 S1) as (G1 & E & W1 & A0 & A1 & Hw & Ho).
      exists G1. split; [exact E|]. split; [exact W1|]. split; [exact A0|].
      split; [exact A1|]. split.
      * intros i' w [<-|Hin'] Hne Hget; [congruence|].
        exact (Hw i' w Hin' Hne Hget).
      * intros a b Hnot. apply Ho. intros i' Hin'. apply Hnot. right. exact Hin'.
    + destruct (get_lt G0 nodeid i W) as [wi Hwi]; [lia|lia|].
      rewrite Hwi. simpl.
      destruct (set_lt G0 i m (fadd wi min_val) W) as [G1 E1]; [lia|lia|].
      destruct (set_Ok G0 G1 i m _ W E1) as (W1 & A0 & A1 & _ & _ & G1im & O1).
      destruct (set_lt G1 m i (fadd wi min_val) W1) as [G2 E2]; [lia|lia|].
      destruct (set_Ok G1 G2 m i _ W1 E2) as (W2 & B0 & B1 & _ & _ & G2mi & O2).
      rewrite E1. simpl. rewrite E2. simpl.
      assert (get G2 i m = Ok (fadd wi min_val)) as G2im.
      { rewrite O2 by congruence. exact G1im. }
      assert (forall j, get G2 nodeid j = get G0 nodeid j) as Hrow.
      { intros j. rewrite O2, O1; [reflexivity| |]; congruence. }
      destruct (IH Hrest G2 W2) as (G3 & E & W3 & C0 & C1 & Hw & Ho);
        [lia|lia|].
      exists G3. split; [exact E|]. split; [exact W3|]. split; [exact C0|].
      split; [exact C1|]. split.
      * intros i' w Hin' Hne Hget.
        destruct (in_dec Nat.eq_dec i' ids) as [Hin''|Hnin].
        -- apply (Hw i' w Hin'' Hne). rewrite Hrow. exact Hget.
        -- destruct Hin' as [<-|Hin']; [|contradiction].
           rewrite Hwi in Hget. inversion Hget. subst w.
           rewrite !Ho.
           ++ split; assumption.
           ++ intros i' Hi' Hne'. split; intros Heq; inversion Heq; subst;
                contradiction.
           ++ intros i' Hi' Hne'. split; intros Heq; inversion Heq; subst;
                contradiction.
      * intros a b Hnot.
        destruct (Hnot i (or_introl eq_refl) Him) as [N1 N2].
        rewrite Ho.
        -- rewrite O2, O1; [reflexivity|exact N1|exact N2].
        -- intros i' Hin'. apply Hnot. right. exact Hin'.
Qed.

Section ContractorPassSpec.

Variable G : ndarray fval.
Variable N : nat.
Variable nodeid : nat.

Hypothesis G_wf : wf G.
Hypothesis G_rows : shape0 G = N.
Hypothesis G_cols : shape1 G = N.
Hypothesis nodeid_lt : nodeid < N.

(** the weight of the edge from [nodeid] to [j], and whether there is one *)
Local Abbreviation wt j := (item NaN G nodeid j).
Local Abbreviation nb j := (fneb (item NaN G nodeid j) (Fin 0)).
Local Abbreviation nbf := (fun j => fneb (item NaN G nodeid j) (Fin 0)).

Lemma get_wt (j : nat) : j < N -> get G nodeid j = Ok (wt j).
Proof.
  intros Hj. destruct (get_lt G nodeid j G_wf) as [w Hw]; [lia|lia|].
  rewrite Hw. rewrite (item_get NaN G nodeid j w Hw). reflexivity.
Qed.

Lemma first_row (row0 : list fval) :
  index (rows G) 0 = Ok row0 -> length row0 = N.
Proof.
  intros E. apply index_Ok in E. destruct G_wf as [_ Hc].
  rewrite <- G_cols. exact (proj1 (Forall_lookup _ _) Hc 0 row0 E).
Qed.

(** X2.  A pass over a node with exactly one neighbour [nb0] (degree-1
    pruning) clears the edge on both sides, [G[nodeid][nb0]] and
    [G[nb0][nodeid]], leaves every other cell and [min_ind] as they were,
    and the row of the node ends without a nonzero entry. *)
Theorem contract_body_prunes_leaf (min_ind : option nat) (nb0 : nat) :
  List.filter nbf (seq 0 N) = [nb0] ->
  exists G',
    contract_body nodeid (G, min_ind) = Ok (G', min_ind) /\
    get G' nodeid nb0 = Ok (Fin 0) /\ get G' nb0 nodeid = Ok (Fin 0) /\
    (forall a b, (a, b) <> (nodeid, nb0) -> (a, b) <> (nb0, nodeid) ->
                 get G' a b = get G a b) /\
    (forall j, j < N -> fneb (item NaN G' nodeid j) (Fin 0) = false).
Proof.
  intros Hnbs.
  assert (nb0 < N /\ nb nb0 = true) as [H0 Hnb0].
  { assert (In nb0 (List.filter nbf (seq 0 N))) as Hin
      by (rewrite Hnbs; left; reflexivity).
    apply List.filter_In in Hin. cbv beta in Hin. destruct Hin as [Hseq Hnb].
    apply in_seq in Hseq. split; [lia|exact Hnb]. }
  destruct (index_lt (rows G) 0) as [row0 [E0 _]].
  { destruct G_wf as [-> _]. lia. }
  unfold contract_body. cbn [fst snd]. rewrite E0. cbn [bind].
  rewrite (first_row row0 E0).
  rewrite (neighbours_loop G N nodeid G_wf G_rows G_cols nodeid_lt) by lia.
  rewrite Hnbs. cbn [bind app length Nat.eqb].
  unfold clear_first, index. cbn [lookup list_lookup bind].
  destruct (set_lt G nodeid nb0 (Fin 0) G_wf) as [G1 E1]; [lia|lia|].
  destruct (set_Ok G G1 nodeid nb0 _ G_wf E1)
    as (W1 & A0 & A1 & _ & _ & G1a & O1).
  destruct (set_lt G1 nb0 nodeid (Fin 0) W1) as [G2 E2]; [lia|lia|].
  destruct (set_Ok G1 G2 nb0 nodeid _ W1 E2)
    as (W2 & B0 & B1 & _ & _ & G2b & O2).
  rewrite E1. cbn [bind]. rewrite E2. cbn [bind].
  exists G2. split; [reflexivity|].
  assert (get G2 nodeid nb0 = Ok (Fin 0)) as G2a.
  { destruct (decide ((nodeid, nb0) = (nb0, nodeid))) as [Heq|Hne].
    - assert (nodeid = nb0) as Hsame by congruence.
      rewrite Hsame. rewrite Hsame in G2b. exact G2b.
    - rewrite (O2 _ _ Hne). exact G1a. }
  split; [exact G2a|]. split; [exact G2b|]. split.
  - intros a b H1 H2. rewrite (O2 a b H2). apply (O1 a b H1).
  - intros j Hj. destruct (Nat.eq_dec j nb0) as [->|Hne].
    + rewrite (item_get NaN G2 _ _ _ G2a). reflexivity.
    + assert (item NaN G2 nodeid j = item NaN G nodeid j) as ->.
      { unfold item. rewrite O2, O1; [reflexivity| |]; intros Heq;
          inversion Heq; subst; congruence. }
      destruct (nb j) eqn:Hnbj; [|reflexivity].
      assert (In j (List.filter nbf (seq 0 N))) as Hin.
      { apply List.filter_In. cbv beta. split; [apply in_seq; lia|exact Hnbj]. }
      rewrite Hnbs in Hin. destruct Hin as [<-|[]]. congruence.
Qed.

(** A pass over a node whose row has no nonzero entry fails at
    [nb_ids[0]]. *)
Lemma contract_body_no_neighbour (min_ind : option nat) :
  (forall j, j < N -> nb j = false) ->
  contract_body nodeid (G, min_ind) = Raise IndexError.
Proof.
  intros Hzero.
  assert (List.filter nbf (seq 0 N) = []) as Hnbs.
  { destruct (List.filter nbf (seq 0 N)) as [|j l] eqn:E; [reflexivity|].
    assert (In j (List.filter nbf (seq 0 N))) as Hin
      by (rewrite E; left; reflexivity).
    apply List.filter_In in Hin. cbv beta in Hin. destruct Hin as [Hseq Hnb].
    apply in_seq in Hseq. rewrite Hzero in Hnb by lia. discriminate. }
  assert (forall j w, get G nodeid j = Ok w -> is_finite w = true) as Hfin.
  { intros j w Hw. destruct (get_Ok_lt G nodeid j w G_wf Hw) as [_ Hj].
    specialize (Hzero j ltac:(lia)).
    rewrite (item_get NaN G nodeid j w Hw) in Hzero.
    destruct w; try discriminate. reflexivity. }
  destruct (index_lt (rows G) 0) as [row0 [E0 _]].
  { destruct G_wf as [-> _]. lia. }
  unfold contract_body. cbn [fst snd]. rewrite E0. cbn [bind].
  rewrite (first_row row0 E0).
  rewrite (neighbours_loop G N nodeid G_wf G_rows G_cols nodeid_lt) by lia.
  rewrite Hnbs. cbn [bind app length Nat.eqb].
  destruct (scan_loop G N nodeid G_wf G_rows G_cols nodeid_lt Hfin N 0
              (PInf, min_ind) ltac:(lia) (or_introl eq_refl))
    as (st' & Escan & _).
  rewrite Escan. reflexivity.
Qed.

Hypothesis row_finite : forall j, j < N -> is_finite (wt j) = true.

(** The scan of lines 33-38 over the columns below [s]: either no
    neighbour was met, or [min_ind] is the first neighbour of least weight
    among them and [min_val] is its weight. *)
Local Abbreviation scanned mi0 s st :=
  ((fst st = PInf /\ snd st = mi0 /\ forall j, j < s -> nb j = false) \/
   (exists m,
       snd st = Some m /\ m < s /\ nb m = true /\ fst st = wt m /\
       (forall j, j < s -> nb j = true -> fltb (wt j) (wt m) = false) /\
       (forall j, j < m -> nb j = true -> fltb (wt m) (wt j) = true))).

Lemma scan_loop_min (mi0 : option nat) (n s : nat) (st : fval * option nat) :
  s + n <= N -> scanned mi0 s st ->
  exists st',
    for_each (scan_body G nodeid) (seq s n) st = Ok st' /\
    scanned mi0 (s + n) st'.
Proof.
  revert s st. induction n as [|n IH]; intros s st Hs Hst.
  - exists st. replace (s + 0) with s by lia. split; [reflexivity|exact Hst].
  - cbn [seq for_each]. unfold scan_body at 1.
    rewrite (get_wt s) by lia. cbn [bind].
    assert (exists st1,
               (if nb s
                then if fltb (wt s) (fst st) then Ok (wt s, Some s) else Ok st
                else Ok st) = Ok st1 /\ scanned mi0 (S s) st1)
      as (st1 & E1 & Hst1).
    { pose proof (row_finite s ltac:(lia)) as Hfs.
      destruct (nb s) eqn:Hnbs.
      - destruct (fltb (wt s) (fst st)) eqn:Hlt.
        + exists (wt s, Some s). split; [reflexivity|]. right.
          exists s. cbn [fst snd]. split; [reflexivity|]. split; [lia|].
          split; [exact Hnbs|]. split; [reflexivity|].
          destruct Hst as [(Hinf & _ & Hnone)|(m & Hmi & Hm & Hnbm & Hval & Hmin & Hfirst)].
          * split.
            -- intros j Hj Hnbj. destruct (Nat.eq_dec j s) as [->|Hne].
               ++ apply fltb_irrefl.
               ++ rewrite Hnone in Hnbj by lia. discriminate.
            -- intros j Hj Hnbj. rewrite Hnone in Hnbj by lia. discriminate.
          * rewrite Hval in Hlt.
            pose proof (row_finite m ltac:(lia)) as Hfm.
            split.
            -- intros j Hj Hnbj. destruct (Nat.eq_dec j s) as [->|Hne].
               ++ apply fltb_irrefl.
               ++ apply (fltb_below (wt s) (wt m) (wt j)); try assumption.
                  ** apply row_finite. lia.
                  ** apply Hmin; [lia|exact Hnbj].
            -- intros j Hj Hnbj.
               apply (fltb_below (wt s) (wt m) (wt j)); try assumption.
               ++ apply row_finite. lia.
               ++ apply Hmin; [lia|exact Hnbj].
        + exists st. split; [reflexivity|].
          destruct Hst as [(Hinf & _ & _)|(m & Hmi & Hm & Hnbm & Hval & Hmin & Hfirst)].
          * rewrite Hinf in Hlt. destruct (wt s); discriminate.
          * right. exists m. split; [exact Hmi|]. split; [lia|].
            split; [exact Hnbm|]. split; [exact Hval|]. split; [|exact Hfirst].
            intros j Hj Hnbj. destruct (Nat.eq_dec j s) as [->|Hne].
            -- rewrite <- Hval. exact Hlt.
            -- apply Hmin; [lia|exact Hnbj].
      - exists st. split; [reflexivity|].
        destruct Hst as [(Hinf & Hmi & Hnone)|(m & Hmi & Hm & Hnbm & Hval & Hmin & Hfirst)].
        + left. split; [exact Hinf|]. split; [exact Hmi|].
          intros j Hj. destruct (Nat.eq_dec j s) as [->|Hne];
            [exact Hnbs|apply Hnone; lia].
        + right. exists m. split; [exact Hmi|]. split; [lia|].
          split; [exact Hnbm|]. split; [exact Hval|]. split; [|exact Hfirst].
          intros j Hj Hnbj. destruct (Nat.eq_dec j s) as [->|Hne];
            [congruence|apply Hmin; [lia|exact Hnbj]]. }
    rewrite E1. cbn [bind].
    destruct (IH (S s) st1 ltac:(lia) Hst1) as (st' & E & Hst').
    exists st'. split; [exact E|].
    replace (s + S n) with (S s + n) by lia. exact Hst'.
Qed.

Hypothesis no_self_loop : nb nodeid = false.

(** X3.  A pass over a node with two or more neighbours (finite weights, no
    loop at the node): [min_ind] becomes the first neighbour [m] of least
    weight; every other neighbour [i] is joined to [m] on both sides with
    the weight [G[nodeid][i] + G[nodeid][m]]; the edge to the first
    neighbour [nb_ids[0]] is cleared on both sides; and no other cell
    changes, so that the edges from the node to its further neighbours
    stay. *)
Theorem contract_body_reroutes (min_ind : option nat) (nb0 nb1 : nat)
  (others : list nat) :
  List.filter nbf (seq 0 N) = nb0 :: nb1 :: others ->
  exists G' m,
    contract_body nodeid (G, min_ind) = Ok (G', Some m) /\
    In m (nb0 :: nb1 :: others) /\
    (forall j, In j (nb0 :: nb1 :: others) -> fltb (wt j) (wt m) = false) /\
    (forall j, In j (nb0 :: nb1 :: others) -> j < m ->
               fltb (wt m) (wt j) = true) /\
    (forall i, In i (nb0 :: nb1 :: others) -> i <> m ->
               get G' i m = Ok (fadd (wt i) (wt m)) /\
               get G' m i = Ok (fadd (wt i) (wt m))) /\
    get G' nodeid nb0 = Ok (Fin 0) /\ get G' nb0 nodeid = Ok (Fin 0) /\
    (forall a b,
        (a, b) <> (nodeid, nb0) -> (a, b) <> (nb0, nodeid) ->
        (forall i, In i (nb0 :: nb1 :: others) -> i <> m ->
                   (a, b) <> (i, m) /\ (a, b) <> (m, i)) ->
        get G' a b = get G a b).
Proof.
  intros Hnbs. remember (nb0 :: nb1 :: others) as nb_ids eqn:Hdef.
  assert ((length nb_ids =? 1) = false) as Hlen by (rewrite Hdef; reflexivity).
  assert (index nb_ids 0 = Ok nb0) as Hfirst0 by (rewrite Hdef; reflexivity).
  assert (In nb0 nb_ids) as Hin0 by (rewrite Hdef; left; reflexivity).
  clear Hdef.
  assert (forall i, In i nb_ids <-> i < N /\ nb i = true) as Hmem.
  { intros i. rewrite <- Hnbs. rewrite List.filter_In, in_seq.
    cbv beta. split; intros [H1 H2]; (split; [lia|exact H2]). }
  assert (forall i, In i nb_ids -> i <> nodeid) as Hne.
  { intros i Hi ->. apply Hmem in Hi. destruct Hi as [_ Hi].
    rewrite no_self_loop in Hi. discriminate. }
  destruct (index_lt (rows G) 0) as [row0 [E0 _]].
  { destruct G_wf as [-> _]. lia. }
  unfold contract_body. cbn [fst snd]. rewrite E0. cbn [bind].
  rewrite (first_row row0 E0).
  rewrite (neighbours_loop G N nodeid G_wf G_rows G_cols nodeid_lt) by lia.
  rewrite Hnbs. cbn [bind app]. rewrite Hlen.
  destruct (scan_loop_min min_ind N 0 (PInf, min_ind)) as (st' & Escan & Hst').
  { lia. }
  { left. cbn [fst snd]. repeat split. intros j Hj. lia. }
  rewrite Escan. cbn [bind].
  destruct Hst' as [(_ & _ & Hnone)|(m & Hmi & Hm & Hnbm & Hval & Hmin & Hfirst)].
  { exfalso. apply Hmem in Hin0. destruct Hin0 as [H0 H0'].
    rewrite Hnone in H0' by lia. discriminate. }
  cbn [Nat.add] in Hm, Hmin. rewrite Hmi, Hval.
  assert (In m nb_ids) as Hmin_in by (apply Hmem; split; assumption).
  assert (Forall (fun i => i < N /\ i <> nodeid) nb_ids) as Hids.
  { apply List.Forall_forall. intros i Hi. split; [apply Hmem, Hi|apply Hne, Hi]. }
  destruct (reroute_loop_cells N nodeid m (wt m) nb_ids Hm (Hne m Hmin_in)
              nodeid_lt Hids G G_wf G_rows G_cols)
    as (G1 & E1 & W1 & A0 & A1 & Hw & Ho).
  rewrite E1. cbn [bind].
  assert (nb0 < N /\ nb0 <> nodeid) as [H0 H0n].
  { split; [apply Hmem|apply Hne]; exact Hin0. }
  unfold clear_first. rewrite Hfirst0. cbn [bind].
  destruct (set_lt G1 nodeid nb0 (Fin 0) W1) as [G2 E2]; [lia|lia|].
  destruct (set_Ok G1 G2 nodeid nb0 _ W1 E2) as (W2 & B0 & B1 & _ & _ & G2a & O2).
  destruct (set_lt G2 nb0 nodeid (Fin 0) W2) as [G3 E3]; [lia|lia|].
  destruct (set_Ok G2 G3 nb0 nodeid _ W2 E3) as (W3 & _ & _ & _ & _ & G3b & O3).
  rewrite E2. cbn [bind]. rewrite E3. cbn [bind].
  exists G3, m. split; [reflexivity|]. split; [exact Hmin_in|]. split.
  { intros j Hj. apply Hmem in Hj. destruct Hj. apply Hmin; assumption. }
  split.
  { intros j Hj Hjm. apply Hmem in Hj. destruct Hj. apply Hfirst; assumption. }
  split.
  { intros i Hi Him.
    destruct (Hw i (wt i) Hi Him) as [Him1 Hmi1].
    { apply get_wt. apply Hmem, Hi. }
    pose proof (Hne i Hi) as Hin. pose proof (Hne m Hmin_in) as Hmn.
    split.
    - rewrite O3, O2; [exact Him1| |]; intros Heq; inversion Heq; congruence.
    - rewrite O3, O2; [exact Hmi1| |]; intros Heq; inversion Heq; congruence. }
  split.
  { rewrite O3; [exact G2a|]. intros Heq. inversion Heq. congruence. }
  split; [exact G3b|].
  intros a b H1 H2 H3. rewrite (O3 a b H2), (O2 a b H1). apply Ho. exact H3.
Qed.

End ContractorPassSpec.

Lemma G4_wf : wf G4.
Proof. apply wf_amap. split; [reflexivity|]. repeat constructor. Qed.

Lemma contract_body_prunes_leaf_witness :
  exists G',
    contract_body 3 (G4, None) = Ok (G', None) /\
    get G' 3 1 = Ok (Fin 0) /\ get G' 1 3 = Ok (Fin 0) /\
    (forall a b, (a, b) <> (3, 1) -> (a, b) <> (1, 3) ->
                 get G' a b = get G4 a b) /\
    (forall j, j < 4 -> fneb (item NaN G' 3 j) (Fin 0) = false).
Proof.
  apply (contract_body_prunes_leaf G4 4 3 G4_wf).
  - reflexivity.
  - reflexivity.
  - lia.
  - reflexivity.
Defined.

Lemma contract_body_reroutes_witness :
  exists G' m,
    contract_body 2 (G4, None) = Ok (G', Some m) /\
    get G' 1 0 = Ok (fadd (Fin 2) (Fin 1)) /\
    get G' 2 1 = get G4 2 1.
Proof.
  destruct (contract_body_reroutes G4 4 2 G4_wf eq_refl eq_refl) with
    (min_ind := @None nat) (nb0 := 0) (nb1 := 1) (others := @nil nat)
    as (G' & m & E & Hin & Hmin & Hfirst & Hw & _ & _ & Ho).
  - lia.
  - intros j Hj. destruct j as [|[|[|[|j]]]]; try reflexivity. lia.
  - reflexivity.
  - reflexivity.
  - assert (m = 0) as ->.
    { destruct Hin as [<-|[<-|[]]]; [reflexivity|].
      specialize (Hmin 0 (or_introl eq_refl)). discriminate Hmin. }
    exists G', 0. split; [exact E|]. split.
    + apply (Hw 1); [right; left; reflexivity|lia].
    + apply Ho; try congruence.
      intros i [<-|[<-|[]]] Hne; [congruence|].
      split; congruence.
Defined.

(** X4.  A duplicate without any neighbour makes [remove_velocity_points]
    fail: when the row of the first duplicate [n] holds no nonzero entry, the
    read of [nb_ids[0]] raises [IndexError] and no graph is returned. *)
Theorem remove_velocity_points_stranded_duplicate (G : ndarray fval)
  (N n : nat) :
  wf G -> shape0 G = N -> shape1 G = N -> 0 < n -> n < N ->
  (forall j, j < N -> fneb (item NaN G n j) (Fin 0) = false) ->
  remove_velocity_points G n = Raise IndexError.
Proof.
  intros W S0 S1 Hn HN Hzero. unfold remove_velocity_points.
  destruct n as [|n']; [lia|]. cbn [seq for_each].
  rewrite (contract_body_no_neighbour G N (S n') W S0 S1 HN None Hzero).
  reflexivity.
Qed.

Lemma remove_velocity_points_stranded_duplicate_witness :
  remove_velocity_points G4_stranded 2 = Raise IndexError.
Proof.
  apply (remove_velocity_points_stranded_duplicate G4_stranded 4 2).
  - apply wf_amap. split; [reflexivity|]. repeat constructor.
  - reflexivity.
  - reflexivity.
  - lia.
  - lia.
  - intros j Hj. destruct j as [|[|[|[|j]]]]; try reflexivity. lia.
Defined.

(** ** Cluster transition aggregator: the entries of the result *)

Lemma comprehension_Forall2 {A B} (f : A -> result B) (l : list A) (bs : list B) :
  comprehension f l = Ok bs -> Forall2 (fun a b => f a = Ok b) l bs.
Proof.
  revert bs. induction l as [|a l IH]; intros bs; simpl.
  - intros E. inversion E. constructor.
  - destruct (f a) as [b|e] eqn:Hb; simpl; [|discriminate].
    destruct (comprehension f l) as [bs'|e] eqn:E; simpl; [|discriminate].
    intros E'. inversion E'. subst. constructor; [assumption|].
    apply IH. reflexivity.
Qed.

(** [0 / t], cleaned, is 0 whatever [t] is. *)
Lemma clean_zero_div (t : Q) :
  exists z, nan_to_num (zero_where_eq PInf (fdiv (Fin 0) (Fin t))) = Fin z /\
            (z == 0)%Q.
Proof.
  unfold fdiv. destruct (Qeq_bool t 0) eqn:Et.
  - exists 0%Q. split; reflexivity.
  - exists (0 / t)%Q. split; [reflexivity|].
    unfold Qdiv. ring.
Qed.

(** The entries [(a, b)] and [(b, a)] of the result, for [a <= b]: both are
    the cleaned quotient of the mass of the pair by the total of [a]. *)
Lemma transition_entry (T R : ndarray Q) :
  valid_input T R ->
  exists hp assignment M,
    comprehension row_max (rows R) = Ok hp /\
    comprehension row_argmax (rows R) = Ok assignment /\
    (forall a b, pair_mass T hp assignment a b = Ok (mass T hp assignment a b)) /\
    _compute_transition_matrix T R = Ok M /\
    forall a b, a <= b -> b < shape1 R ->
      exists v x y,
        nan_to_num (zero_where_eq PInf
          (fdiv (Fin (mass T hp assignment a b))
                (Fin (np_sum (map (mass T hp assignment a)
                                  (seq a (shape1 R - a))))))) = Fin v /\
        get M a b = Ok (Fin x) /\ get M b a = Ok (Fin y) /\
        (x == v)%Q /\ (y == v)%Q.
Proof.
  intros Hv.
  destruct (raw_stage_ok T R Hv)
    as (hp & asg & tr & totals & E1 & E2 & _ & EM & Hshape & Hm & Hcells & Htot).
  exists hp, asg, (symmetrize (normalize tr totals)).
  split; [exact E1|]. split; [exact E2|]. split; [exact Hm|].
  split; [exact EM|].
  intros a b Hab Hb. set (k := shape1 R) in *.
  assert (a < k) as Ha by lia.
  assert (forall i j, i < k -> j < k ->
            item NaN (normalize tr totals) i j =
            nan_to_num (zero_where_eq PInf
              (fdiv (Fin (if i <=? j then mass T hp asg i j else 0%Q))
                    (Fin (np_sum (map (mass T hp asg i) (seq i (k - i))))))))
    as Hitem.
  { intros i j Hi Hj.
    destruct (get_normalize k tr totals Hshape i j Hi Hj)
      as (x & t & Hx & Ht & G).
    rewrite (Hcells i j Hi Hj) in Hx. inversion Hx. subst x.
    rewrite (Htot i Hi) in Ht. inversion Ht. subst t.
    apply (item_get NaN _ _ _ _ G). }
  destruct (is_finite_Fin _ (nan_to_num_finite
              (zero_where_eq PInf
                 (fdiv (Fin (mass T hp asg a b))
                       (Fin (np_sum (map (mass T hp asg a) (seq a (k - a)))))))))
    as [v Hval].
  rewrite (get_symmetrize k tr totals Hshape a b Ha Hb).
  rewrite (get_symmetrize k tr totals Hshape b a Hb Ha).
  rewrite (Hitem a b Ha Hb).
  destruct (Nat.leb_spec a b) as [_|Hlt]; [|lia].
  rewrite Hval.
  destruct (Nat.eq_dec a b) as [<-|Hne].
  - rewrite Nat.eqb_refl. rewrite (Hitem a a Ha Ha), Nat.leb_refl, Hval.
    exists v, (v + v + - v)%Q, (v + v + - v)%Q.
    split; [reflexivity|]. split; [reflexivity|]. split; [reflexivity|].
    split; ring.
  - destruct (Nat.eqb_spec a b) as [|_]; [contradiction|].
    destruct (Nat.eqb_spec b a) as [|_]; [congruence|].
    rewrite (Hitem b a Hb Ha).
    destruct (Nat.leb_spec b a) as [Hle|_]; [lia|].
    destruct (clean_zero_div (np_sum (map (mass T hp asg b) (seq b (k - b)))))
      as (z & -> & Hz).
    exists v, (v + z + - 0)%Q, (z + v + - 0)%Q.
    split; [reflexivity|]. split; [reflexivity|]. split; [reflexivity|].
    split; rewrite Hz; ring.
Qed.

Lemma valid_T3_I3 : valid_input T3 I3.
Proof.
  unfold valid_input, wf. simpl. repeat split; try lia; repeat constructor.
Qed.

(** *** Nonnegative inputs *)

Lemma fold_max_in (t : list Q) (x : Q) :
  In (fold_left (fun m y => if Qlt_b m y then y else m) t x) (x :: t).
Proof.
  revert x. induction t as [|y t IH]; intros x; simpl; [left; reflexivity|].
  destruct (IH (if Qlt_b x y then y else x)) as [H|H].
  - destruct (Qlt_b x y); [right; left|left]; exact H.
  - right. right. exact H.
Qed.

Lemma row_max_in (r : list Q) (x : Q) : row_max r = Ok x -> In x r.
Proof.
  destruct r as [|y t]; simpl; [discriminate|].
  intros E. inversion E. apply (fold_max_in t y).
Qed.

Lemma highest_probability_nonneg (R : ndarray Q) (hp : list Q) :
  nonnegative R -> comprehension row_max (rows R) = Ok hp ->
  forall i x, hp !! i = Some x -> (0 <= x)%Q.
Proof.
  intros HR E i x Hx. apply comprehension_Forall2 in E.
  destruct (Forall2_lookup_r _ _ _ i x E Hx) as (r & Hr & Hmax).
  apply row_max_in in Hmax. apply list_elem_of_In in Hmax.
  apply list_elem_of_lookup in Hmax. destruct Hmax as [j Hj].
  apply (HR i j x). unfold get, index. rewrite Hr. simpl. rewrite Hj.
  reflexivity.
Qed.

Lemma np_sum_nonneg (l : list Q) :
  (forall x, In x l -> (0 <= x)%Q) -> (0 <= np_sum l)%Q.
Proof.
  induction l as [|x l IH]; intros H.
  - unfold np_sum. simpl. apply Qle_refl.
  - rewrite np_sum_cons.
    replace 0%Q with (0 + 0)%Q by reflexivity.
    apply Qplus_le_compat.
    + apply H. left. reflexivity.
    + apply IH. intros y Hy. apply H. right. exact Hy.
Qed.

Lemma np_sum_ge_member {A} (f : A -> Q) (l : list A) (b : A) :
  (forall a, In a l -> (0 <= f a)%Q) -> In b l -> (f b <= np_sum (map f l))%Q.
Proof.
  induction l as [|a l IH]; intros Hnn Hin; [destruct Hin|].
  simpl. rewrite np_sum_cons.
  assert (0 <= np_sum (map f l))%Q as Hrest.
  { apply np_sum_nonneg. intros x Hx. apply in_map_iff in Hx.
    destruct Hx as (a' & <- & Ha'). apply Hnn. right. exact Ha'. }
  destruct Hin as [<-|Hin].
  - rewrite <- (Qplus_0_r (f a)) at 1.
    apply Qplus_le_compat; [apply Qle_refl|exact Hrest].
  - rewrite <- (Qplus_0_l (f b)).
    apply Qplus_le_compat.
    + apply Hnn. left. reflexivity.
    + apply IH; [|exact Hin]. intros a' Ha'. apply Hnn. right. exact Ha'.
Qed.

Lemma mass_nonneg (T : ndarray Q) (hp : list Q) (assignment : list nat)
  (a b : nat) :
  nonnegative T -> (forall i x, hp !! i = Some x -> (0 <= x)%Q) ->
  (0 <= mass T hp assignment a b)%Q.
Proof.
  intros HT Hhp. unfold mass, pair_mass.
  destruct (comprehension _ _) as [terms|] eqn:E; simpl; [|apply Qle_refl].
  apply np_sum_nonneg. intros x Hx.
  apply comprehension_Forall2 in E.
  apply list_elem_of_In, list_elem_of_lookup in Hx. destruct Hx as [n Hn].
  destruct (Forall2_lookup_r _ _ _ n x E Hn) as ([i j] & _ & Hf).
  simpl in Hf.
  destruct (index hp i) as [pi|] eqn:Ei; simpl in Hf; [|discriminate].
  destruct (index hp j) as [pj|] eqn:Ej; simpl in Hf; [|discriminate].
  destruct (get T i j) as [t|] eqn:Et; simpl in Hf; [|discriminate].
  inversion Hf. apply index_Ok in Ei. apply index_Ok in Ej.
  apply Qmult_le_0_compat; [apply Qmult_le_0_compat|].
  - exact (Hhp i pi Ei).
  - exact (Hhp j pj Ej).
  - exact (HT i j t Et).
Qed.

(** A part of a total, divided by the total and cleaned, lies in [0, 1]. *)
Lemma clean_quotient_unit (q t v : Q) :
  (0 <= q)%Q -> (q <= t)%Q ->
  nan_to_num (zero_where_eq PInf (fdiv (Fin q) (Fin t))) = Fin v ->
  (0 <= v <= 1)%Q.
Proof.
  intros Hq Hqt. unfold fdiv.
  destruct (Qeq_bool t 0) eqn:Et.
  - apply Qeq_bool_eq in Et.
    assert (q == 0)%Q as Hq0.
    { apply Qle_antisym; [rewrite <- Et; exact Hqt|exact Hq]. }
    rewrite (Qeq_eq_bool _ _ Hq0). simpl. intros E. inversion E.
    split; [apply Qle_refl|discriminate].
  - apply Qeq_bool_neq in Et. simpl. intros E. inversion E.
    assert (0 < t)%Q as Ht.
    { apply Qle_lt_or_eq in Hq. destruct Hq as [Hq|Hq].
      - apply (Qlt_le_trans _ q); assumption.
      - apply Qle_lt_or_eq in Hqt. destruct Hqt as [Hqt|Hqt].
        + rewrite <- Hq in Hqt. exact Hqt.
        + exfalso. apply Et. rewrite <- Hqt, <- Hq. reflexivity. }
    split.
    + apply Qle_shift_div_l; [exact Ht|]. rewrite Qmult_0_l. exact Hq.
    + apply Qle_shift_div_r; [exact Ht|]. rewrite Qmult_1_l. exact Hqt.
Qed.

(** X5.  The result of [_compute_transition_matrix] cell by cell, on
    nonnegative inputs and in exact arithmetic: for clusters [a <= b], with
    [q = q(a, b)] and [t] the total of the smaller index [a] (the sum of
    [q(a, b')] over [b' >= a]), [0 <= q <= t], and both [M[a, b]] and
    [M[b, a]] are 0 when [t] is 0 (the quotient 0/0, replaced) and [q / t]
    otherwise; the total of [b] plays no part. *)
Theorem transition_matrix_entries (T R : ndarray Q) :
  valid_input T R -> nonnegative T -> nonnegative R ->
  exists hp assignment M,
    comprehension row_max (rows R) = Ok hp /\
    comprehension row_argmax (rows R) = Ok assignment /\
    (forall a b, pair_mass T hp assignment a b = Ok (mass T hp assignment a b)) /\
    _compute_transition_matrix T R = Ok M /\
    forall a b, a <= b -> b < shape1 R ->
      exists x y,
        get M a b = Ok (Fin x) /\ get M b a = Ok (Fin y) /\
        (0 <= mass T hp assignment a b <= total_from T hp assignment (shape1 R) a)%Q /\
        ((total_from T hp assignment (shape1 R) a == 0)%Q ->
         (x == 0)%Q /\ (y == 0)%Q) /\
        (~ (total_from T hp assignment (shape1 R) a == 0)%Q ->
         (x == mass T hp assignment a b
               / total_from T hp assignment (shape1 R) a)%Q /\
         (y == mass T hp assignment a b
               / total_from T hp assignment (shape1 R) a)%Q).
Proof.
  intros Hv HT HR.
  destruct (transition_entry T R Hv) as (hp & asg & M & E1 & E2 & Hm & EM & H).
  exists hp, asg, M. split; [exact E1|]. split; [exact E2|].
  split; [exact Hm|]. split; [exact EM|].
  pose proof (highest_probability_nonneg R hp HR E1) as Hhp.
  intros a b Hab Hb.
  destruct (H a b Hab Hb) as (v & x & y & Hval & Gx & Gy & Hx & Hy).
  exists x, y. split; [exact Gx|]. split; [exact Gy|].
  unfold total_from.
  assert (0 <= mass T hp asg a b)%Q as Hq0 by (apply mass_nonneg; assumption).
  assert (mass T hp asg a b <=
          np_sum (map (mass T hp asg a) (seq a (shape1 R - a))))%Q as Hqt.
  { apply (np_sum_ge_member (mass T hp asg a)).
    - intros b' _. apply mass_nonneg; assumption.
    - apply in_seq. lia. }
  split; [split; assumption|].
  unfold fdiv in Hval.
  destruct (Qeq_bool (np_sum (map (mass T hp asg a) (seq a (shape1 R - a)))) 0)
    eqn:Et.
  - apply Qeq_bool_eq in Et. split.
    + intros _.
      assert (mass T hp asg a b == 0)%Q as Hq
        by (apply Qle_antisym; [rewrite <- Et; exact Hqt|exact Hq0]).
      rewrite (Qeq_eq_bool _ _ Hq) in Hval. simpl in Hval.
      inversion Hval. subst v. split; assumption.
    + intros Hne. contradiction.
  - apply Qeq_bool_neq in Et. simpl in Hval. inversion Hval. subst v. split.
    + intros Hz. contradiction.
    + intros _. split; assumption.
Qed.

Lemma transition_matrix_entries_witness :
  exists M x y,
    _compute_transition_matrix T3 I3 = Ok M /\
    get M 1 2 = Ok (Fin x) /\ get M 2 1 = Ok (Fin y) /\
    (x == 1)%Q /\ (y == 1)%Q.
Proof.
  destruct (transition_matrix_entries T3 I3 valid_T3_I3)
    as (hp & asg & M & E1 & E2 & _ & EM & H).
  - apply nonnegative_rows. simpl.
    repeat (constructor; try (unfold Qle; simpl; lia)).
  - apply nonnegative_rows. simpl.
    repeat (constructor; try (unfold Qle; simpl; lia)).
  - destruct (H 1 2) as (x & y & Gx & Gy & _ & _ & Hq); [lia|simpl; lia|].
    exists M, x, y. split; [exact EM|]. split; [exact Gx|]. split; [exact Gy|].
    inversion E1. inversion E2. subst hp asg.
    destruct Hq as [Hx Hy]; [vm_compute; discriminate|].
    split; [rewrite Hx|rewrite Hy]; vm_compute; reflexivity.
Defined.

(** X6.  On nonnegative inputs every entry of the matrix returned by
    [_compute_transition_matrix] is a number between 0 and 1. *)
Theorem transition_matrix_in_unit_interval (T R : ndarray Q) :
  valid_input T R -> nonnegative T -> nonnegative R ->
  exists M,
    _compute_transition_matrix T R = Ok M /\
    forall a b, a < shape1 R -> b < shape1 R ->
      exists x, get M a b = Ok (Fin x) /\ (0 <= x <= 1)%Q.
Proof.
  intros Hv HT HR.
  destruct (transition_entry T R Hv) as (hp & asg & M & E1 & E2 & Hm & EM & H).
  exists M. split; [exact EM|].
  pose proof (highest_probability_nonneg R hp HR E1) as Hhp.
  assert (forall a b, a <= b -> b < shape1 R ->
            forall v,
              nan_to_num (zero_where_eq PInf
                (fdiv (Fin (mass T hp asg a b))
                      (Fin (np_sum (map (mass T hp asg a)
                                        (seq a (shape1 R - a))))))) = Fin v ->
              (0 <= v <= 1)%Q) as Hunit.
  { intros a b Hab Hb v. apply clean_quotient_unit.
    - apply mass_nonneg; assumption.
    - apply (np_sum_ge_member (mass T hp asg a)).
      + intros b' _. apply mass_nonneg; assumption.
      + apply in_seq. lia. }
  intros a b Ha Hb.
  destruct (Nat.le_ge_cases a b) as [Hab|Hba].
  - destruct (H a b Hab Hb) as (v & x & y & Hval & Gx & _ & Hx & _).
    exists x. split; [exact Gx|]. rewrite Hx. exact (Hunit a b Hab Hb v Hval).
  - destruct (H b a Hba Ha) as (v & x & y & Hval & _ & Gy & _ & Hy).
    exists y. split; [exact Gy|]. rewrite Hy. exact (Hunit b a Hba Ha v Hval).
Qed.

Lemma transition_matrix_in_unit_interval_witness :
  exists M,
    _compute_transition_matrix T3 I3 = Ok M /\
    forall a b, a < 3 -> b < 3 ->
      exists x, get M a b = Ok (Fin x) /\ (0 <= x <= 1)%Q.
Proof.
  apply (transition_matrix_in_unit_interval T3 I3 valid_T3_I3).
  - apply nonnegative_rows. simpl.
    repeat (constructor; try (unfold Qle; simpl; lia)).
  - apply nonnegative_rows. simpl.
    repeat (constructor; try (unfold Qle; simpl; lia)).
Defined.

(** *** A cluster without cells *)

Lemma where_eq_absent (assignment : list nat) (i pos : nat) :
  ~ In i assignment -> where_eq assignment i pos = [].
Proof.
  revert pos. induction assignment as [|c t IH]; intros pos Hni; simpl;
    [reflexivity|].
  destruct (Nat.eqb_spec c i) as [->|_].
  - exfalso. apply Hni. left. reflexivity.
  - apply IH. intros Hin. apply Hni. right. exact Hin.
Qed.

Lemma list_prod_empty_r {A B} (l : list A) : list_prod l (@nil B) = [].
Proof. induction l as [|a l IH]; simpl; [reflexivity|exact IH]. Qed.

Lemma mass_without_cells (T : ndarray Q) (hp : list Q) (assignment : list nat)
  (a b : nat) :
  ~ In a assignment ->
  mass T hp assignment a b = 0%Q /\ mass T hp assignment b a = 0%Q.
Proof.
  intros Hni. unfold mass, pair_mass, clusters.
  rewrite (where_eq_absent assignment a 0 Hni).
  rewrite list_prod_empty_r. split; reflexivity.
Qed.

(** X7.  A cluster that is the best cluster of no cell is cut off in the
    result of [_compute_transition_matrix]: its row and its column hold
    zeros only. *)
Theorem transition_matrix_empty_cluster (T R : ndarray Q)
  (assignment : list nat) (a : nat) :
  valid_input T R ->
  comprehension row_argmax (rows R) = Ok assignment ->
  ~ In a assignment -> a < shape1 R ->
  exists M,
    _compute_transition_matrix T R = Ok M /\
    forall b, b < shape1 R ->
      exists x y, get M a b = Ok (Fin x) /\ get M b a = Ok (Fin y) /\
                  (x == 0)%Q /\ (y == 0)%Q.
Proof.
  intros Hv Easg Hni Ha.
  destruct (transition_entry T R Hv) as (hp & asg & M & _ & E2 & _ & EM & H).
  assert (asg = assignment) as -> by congruence.
  exists M. split; [exact EM|].
  intros b Hb.
  destruct (mass_without_cells T hp assignment a b Hni) as [Hab Hba].
  destruct (Nat.le_ge_cases a b) as [Hle|Hle].
  - destruct (H a b Hle Hb) as (v & x & y & Hval & Gx & Gy & Hx & Hy).
    rewrite Hab in Hval.
    destruct (clean_zero_div
                (np_sum (map (mass T hp assignment a) (seq a (shape1 R - a)))))
      as (z & Hz & Hz0).
    assert (v = z) as -> by congruence.
    exists x, y. split; [exact Gx|]. split; [exact Gy|].
    split; [rewrite Hx|rewrite Hy]; exact Hz0.
  - destruct (H b a Hle Ha) as (v & x & y & Hval & Gx & Gy & Hx & Hy).
    rewrite Hba in Hval.
    destruct (clean_zero_div
                (np_sum (map (mass T hp assignment b) (seq b (shape1 R - b)))))
      as (z & Hz & Hz0).
    assert (v = z) as -> by congruence.
    exists y, x. split; [exact Gy|]. split; [exact Gx|].
    split; [rewrite Hy|rewrite Hx]; exact Hz0.
Qed.

Lemma transition_matrix_empty_cluster_witness :
  exists M,
    _compute_transition_matrix T3 (Arr 3 3 [[1; 0; 0]; [1; 0; 0]; [0; 0; 1]]%Q)
      = Ok M /\
    forall b, b < 3 ->
      exists x y, get M 1 b = Ok (Fin x) /\ get M b 1 = Ok (Fin y) /\
                  (x == 0)%Q /\ (y == 0)%Q.
Proof.
  apply (transition_matrix_empty_cluster T3
           (Arr 3 3 [[1; 0; 0]; [1; 0; 0]; [0; 0; 1]]%Q) [0; 0; 2] 1).
  - unfold valid_input, wf. simpl.
    repeat split; try lia; repeat constructor.
  - reflexivity.
  - simpl. intros [H|[H|[H|[]]]]; discriminate.
  - simpl. lia.
Defined.

(** *** A transition matrix smaller than the number of cells *)

Lemma for_each_fails {S I} (body : I -> S -> result S) (e : exn) (bad : I)
  (its : list I) (s : S) :
  (forall it st e', body it st = Raise e' -> e' = e) ->
  In bad its -> (forall st, body bad st = Raise e) ->
  for_each body its s = Raise e.
Proof.
  intros Hkind Hin Hbad. revert s.
  induction its as [|it its IH]; intros s; [destruct Hin|].
  simpl. destruct (body it s) as [st|e'] eqn:E; simpl.
  - destruct Hin as [->|Hin]; [rewrite Hbad in E; discriminate|].
    apply IH. exact Hin.
  - rewrite (Hkind it s e' E). reflexivity.
Qed.

Lemma for_each_raise_kind {S I} (body : I -> S -> result S) (e e' : exn)
  (its : list I) (s : S) :
  (forall it st e0, body it st = Raise e0 -> e0 = e) ->
  for_each body its s = Raise e' -> e' = e.
Proof.
  intros Hkind. revert s. induction its as [|it its IH]; intros s; simpl;
    [discriminate|].
  destruct (body it s) as [st|e0] eqn:E; simpl.
  - apply IH.
  - intros H. inversion H. subst e0. exact (Hkind it s e' E).
Qed.

Lemma comprehension_fails {A B} (f : A -> result B) (e : exn) (bad : A)
  (l : list A) :
  (forall a e', f a = Raise e' -> e' = e) ->
  In bad l -> f bad = Raise e -> comprehension f l = Raise e.
Proof.
  intros Hkind Hin Hbad. induction l as [|a l IH]; [destruct Hin|].
  simpl. destruct (f a) as [b|e'] eqn:E; simpl.
  - destruct Hin as [->|Hin]; [rewrite Hbad in E; discriminate|].
    rewrite (IH Hin). reflexivity.
  - rewrite (Hkind a e' E). reflexivity.
Qed.

Lemma comprehension_raise_kind {A B} (f : A -> result B) (e e' : exn)
  (l : list A) :
  (forall a e0, f a = Raise e0 -> e0 = e) ->
  comprehension f l = Raise e' -> e' = e.
Proof.
  intros Hkind. induction l as [|a l IH]; simpl; [discriminate|].
  destruct (f a) as [b|e0] eqn:E; simpl.
  - destruct (comprehension f l) as [bs|e1]; simpl; [discriminate|].
    intros H. inversion H. subst e1. apply IH. reflexivity.
  - intros H. inversion H. subst e0. exact (Hkind a e' E).
Qed.

Lemma index_raise {A} (l : list A) (i : nat) (e : exn) :
  index l i = Raise e -> e = IndexError.
Proof. unfold index. destruct (l !! i); intros H; inversion H; reflexivity. Qed.

Lemma store_raise {A} (l : list A) (i : nat) (x : A) (e : exn) :
  store l i x = Raise e -> e = IndexError.
Proof.
  unfold store. destruct (i <? length l); intros H; inversion H; reflexivity.
Qed.

Lemma get_raise {A} (M : ndarray A) (i j : nat) (e : exn) :
  get M i j = Raise e -> e = IndexError.
Proof.
  unfold get. destruct (index (rows M) i) as [r|e0] eqn:E; simpl.
  - apply index_raise.
  - intros H. inversion H. subst e0. exact (index_raise _ _ _ E).
Qed.

Lemma set_raise {A} (M : ndarray A) (i j : nat) (x : A) (e : exn) :
  set M i j x = Raise e -> e = IndexError.
Proof.
  unfold set. destruct (index (rows M) i) as [r|e0] eqn:E; simpl.
  - destruct (store r j x) as [r'|e1] eqn:E1; simpl; [discriminate|].
    intros H. inversion H. subst e1. exact (store_raise _ _ _ _ E1).
  - intros H. inversion H. subst e0. exact (index_raise _ _ _ E).
Qed.

Lemma get_out_of_range {A} (M : ndarray A) (i j : nat) :
  wf M -> shape0 M <= i \/ shape1 M <= j -> get M i j = Raise IndexError.
Proof.
  intros W H. destruct (get M i j) as [x|e] eqn:E.
  - apply (get_Ok_lt M i j x W) in E. lia.
  - rewrite (get_raise M i j e E). reflexivity.
Qed.

Lemma pair_term_raise (T : ndarray Q) (hp : list Q) (ij : nat * nat) (e : exn) :
  (let* pi := index hp (fst ij) in
   let* pj := index hp (snd ij) in
   let* t := get T (fst ij) (snd ij) in
   Ok (pi * pj * t)%Q) = Raise e -> e = IndexError.
Proof.
  destruct (index hp (fst ij)) as [pi|e0] eqn:Ei; simpl;
    [|intros H; inversion H; subst e0; exact (index_raise _ _ _ Ei)].
  destruct (index hp (snd ij)) as [pj|e0] eqn:Ej; simpl;
    [|intros H; inversion H; subst e0; exact (index_raise _ _ _ Ej)].
  destruct (get T (fst ij) (snd ij)) as [t|e0] eqn:Et; simpl;
    [discriminate|].
  intros H. inversion H. subst e0. exact (get_raise _ _ _ _ Et).
Qed.

Lemma inner_body_raise (T : ndarray Q) (hp : list Q) (assignment : list nat)
  (a b : nat) (st : ndarray Q * list Q) (e : exn) :
  inner_body T hp assignment a b st = Raise e -> e = IndexError.
Proof.
  unfold inner_body.
  destruct (pair_mass T hp assignment a b) as [q|e0] eqn:Eq; simpl.
  - destruct (index (snd st) a) as [ta|e0] eqn:Ei; simpl;
      [|intros H; inversion H; subst e0; exact (index_raise _ _ _ Ei)].
    destruct (store (snd st) a (ta + q)%Q) as [totals|e0] eqn:Es; simpl;
      [|intros H; inversion H; subst e0; exact (store_raise _ _ _ _ Es)].
    destruct (set (fst st) a b q) as [tr|e0] eqn:Et; simpl; [discriminate|].
    intros H. inversion H. subst e0. exact (set_raise _ _ _ _ _ Et).
  - intros H. inversion H. subst e0. unfold pair_mass in Eq.
    destruct (comprehension _ _) as [terms|e1] eqn:Ec; simpl in Eq;
      [discriminate|].
    inversion Eq. subst e1.
    apply (comprehension_raise_kind _ IndexError e _ (pair_term_raise T hp) Ec).
Qed.

Lemma where_eq_member (assignment : list nat) (i c pos : nat) :
  assignment !! i = Some c -> In (pos + i) (where_eq assignment c pos).
Proof.
  revert i pos. induction assignment as [|c' t IH]; intros i pos H;
    [discriminate|].
  simpl. destruct i as [|i]; simpl in H.
  - inversion H. subst c'. rewrite Nat.eqb_refl. left. lia.
  - replace (pos + S i) with (S pos + i) by lia.
    destruct (c' =? c); [right|]; apply IH; exact H.
Qed.

Lemma argmax_from_bound (l : list Q) (pos : nat) (best : Q) (best_pos : nat) :
  best_pos < pos -> argmax_from l pos best best_pos < pos + length l.
Proof.
  revert pos best best_pos.
  induction l as [|x t IH]; intros pos best best_pos H; simpl; [lia|].
  destruct (Qlt_b best x).
  - specialize (IH (S pos) x pos). lia.
  - specialize (IH (S pos) best best_pos). lia.
Qed.

Lemma row_argmax_bound (r : list Q) (c : nat) :
  row_argmax r = Ok c -> c < length r.
Proof.
  destruct r as [|x t]; simpl; [discriminate|].
  intros E. inversion E. pose proof (argmax_from_bound t 1 x 0). lia.
Qed.

(** X8.  [_compute_transition_matrix] rejects a transition matrix with fewer
    rows or fewer columns than [R] has cells: the read
    [transition_matrix[i, j]] of the last cell fails with [IndexError], and
    nothing is returned. *)
Theorem transition_matrix_too_small (T R : ndarray Q) :
  wf T -> wf R -> 0 < shape1 R -> 0 < shape0 R ->
  shape0 T < shape0 R \/ shape1 T < shape0 R ->
  _compute_transition_matrix T R = Raise IndexError.
Proof.
  intros WT WR Hk Hn Hsmall.
  destruct (row_reductions_ok R WR Hk) as (hp & asg & E1 & E2 & L1 & L2).
  unfold _compute_transition_matrix, raw_stage. rewrite E1, E2.
  cbn [bind].
  set (i0 := shape0 R - 1).
  destruct (lookup_lt_is_Some_2 asg i0) as [c Hc]; [unfold i0; lia|].
  assert (c < shape1 R) as Hck.
  { apply comprehension_Forall2 in E2.
    destruct (Forall2_lookup_r _ _ _ i0 c E2 Hc) as (r & Hr & Harg).
    apply row_argmax_bound in Harg.
    destruct WR as [_ Hrows].
    rewrite <- (proj1 (Forall_lookup _ _) Hrows i0 r Hr). exact Harg. }
  assert (pair_mass T hp asg c c = Raise IndexError) as Hbad.
  { unfold pair_mass.
    rewrite (comprehension_fails _ IndexError (i0, i0) _ (pair_term_raise T hp));
      [reflexivity| |].
    - apply in_prod_iff. unfold clusters.
      split; apply (where_eq_member asg i0 c 0 Hc).
    - cbn [fst snd].
      destruct (index_lt hp i0) as [p [-> _]]; [unfold i0; lia|].
      cbn [bind]. rewrite (get_out_of_range T i0 i0 WT); [reflexivity|].
      unfold i0. lia. }
  assert (accumulate T hp asg (shape1 R) = Raise IndexError) as Hacc.
  { unfold accumulate.
    apply (for_each_fails _ IndexError c).
    - intros a st e' E.
      apply (for_each_raise_kind _ IndexError e' _ st
               (inner_body_raise T hp asg a) E).
    - apply in_seq. lia.
    - intros st. replace (shape1 R - c) with (S (shape1 R - S c)) by lia.
      simpl. unfold inner_body at 1. rewrite Hbad. reflexivity. }
  rewrite Hacc. reflexivity.
Qed.

Lemma transition_matrix_too_small_witness :
  _compute_transition_matrix (Arr 2 2 [[0; 1]; [1; 0]]%Q) I3 = Raise IndexError.
Proof.
  apply transition_matrix_too_small.
  - unfold wf. simpl. split; [reflexivity|repeat constructor].
  - unfold wf. simpl. split; [reflexivity|repeat constructor].
  - simpl. lia.
  - simpl. lia.
  - simpl. lia.
Defined.

(** ** Segment likelihood evaluator: the values returned *)

Section RunningSum.

Variable ln : Q -> Q.
Variable M : ndarray fval.
Variable orders : list nat.
Variable k : nat.
Hypothesis M_wf : wf M.
Hypothesis M_rows : shape0 M = k.
Hypothesis M_cols : shape1 M = k.
Hypothesis orders_in_range : Forall (fun o => o < k) orders.

(** The sum, from the left, of the first [j + 1] steps of the ordering. *)
Local Abbreviation running j :=
  (fold_left fadd (map (log_step ln M orders) (seq 1 j))
     (log_step ln M orders 0)).

Lemma running_S (j : nat) :
  running (S j) = fadd (running j) (log_step ln M orders (S j)).
Proof. rewrite seq_S, map_app, fold_left_app. reflexivity. Qed.

Lemma log_matrix_step (j : nat) :
  S j < length orders ->
  exists r c,
    orders !! j = Some r /\ orders !! S j = Some c /\
    get (log_matrix ln M) r c = Ok (log_step ln M orders j).
Proof.
  intros Hj.
  destruct (lookup_lt_is_Some_2 orders j) as [r Hr]; [lia|].
  destruct (lookup_lt_is_Some_2 orders (S j)) as [c Hc]; [lia|].
  exists r, c. split; [exact Hr|]. split; [exact Hc|].
  assert (r < k) as Hrk by exact (proj1 (Forall_lookup _ _) orders_in_range _ _ Hr).
  assert (c < k) as Hck by exact (proj1 (Forall_lookup _ _) orders_in_range _ _ Hc).
  unfold log_matrix, log_step. rewrite get_amap.
  destruct (get_lt M r c M_wf) as [x Hx]; [lia|lia|].
  rewrite (nth_lookup_Some _ _ 0 _ Hr), (nth_lookup_Some _ _ 0 _ Hc).
  rewrite (item_get NaN M r c x Hx), Hx. reflexivity.
Qed.

Lemma segment_loop_running (m : nat) :
  forall i probability,
    2 <= i -> i + m = length orders -> length probability = i - 1 ->
    (forall j, j < i - 1 -> probability !! j = Some (running j)) ->
    exists p,
      for_each (segment_body (log_matrix ln M) orders) (seq i m) probability
        = Ok p /\
      forall j, j < length orders - 1 -> p !! j = Some (running j).
Proof.
  induction m as [|m IH]; intros i probability Hi Hn Hlen Hinv.
  - simpl. exists probability. split; [reflexivity|].
    intros j Hj. apply Hinv. lia.
  - simpl. unfold segment_body at 1.
    assert (probability !! (i - 2) = Some (running (i - 2))) as Hprev
      by (apply Hinv; lia).
    apply index_Ok in Hprev. rewrite Hprev. cbn [bind].
    destruct (log_matrix_step (i - 1)) as (r & c & Hr & Hc & Hl); [lia|].
    replace (S (i - 1)) with i in Hc by lia.
    apply index_Ok in Hr. apply index_Ok in Hc. rewrite Hr, Hc. cbn [bind].
    rewrite Hl. cbn [bind].
    apply IH; [lia|lia|rewrite length_app; simpl; lia|].
    intros j Hj.
    destruct (Nat.eq_dec j (i - 1)) as [->|Hne].
    + rewrite lookup_app_r by lia.
      replace (i - 1 - length probability) with 0 by lia. simpl.
      replace (i - 1) with (S (i - 2)) by lia.
      rewrite running_S. reflexivity.
    + rewrite lookup_app_l by lia. apply Hinv. lia.
Qed.

End RunningSum.

(** X9.  On an ordering of at least two cluster indices
    [_calculate_segment_probability] returns the running sums of the cleaned
    logarithms along the ordering: its [j]-th value is the sum, taken from
    the left, of the cleaned logarithms of the entries for the steps
    [0 .. j]. *)
Theorem segment_probability_running_sum (ln : Q -> Q) (M : ndarray fval)
  (orders : list nat) (k : nat) :
  wf M -> shape0 M = k -> shape1 M = k -> Forall (fun o => o < k) orders ->
  2 <= length orders ->
  exists p,
    _calculate_segment_probability ln M orders = Ok p /\
    forall j, j < length orders - 1 ->
      p !! j = Some (fold_left fadd (map (log_step ln M orders) (seq 1 j))
                       (log_step ln M orders 0)).
Proof.
  intros W H0 H1 Hord Hlen. unfold _calculate_segment_probability.
  destruct (log_matrix_step ln M orders k W H0 H1 Hord 0) as (r & c & Hr & Hc & Hl);
    [lia|].
  apply index_Ok in Hr. apply index_Ok in Hc. rewrite Hr, Hc. cbn [bind].
  rewrite Hl. cbn [bind].
  apply (segment_loop_running ln M orders k W H0 H1 Hord); [lia|lia|reflexivity|].
  intros j Hj. replace j with 0 by lia. reflexivity.
Qed.

Lemma segment_probability_running_sum_witness :
  exists p,
    _calculate_segment_probability ln_affine (amap Fin M3) [0; 1; 2] = Ok p /\
    forall j, j < 2 ->
      p !! j = Some (fold_left fadd
                       (map (log_step ln_affine (amap Fin M3) [0; 1; 2])
                            (seq 1 j))
                       (log_step ln_affine (amap Fin M3) [0; 1; 2] 0)).
Proof.
  apply (segment_probability_running_sum ln_affine (amap Fin M3) [0; 1; 2] 3).
  - apply wf_amap. split; [reflexivity|]. repeat constructor.
  - reflexivity.
  - reflexivity.
  - repeat constructor.
  - simpl. lia.
Defined.

(** ** Zero-safety of the aggregator and the evaluator *)

(** On valid nonnegative inputs the result is a well-formed square matrix
    with every entry between 0 and 1. *)
Lemma transition_unit_entries (T R : ndarray Q) :
  valid_input T R -> nonnegative T -> nonnegative R ->
  exists M,
    _compute_transition_matrix T R = Ok M /\
    wf M /\ shape0 M = shape1 R /\ shape1 M = shape1 R /\
    forall a b, a < shape1 R -> b < shape1 R ->
      exists y, get M a b = Ok (Fin y) /\ (0 <= y <= 1)%Q.
Proof.
  intros Hv HT HR.
  destruct (raw_stage_ok T R Hv)
    as (hp0 & asg0 & tr & totals & _ & _ & _ & EM0 & Hshape & _).
  destruct (wf_symmetrize _ tr totals Hshape) as (WM & M0 & M1).
  destruct (transition_entry T R Hv) as (hp & asg & M & E1 & E2 & Hm & EM & H).
  assert (M = symmetrize (normalize tr totals)) as HM by congruence.
  exists M. split; [exact EM|]. rewrite HM at 1 2 3.
  split; [exact WM|]. split; [exact M0|]. split; [exact M1|].
  pose proof (highest_probability_nonneg R hp HR E1) as Hhp.
  assert (forall a b, a <= b -> b < shape1 R ->
            forall v,
              nan_to_num (zero_where_eq PInf
                (fdiv (Fin (mass T hp asg a b))
                      (Fin (np_sum (map (mass T hp asg a)
                                        (seq a (shape1 R - a))))))) = Fin v ->
              (0 <= v <= 1)%Q) as Hunit.
  { intros a b Hab Hb v. apply clean_quotient_unit.
    - apply mass_nonneg; assumption.
    - apply (np_sum_ge_member (mass T hp asg a)).
      + intros b' _. apply mass_nonneg; assumption.
      + apply in_seq. lia. }
  intros a b Ha Hb.
  destruct (Nat.le_ge_cases a b) as [Hab|Hba].
  - destruct (H a b Hab Hb) as (v & x & y & Hval & Gx & _ & Hx & _).
    exists x. split; [exact Gx|]. rewrite Hx. exact (Hunit a b Hab Hb v Hval).
  - destruct (H b a Hba Ha) as (v & x & y & Hval & _ & Gy & _ & Hy).
    exists y. split; [exact Gy|]. rewrite Hy. exact (Hunit b a Hba Ha v Hval).
Qed.

(** A division by a zero total is [inf] or [nan], and is replaced by 0. *)
Lemma zero_total_cleaned (x t : Q) :
  (0 <= x)%Q -> (t == 0)%Q ->
  nan_to_num (zero_where_eq PInf (fdiv (Fin x) (Fin t))) = Fin 0.
Proof.
  intros Hx Ht. unfold fdiv. rewrite (Qeq_eq_bool _ _ Ht).
  destruct (Qeq_bool x 0) eqn:E; [reflexivity|].
  assert (Qlt_b 0 x = true) as ->; [|reflexivity].
  apply Qlt_b_true. apply Qle_lt_or_eq in Hx. destruct Hx as [Hlt|Heq];
    [exact Hlt|].
  apply Qeq_bool_neq in E. exfalso. apply E. symmetry. exact Heq.
Qed.

(** The cleaned logarithm is the logarithm where that is a number, and 0
    where it is [inf], [-inf] or [nan]. *)
Lemma clean_log_cases (ln : Q -> Q) (x : fval) :
  clean_log ln x = match np_log ln x with Fin q => Fin q | _ => Fin 0 end.
Proof. unfold clean_log. destruct (np_log ln x); reflexivity. Qed.

Section BoundedLogs.

Variable ln : Q -> Q.
Variable M : ndarray fval.
Variable B : Q.
Hypothesis B_nonneg : (0 <= B)%Q.
Hypothesis ln_bound :
  forall i j q, get M i j = Ok (Fin q) -> (0 < q -> - B <= ln q <= B)%Q.

(** Whatever the entry read, its cleaned logarithm is a number within the
    bound. *)
Lemma clean_log_bounded (i j : nat) :
  exists w, clean_log ln (item NaN M i j) = Fin w /\ (- B <= w <= B)%Q.
Proof.
  assert (- B <= 0 <= B)%Q as Hzero.
  { split; [|exact B_nonneg].
    pose proof B_nonneg as HB. apply Qopp_le_compat in HB. exact HB. }
  rewrite clean_log_cases. unfold item.
  destruct (get M i j) as [x|e] eqn:G;
    [|exists 0%Q; split; [reflexivity|exact Hzero]].
  destruct x as [q| | |]; simpl;
    try (exists 0%Q; split; [reflexivity|exact Hzero]).
  destruct (Qlt_b 0 q) eqn:E.
  - exists (ln q). split; [reflexivity|].
    apply (ln_bound i j q G). apply Qlt_b_true. exact E.
  - exists 0%Q. split; [destruct (Qeq_bool q 0); reflexivity|exact Hzero].
Qed.

Variable orders : list nat.

(** The running sums of [j + 1] cleaned logarithms stay within
    [(j + 1) B] of 0. *)
Lemma running_bound (j : nat) :
  exists v,
    fold_left fadd (map (log_step ln M orders) (seq 1 j))
      (log_step ln M orders 0) = Fin v /\
    (- (inject_Z (Z.of_nat (S j)) * B) <= v <= inject_Z (Z.of_nat (S j)) * B)%Q.
Proof.
  induction j as [|j IH].
  - destruct (clean_log_bounded (nth 0 orders 0) (nth 1 orders 0))
      as (w & Ew & Hw).
    exists w. split; [exact Ew|].
    replace (inject_Z (Z.of_nat 1)) with 1%Q by reflexivity.
    rewrite Qmult_1_l. exact Hw.
  - destruct IH as (v & Ev & [Hv1 Hv2]).
    destruct (clean_log_bounded (nth (S j) orders 0) (nth (S (S j)) orders 0))
      as (w & Ew & [Hw1 Hw2]).
    exists (v + w)%Q. split.
    + rewrite seq_S, map_app, fold_left_app. cbn [map fold_left].
      rewrite Ev. replace (1 + j) with (S j) by lia.
      unfold log_step at 1. rewrite Ew. reflexivity.
    + assert (inject_Z (Z.of_nat (S (S j))) ==
              inject_Z (Z.of_nat (S j)) + 1)%Q as Hs.
      { replace (Z.of_nat (S (S j))) with (Z.of_nat (S j) + 1)%Z by lia.
        rewrite inject_Z_plus. reflexivity. }
      split.
      * rewrite Hs.
        assert (- ((inject_Z (Z.of_nat (S j)) + 1) * B) ==
                - (inject_Z (Z.of_nat (S j)) * B) + - B)%Q as -> by ring.
        apply Qplus_le_compat; assumption.
      * rewrite Hs.
        assert ((inject_Z (Z.of_nat (S j)) + 1) * B ==
                inject_Z (Z.of_nat (S j)) * B + B)%Q as -> by ring.
        apply Qplus_le_compat; assumption.
Qed.

End BoundedLogs.

(** The evaluator returns the running sums of the cleaned logarithms. *)
Lemma segment_probability_running (ln : Q -> Q) (M : ndarray fval)
  (orders : list nat) (k : nat) :
  wf M -> shape0 M = k -> shape1 M = k -> Forall (fun o => o < k) orders ->
  2 <= length orders ->
  exists p,
    _calculate_segment_probability ln M orders = Ok p /\
    length p = length orders - 1 /\
    forall j, j < length orders - 1 ->
      p !! j = Some (fold_left fadd (map (log_step ln M orders) (seq 1 j))
                       (log_step ln M orders 0)).
Proof.
  intros M_wf M_rows M_cols orders_in_range Hlen.
  destruct (segment_probability_ok ln M orders k M_wf M_rows M_cols
              orders_in_range Hlen) as (p0 & Ep0 & Lp0).
  assert (exists p,
            _calculate_segment_probability ln M orders = Ok p /\
            forall j, j < length orders - 1 ->
              p !! j = Some (fold_left fadd
                               (map (log_step ln M orders) (seq 1 j))
                               (log_step ln M orders 0))) as (p & Ep & Hp).
  { unfold _calculate_segment_probability.
    destruct (log_matrix_step ln M orders k M_wf M_rows M_cols
                orders_in_range 0) as (r & c & Hr & Hc & Hl); [lia|].
    apply index_Ok in Hr. apply index_Ok in Hc. rewrite Hr, Hc. cbn [bind].
    rewrite Hl. cbn [bind].
    apply (segment_loop_running ln M orders k M_wf M_rows M_cols
             orders_in_range); [lia|lia|reflexivity|].
    intros j Hj. replace j with 0 by lia. reflexivity. }
  exists p. split; [exact Ep|]. split; [congruence|exact Hp].
Qed.

(** C6.  For every nonnegative input no [log(0)] or [0/0] reaches an output
    as [nan] or [inf].  The quotient [0/0] is [nan] and a positive number
    over 0 is [inf]; either is replaced by 0.  The logarithm of 0 is [-inf];
    a logarithm that is [inf], [-inf] or [nan] is replaced by 0, any other
    is kept.  Every entry of the matrix returned by
    [_compute_transition_matrix] is a number between 0 and 1.  Every entry of
    the sequence returned by [_calculate_segment_probability], on any
    matrix, is a number, the [j]-th within [(j + 1) B] of 0, where [B] bounds
    the logarithms of the positive entries of the matrix. *)
Theorem zero_safety (ln : Q -> Q) :
  (fdiv (Fin 0) (Fin 0) = NaN /\
   (forall x, (0 < x)%Q -> fdiv (Fin x) (Fin 0) = PInf) /\
   forall x t, (0 <= x)%Q -> (t == 0)%Q ->
     nan_to_num (zero_where_eq PInf (fdiv (Fin x) (Fin t))) = Fin 0) /\
  (np_log ln (Fin 0) = NInf /\ clean_log ln (Fin 0) = Fin 0 /\
   forall x,
     clean_log ln x = match np_log ln x with Fin q => Fin q | _ => Fin 0 end) /\
  (forall T R : ndarray Q,
     valid_input T R -> nonnegative T -> nonnegative R ->
     exists M,
       _compute_transition_matrix T R = Ok M /\
       wf M /\ shape0 M = shape1 R /\ shape1 M = shape1 R /\
       forall a b, a < shape1 R -> b < shape1 R ->
         exists y, get M a b = Ok (Fin y) /\ (0 <= y <= 1)%Q) /\
  (forall (M : ndarray fval) (k : nat) (orders : list nat) (B : Q),
     wf M -> shape0 M = k -> shape1 M = k ->
     Forall (fun o => o < k) orders -> 2 <= length orders ->
     (0 <= B)%Q ->
     (forall i j q, get M i j = Ok (Fin q) ->
                    (0 < q -> - B <= ln q <= B)%Q) ->
     exists p,
       _calculate_segment_probability ln M orders = Ok p /\
       length p = length orders - 1 /\
       forall j, j < length orders - 1 ->
         exists v, p !! j = Some (Fin v) /\
                   (- (inject_Z (Z.of_nat (S j)) * B) <= v
                    <= inject_Z (Z.of_nat (S j)) * B)%Q).
Proof.
  split; [|split; [|split]].
  - split; [reflexivity|]. split; [|exact zero_total_cleaned].
    intros x Hx. unfold fdiv. simpl.
    assert (Qeq_bool x 0 = false) as ->.
    { destruct (Qeq_bool x 0) eqn:E; [|reflexivity].
      apply Qeq_bool_eq in E. rewrite E in Hx. discriminate. }
    assert (Qlt_b 0 x = true) as -> by (apply Qlt_b_true; exact Hx).
    reflexivity.
  - split; [reflexivity|]. split; [reflexivity|exact (clean_log_cases ln)].
  - exact transition_unit_entries.
  - intros M k orders B WM M0 M1 Hord Hlen HB Hln.
    destruct (segment_probability_running ln M orders k WM M0 M1 Hord Hlen)
      as (p & Ep & Lp & Hp).
    exists p. split; [exact Ep|]. split; [exact Lp|].
    intros j Hj.
    destruct (running_bound ln M B HB Hln orders j) as (v & Ev & Hv').
    exists v. split; [rewrite (Hp j Hj), Ev; reflexivity|exact Hv'].
Qed.

Lemma zero_safety_witness :
  (exists M,
     _compute_transition_matrix T3 I3 = Ok M /\
     forall a b, a < 3 -> b < 3 ->
       exists y, get M a b = Ok (Fin y) /\ (0 <= y <= 1)%Q) /\
  exists p,
    _calculate_segment_probability ln_affine (amap Fin M3) [0; 1; 2] = Ok p /\
    length p = 2 /\
    forall j, j < 2 ->
      exists v, p !! j = Some (Fin v) /\
                (- (inject_Z (Z.of_nat (S j)) * 1) <= v
                 <= inject_Z (Z.of_nat (S j)) * 1)%Q.
Proof.
  destruct (zero_safety ln_affine) as (_ & _ & HM & Hp).
  split.
  - destruct (HM T3 I3 valid_T3_I3) as (M & EM & _ & _ & _ & Hunit).
    + apply nonnegative_rows. simpl.
      repeat (constructor; try (unfold Qle; simpl; lia)).
    + apply nonnegative_rows. simpl.
      repeat (constructor; try (unfold Qle; simpl; lia)).
    + exists M. split; [exact EM|exact Hunit].
  - apply (Hp (amap Fin M3) 3 [0; 1; 2] 1%Q).
    + apply wf_amap. split; [reflexivity|]. repeat constructor.
    + reflexivity.
    + reflexivity.
    + repeat constructor.
    + simpl. lia.
    + discriminate.
    + intros i j q G _.
      destruct i as [|[|[|i]]]; destruct j as [|[|[|j]]];
        try discriminate G; inversion G; subst q;
        split; vm_compute; discriminate.
Defined.

(** ** Cluster tree orienter: the cells of the result *)

Section OrienterCells.

Variable orders : list nat.
Variables segment_p segment_p_reversed : list fval.
Variable k : nat.

Hypothesis orders_in_range : Forall (fun o => o < k) orders.
Hypothesis p_long : length orders - 1 <= length segment_p.
Hypothesis p_rev_long : length orders - 1 <= length segment_p_reversed.

Local Abbreviation shaped t := (wf t /\ shape0 t = k /\ shape1 t = k).

Lemma two_writes_plain (t : ndarray fval) (r c : nat) (m z : fval) :
  shaped t -> r < k -> c < k ->
  exists t1 t2,
    set t r c m = Ok t1 /\ set t1 c r z = Ok t2 /\ shaped t2 /\
    get t2 c r = Ok z /\
    (r <> c -> get t2 r c = Ok m) /\
    (forall i j, (i, j) <> (r, c) -> (i, j) <> (c, r) ->
                 get t2 i j = get t i j).
Proof.
  intros (W & S0 & S1) Hr Hc.
  destruct (set_lt t r c m W) as [t1 E1]; [lia|lia|].
  destruct (set_Ok t t1 r c m W E1) as (W1 & A0 & A1 & _ & _ & G1 & O1).
  destruct (set_lt t1 c r z W1) as [t2 E2]; [lia|lia|].
  destruct (set_Ok t1 t2 c r z W1 E2) as (W2 & B0 & B1 & _ & _ & G2 & O2).
  exists t1, t2. split; [exact E1|]. split; [exact E2|]. split.
  - split; [exact W2|]. split; lia.
  - split; [exact G2|]. split.
    + intros Hrc. rewrite O2 by congruence. exact G1.
    + intros i j H1 H2. rewrite (O2 i j H2). apply (O1 i j H1).
Qed.

(** One pass of the loop body, lines 118-126, on any array of the right
    shape. *)
Lemma orient_body_cells (i : nat) (t : ndarray fval) :
  shaped t -> 1 <= i < length orders ->
  exists r c p p_rev x y t',
    orders !! (i - 1) = Some r /\ orders !! i = Some c /\
    segment_p !! (i - 1) = Some p /\
    segment_p_reversed !! (i - 1) = Some p_rev /\
    get t r c = Ok x /\ get t c r = Ok y /\
    orient_body orders segment_p segment_p_reversed i t = Ok t' /\
    shaped t' /\
    (if fgeb p p_rev
     then get t' c r = Ok (Fin 0) /\ (r <> c -> get t' r c = Ok (py_max x y))
     else get t' r c = Ok (Fin 0) /\ (r <> c -> get t' c r = Ok (py_max x y))) /\
    (forall a b, (a, b) <> (r, c) -> (a, b) <> (c, r) ->
                 get t' a b = get t a b).
Proof.
  intros Ht Hi. pose proof Ht as (W & S0 & S1).
  destruct (index_lt orders (i - 1)) as [r [Er Hr]]; [lia|].
  destruct (index_lt orders i) as [c [Ec Hc]]; [lia|].
  destruct (index_lt segment_p (i - 1)) as [p [Ep Hp]]; [lia|].
  destruct (index_lt segment_p_reversed (i - 1)) as [p_rev [Epr Hpr]]; [lia|].
  assert (r < k) as Hrk by exact (proj1 (Forall_lookup _ _) orders_in_range _ _ Hr).
  assert (c < k) as Hck by exact (proj1 (Forall_lookup _ _) orders_in_range _ _ Hc).
  destruct (get_lt t r c W) as [x Ex]; [lia|lia|].
  destruct (get_lt t c r W) as [y Ey]; [lia|lia|].
  unfold orient_body. rewrite Er, Ec, Ep, Epr. cbn [bind]. rewrite Ex, Ey.
  cbn [bind].
  destruct (fgeb p p_rev) eqn:Hge.
  - destruct (two_writes_plain t r c (py_max x y) (Fin 0) Ht Hrk Hck)
      as (t1 & t2 & E1 & E2 & Ht2 & G0 & Gm & Other).
    rewrite E1. cbn [bind].
    exists r, c, p, p_rev, x, y, t2.
    split; [exact Hr|]. split; [exact Hc|]. split; [exact Hp|].
    split; [exact Hpr|]. split; [exact Ex|]. split; [exact Ey|].
    split; [exact E2|]. split; [exact Ht2|]. rewrite Hge.
    split; [split; [exact G0|exact Gm]|exact Other].
  - destruct (two_writes_plain t c r (py_max x y) (Fin 0) Ht Hck Hrk)
      as (t1 & t2 & E1 & E2 & Ht2 & G0 & Gm & Other).
    rewrite E1. cbn [bind].
    exists r, c, p, p_rev, x, y, t2.
    split; [exact Hr|]. split; [exact Hc|]. split; [exact Hp|].
    split; [exact Hpr|]. split; [exact Ex|]. split; [exact Ey|].
    split; [exact E2|]. split; [exact Ht2|]. rewrite Hge.
    split; [split; [exact G0|intros Hne; apply Gm; congruence]|].
    intros a b H1 H2. apply Other; assumption.
Qed.

(** A run of passes changes only the cells of the pairs it handles. *)
Lemma orient_loop_frame (its : list nat) :
  Forall (fun i => 1 <= i < length orders) its ->
  forall t,
    shaped t ->
    exists t',
      for_each (orient_body orders segment_p segment_p_reversed) its t = Ok t' /\
      shaped t' /\
      forall a b,
        (forall i r c, In i its ->
           orders !! (i - 1) = Some r -> orders !! i = Some c ->
           (a, b) <> (r, c) /\ (a, b) <> (c, r)) ->
        get t' a b = get t a b.
Proof.
  induction its as [|i its IH]; intros Hits t Ht.
  - exists t. split; [reflexivity|]. split; [exact Ht|]. reflexivity.
  - inversion Hits as [|? ? Hi Hrest]. subst.
    destruct (orient_body_cells i t Ht Hi)
      as (r & c & _ & _ & _ & _ & t1 & Hr & Hc & _ & _ & _ & _ & E1 & Ht1 & _
          & Hframe).
    destruct (IH Hrest t1 Ht1) as (t' & E & Ht' & Hrestframe).
    exists t'. simpl. rewrite E1. cbn [bind].
    split; [exact E|]. split; [exact Ht'|].
    intros a b Hoff.
    rewrite Hrestframe.
    + destruct (Hoff i r c (or_introl eq_refl) Hr Hc) as [H1 H2].
      apply Hframe; assumption.
    + intros j r' c' Hj. apply Hoff. right. exact Hj.
Qed.

(** A pass never joins two clusters that were not joined. *)
Lemma orient_body_no_new_edge (u v : nat) (i : nat) (t : ndarray fval) :
  shaped t -> 1 <= i < length orders -> adjacent t u v = false ->
  exists t',
    orient_body orders segment_p segment_p_reversed i t = Ok t' /\
    shaped t' /\ adjacent t' u v = false.
Proof.
  intros Ht Hi Hadj.
  destruct (orient_body_cells i t Ht Hi)
    as (r & c & p & p_rev & x & y & t' & _ & _ & _ & _ & Ex & Ey & E & Ht'
        & Hdir & Hframe).
  exists t'. split; [exact E|]. split; [exact Ht'|].
  unfold adjacent in *. apply orb_false_iff in Hadj. destruct Hadj as [Huv Hvu].
  assert (forall a b, fneb (item NaN t a b) (Fin 0) = false ->
            fneb (item NaN t b a) (Fin 0) = false ->
            (a, b) = (r, c) \/ (a, b) = (c, r) ->
            fneb (item NaN t' a b) (Fin 0) = false) as Hpair.
  { intros a b Hab Hba Hcase.
    assert (fneb x (Fin 0) = false /\ fneb y (Fin 0) = false) as [Hx Hy].
    { destruct Hcase as [Heq|Heq]; inversion Heq; subst a b;
        rewrite (item_get NaN t _ _ _ Ex) in *;
        rewrite (item_get NaN t _ _ _ Ey) in *; split; assumption. }
    assert (fneb (py_max x y) (Fin 0) = false) as Hm
      by (destruct (py_max_cases x y) as [->| ->]; assumption).
    destruct (Nat.eq_dec r c) as [Hrc|Hrc].
    - assert ((a, b) = (r, c) /\ (a, b) = (c, r)) as [Heq1 Heq2]
        by (destruct Hcase as [Heq|Heq]; inversion Heq; subst; split;
            congruence).
      destruct (fgeb p p_rev); destruct Hdir as [G0 _].
      + inversion Heq2. subst a b.
        rewrite (item_get NaN t' _ _ _ G0). reflexivity.
      + inversion Heq1. subst a b.
        rewrite (item_get NaN t' _ _ _ G0). reflexivity.
    - destruct (fgeb p p_rev); destruct Hdir as [G0 Gm];
        specialize (Gm Hrc);
        destruct Hcase as [Heq|Heq]; inversion Heq; subst a b;
        first [ rewrite (item_get NaN t' _ _ _ G0); reflexivity
              | rewrite (item_get NaN t' _ _ _ Gm); exact Hm ]. }
  assert (forall a b, fneb (item NaN t a b) (Fin 0) = false ->
            fneb (item NaN t b a) (Fin 0) = false ->
            fneb (item NaN t' a b) (Fin 0) = false) as Hcell.
  { intros a b Hab Hba.
    destruct (decide ((a, b) = (r, c) \/ (a, b) = (c, r))) as [Hcase|Hnot].
    - apply Hpair; assumption.
    - unfold item. rewrite Hframe; [exact Hab| |]; intros Heq; apply Hnot; auto. }
  apply orb_false_iff. split; apply Hcell; assumption.
Qed.

End OrienterCells.

(** C3.  In the orientation loop, for each [i] from 1 to [n - 1] with
    [r = order[i-1]] and [c = order[i]]: if [p[i-1] >= p_rev[i-1]] (a tie
    counts as forward) then [tree[r, c]] becomes
    [max(tree[r, c], tree[c, r])] and [tree[c, r]] becomes 0, and otherwise
    the same with [r] and [c] exchanged, whatever the weights are; and when
    the weights of the tree are numbers [>= 0], after the loop has run over
    an ordering whose consecutive pairs cover every edge of the tree, every
    edge has exactly one nonzero direction. *)
Theorem orienter_one_direction (orders : list nat)
  (segment_p segment_p_reversed : list fval) (tree : ndarray fval) (k : nat) :
  wf tree -> shape0 tree = k -> shape1 tree = k ->
  Forall (fun o => o < k) orders ->
  length orders - 1 <= length segment_p ->
  length orders - 1 <= length segment_p_reversed ->
  (forall i t,
      wf t /\ shape0 t = k /\ shape1 t = k ->
      1 <= i < length orders ->
      exists r c p p_rev x y t',
        orders !! (i - 1) = Some r /\ orders !! i = Some c /\
        segment_p !! (i - 1) = Some p /\
        segment_p_reversed !! (i - 1) = Some p_rev /\
        get t r c = Ok x /\ get t c r = Ok y /\
        orient_body orders segment_p segment_p_reversed i t = Ok t' /\
        (feqb p p_rev = true -> fgeb p p_rev = true) /\
        (r <> c ->
         if fgeb p p_rev
         then get t' r c = Ok (py_max x y) /\ get t' c r = Ok (Fin 0)
         else get t' c r = Ok (py_max x y) /\ get t' r c = Ok (Fin 0))) /\
  (weights_nonnegative tree ->
   exists tree',
     orient orders segment_p segment_p_reversed tree = Ok tree' /\
     ((forall u v, u < k -> v < k -> u <> v -> adjacent tree u v = true ->
                   consecutive orders u v \/ consecutive orders v u) ->
      forall u v, u < k -> v < k -> u <> v -> adjacent tree u v = true ->
                  one_direction tree' u v = true)).
Proof.
  intros W S0 S1 Hord Hp Hpr. split.
  - intros i t Ht Hi.
    destruct (orient_body_cells orders segment_p segment_p_reversed k
                Hord Hp Hpr i t Ht Hi)
      as (r & c & p & p_rev & x & y & t' & Hr & Hc & Ep & Epr & Ex & Ey & E
          & _ & Hdir & _).
    exists r, c, p, p_rev, x, y, t'.
    repeat (split; [assumption|]). split; [apply fgeb_tie|].
    intros Hrc. destruct (fgeb p p_rev); destruct Hdir as [G0 Gm];
      (split; [exact (Gm Hrc)|exact G0]).
  - intros Hnn. apply orient_covered_edges; assumption.
Qed.

Lemma orienter_one_direction_witness :
  exists tree',
    orient [0; 1] [Fin 0] [Fin 0] Tree2 = Ok tree' /\
    one_direction tree' 0 1 = true.
Proof.
  destruct (orienter_one_direction [0; 1] [Fin 0] [Fin 0] Tree2 2)
    as [_ Hloop].
  - apply wf_amap. split; [reflexivity|]. repeat constructor.
  - reflexivity.
  - reflexivity.
  - repeat constructor.
  - simpl. lia.
  - simpl. lia.
  - destruct Hloop as [tree' [E H]].
    { apply weights_rows. simpl. repeat constructor. }
    exists tree'. split; [exact E|]. apply H.
    + intros u v Hu Hv Huv _.
      destruct u as [|[|u]], v as [|[|v]]; try lia.
      * left. exists 0. split; reflexivity.
      * right. exists 0. split; reflexivity.
    + lia.
    + lia.
    + lia.
    + reflexivity.
Defined.

(** C3, refuted as stated: on the tree with the one edge [tree[0, 1] = -1]
    the ordering [0, 1] covers the edge, the maximum of [-1] and [0] written
    to [(0, 1)] is 0, and the edge is left with no nonzero direction. *)
Lemma negative_weight_edge_is_deleted :
  adjacent Tree2_negative 0 1 = true /\
  consecutive [0; 1] 0 1 /\
  exists tree',
    orient [0; 1] [Fin 0] [Fin 0] Tree2_negative = Ok tree' /\
    get tree' 0 1 = Ok (Fin 0) /\ get tree' 1 0 = Ok (Fin 0) /\
    one_direction tree' 0 1 = false.
Proof.
  split; [reflexivity|]. split; [exists 0; split; reflexivity|].
  eexists. split; [vm_compute; reflexivity|].
  split; [reflexivity|]. split; reflexivity.
Qed.

(** X10.  The orientation loop writes only the two cells of each pair of
    consecutive clusters of the ordering: every other cell of the tree is
    returned as it was supplied, and the shape is kept. *)
Theorem orient_keeps_other_cells (orders : list nat)
  (segment_p segment_p_reversed : list fval) (tree : ndarray fval) (k : nat) :
  wf tree -> shape0 tree = k -> shape1 tree = k ->
  Forall (fun o => o < k) orders ->
  length orders - 1 <= length segment_p ->
  length orders - 1 <= length segment_p_reversed ->
  exists tree',
    orient orders segment_p segment_p_reversed tree = Ok tree' /\
    wf tree' /\ shape0 tree' = k /\ shape1 tree' = k /\
    forall a b,
      (forall i r c, orders !! i = Some r -> orders !! S i = Some c ->
                     (a, b) <> (r, c) /\ (a, b) <> (c, r)) ->
      get tree' a b = get tree a b.
Proof.
  intros W S0 S1 Hord Hp Hpr.
  destruct (orient_loop_frame orders segment_p segment_p_reversed k
              Hord Hp Hpr (seq 1 (length orders - 1))) with (t := tree)
    as (tree' & E & (W' & S0' & S1') & Hframe).
  { apply List.Forall_forall. intros i Hi. apply in_seq in Hi. lia. }
  { split; [exact W|]. split; assumption. }
  exists tree'. split; [exact E|]. split; [exact W'|].
  split; [exact S0'|]. split; [exact S1'|].
  intros a b Hoff. apply Hframe.
  intros i r c Hi Hr Hc. apply in_seq in Hi.
  apply (Hoff (i - 1)); [exact Hr|].
  replace (S (i - 1)) with i by lia. exact Hc.
Qed.

Lemma orient_keeps_other_cells_witness :
  exists tree',
    orient [0; 1] [Fin 0] [Fin 0] Tree2 = Ok tree' /\
    wf tree' /\ shape0 tree' = 2 /\ shape1 tree' = 2 /\
    forall a b,
      (forall i r c, [0; 1] !! i = Some r -> [0; 1] !! S i = Some c ->
                     (a, b) <> (r, c) /\ (a, b) <> (c, r)) ->
      get tree' a b = get Tree2 a b.
Proof.
  apply (orient_keeps_other_cells [0; 1] [Fin 0] [Fin 0] Tree2 2).
  - apply wf_amap. split; [reflexivity|]. repeat constructor.
  - reflexivity.
  - reflexivity.
  - repeat constructor.
  - simpl. lia.
  - simpl. lia.
Defined.

(** X11.  The orientation loop never joins two clusters: a pair with no
    edge in either direction in the supplied tree has none in the result. *)
Theorem orient_adds_no_edge (orders : list nat)
  (segment_p segment_p_reversed : list fval) (tree : ndarray fval) (k : nat) :
  wf tree -> shape0 tree = k -> shape1 tree = k ->
  Forall (fun o => o < k) orders ->
  length orders - 1 <= length segment_p ->
  length orders - 1 <= length segment_p_reversed ->
  exists tree',
    orient orders segment_p segment_p_reversed tree = Ok tree' /\
    forall u v, adjacent tree u v = false -> adjacent tree' u v = false.
Proof.
  intros W S0 S1 Hord Hp Hpr.
  assert (wf tree /\ shape0 tree = k /\ shape1 tree = k) as Ht
    by (split; [exact W|split; assumption]).
  destruct (for_each_invariant
              (fun t => wf t /\ shape0 t = k /\ shape1 t = k)
              (orient_body orders segment_p segment_p_reversed)
              (seq 1 (length orders - 1)) tree Ht) as (tree' & E & _).
  { intros i t Hi Hti. apply in_seq in Hi.
    destruct (orient_body_cells orders segment_p segment_p_reversed k
                Hord Hp Hpr i t Hti ltac:(lia))
      as (r & c & p & p_rev & x & y & t' & _ & _ & _ & _ & _ & _ & Eb & Ht'
          & _).
    exists t'. split; [exact Eb|exact Ht']. }
  exists tree'. split; [exact E|].
  intros u v Hadj.
  destruct (for_each_invariant
              (fun t => (wf t /\ shape0 t = k /\ shape1 t = k) /\
                        adjacent t u v = false)
              (orient_body orders segment_p segment_p_reversed)
              (seq 1 (length orders - 1)) tree (conj Ht Hadj))
    as (t2 & E2 & _ & Hres).
  { intros i t Hi [Hti Hai]. apply in_seq in Hi.
    destruct (orient_body_no_new_edge orders segment_p segment_p_reversed k
                Hord Hp Hpr u v i t Hti ltac:(lia) Hai) as (t' & Eb & Ht' & Ha').
    exists t'. split; [exact Eb|]. split; assumption. }
  unfold orient in E. rewrite E in E2. inversion E2. subst t2. exact Hres.
Qed.

Lemma orient_adds_no_edge_witness :
  exists tree',
    orient [0; 1] [Fin 0] [Fin 0] Tree2 = Ok tree' /\
    forall u v, adjacent Tree2 u v = false -> adjacent tree' u v = false.
Proof.
  apply (orient_adds_no_edge [0; 1] [Fin 0] [Fin 0] Tree2 2).
  - apply wf_amap. split; [reflexivity|]. repeat constructor.
  - reflexivity.
  - reflexivity.
  - repeat constructor.
  - simpl. lia.
  - simpl. lia.
Defined.

(** *** An ordering without repetition *)

(** In an ordering without repetition no two passes handle the same pair. *)
Lemma passes_disjoint (orders : list nat) (i j r c r' c' : nat) :
  NoDup orders -> i <> j ->
  orders !! i = Some r -> orders !! S i = Some c ->
  orders !! j = Some r' -> orders !! S j = Some c' ->
  (r, c) <> (r', c') /\ (r, c) <> (c', r') /\
  (c, r) <> (r', c') /\ (c, r) <> (c', r').
Proof.
  intros Hnd Hij Hr Hc Hr' Hc'.
  repeat split; intros Heq; inversion Heq; subst.
  - apply Hij. exact (NoDup_lookup _ _ _ _ Hnd Hr Hr').
  - pose proof (NoDup_lookup _ _ _ _ Hnd Hr Hc').
    pose proof (NoDup_lookup _ _ _ _ Hnd Hc Hr'). lia.
  - pose proof (NoDup_lookup _ _ _ _ Hnd Hr Hc').
    pose proof (NoDup_lookup _ _ _ _ Hnd Hc Hr'). lia.
  - apply Hij. exact (NoDup_lookup _ _ _ _ Hnd Hr Hr').
Qed.

(** X12.  For an ordering without repetition (what [np.argsort] returns)
    the orientation loop is settled pair by pair from the tree as supplied:
    for consecutive clusters [r], [c] at positions [i], [i + 1], the larger
    of the two supplied weights [tree[r, c]], [tree[c, r]] ends on the
    forward cell [(r, c)] when [segment_p[i] >= segment_p_reversed[i]] and on
    the backward cell [(c, r)] otherwise, and the opposite cell ends at 0. *)
Theorem orient_settles_each_pair (orders : list nat)
  (segment_p segment_p_reversed : list fval) (tree : ndarray fval) (k : nat) :
  wf tree -> shape0 tree = k -> shape1 tree = k ->
  Forall (fun o => o < k) orders -> NoDup orders ->
  length orders - 1 <= length segment_p ->
  length orders - 1 <= length segment_p_reversed ->
  exists tree',
    orient orders segment_p segment_p_reversed tree = Ok tree' /\
    forall i r c, orders !! i = Some r -> orders !! S i = Some c ->
      exists p p_rev,
        segment_p !! i = Some p /\ segment_p_reversed !! i = Some p_rev /\
        if fgeb p p_rev
        then get tree' r c = Ok (py_max (item NaN tree r c) (item NaN tree c r))
             /\ get tree' c r = Ok (Fin 0)
        else get tree' c r = Ok (py_max (item NaN tree r c) (item NaN tree c r))
             /\ get tree' r c = Ok (Fin 0).
Proof.
  intros W S0 S1 Hord Hnd Hp Hpr.
  assert (wf tree /\ shape0 tree = k /\ shape1 tree = k) as Ht
    by (split; [exact W|split; assumption]).
  assert (forall a m, Forall (fun i => 1 <= i < length orders) (seq a m) <->
                      (m = 0 \/ (1 <= a /\ a + m <= length orders))) as Hrange.
  { intros a m. rewrite List.Forall_forall. split.
    - intros H. destruct m as [|m]; [left; reflexivity|right].
      pose proof (H a ltac:(apply in_seq; lia)).
      pose proof (H (a + m) ltac:(apply in_seq; lia)). lia.
    - intros [->|H] i Hi; [destruct Hi|]. apply in_seq in Hi. lia. }
  destruct (orient_loop_frame orders segment_p segment_p_reversed k
              Hord Hp Hpr (seq 1 (length orders - 1))) with (t := tree)
    as (tree' & E & _ & _).
  { apply Hrange. lia. }
  { exact Ht. }
  exists tree'. split; [exact E|].
  intros i r c Hr Hc.
  pose proof (lookup_lt_Some _ _ _ Hc) as Hi.
  (* the passes before, at and after position [i + 1] *)
  assert (seq 1 (length orders - 1) =
          seq 1 i ++ [S i] ++ seq (S (S i)) (length orders - 1 - S i)) as Hsplit.
  { replace (length orders - 1) with (i + (1 + (length orders - 1 - S i)))
      at 1 by lia.
    rewrite seq_app, seq_app.
    replace (1 + i + 1) with (S (S i)) by lia. reflexivity. }
  unfold orient in E. rewrite Hsplit, for_each_app in E.
  destruct (orient_loop_frame orders segment_p segment_p_reversed k
              Hord Hp Hpr (seq 1 i)) with (t := tree)
    as (t1 & E1 & Ht1 & Hframe1).
  { apply Hrange. lia. }
  { exact Ht. }
  rewrite E1 in E. cbn [bind for_each app] in E.
  destruct (orient_body_cells orders segment_p segment_p_reversed k
              Hord Hp Hpr (S i) t1 Ht1 ltac:(lia))
    as (r0 & c0 & p & p_rev & x & y & t2 & Hr0 & Hc0 & Ep & Epr & Ex & Ey & E2
        & Ht2 & Hdir & _).
  replace (S i - 1) with i in * by lia.
  assert (r0 = r) as -> by congruence.
  assert (c0 = c) as -> by congruence.
  rewrite E2 in E. cbn [bind] in E.
  destruct (orient_loop_frame orders segment_p segment_p_reversed k
              Hord Hp Hpr (seq (S (S i)) (length orders - 1 - S i)))
    with (t := t2) as (t3 & E3 & _ & Hframe3).
  { apply Hrange. lia. }
  { exact Ht2. }
  rewrite E3 in E. inversion E. subst t3.
  assert (r <> c) as Hrc.
  { intros ->. pose proof (NoDup_lookup _ _ _ _ Hnd Hr Hc). lia. }
  assert (forall its a b,
            (forall j, In j its -> 1 <= j /\ j <> S i) ->
            (a, b) = (r, c) \/ (a, b) = (c, r) ->
            forall j r' c', In j its ->
              orders !! (j - 1) = Some r' -> orders !! j = Some c' ->
              (a, b) <> (r', c') /\ (a, b) <> (c', r')) as Hoff.
  { intros its a b Hits Hab j r' c' Hj Hr' Hc'.
    destruct (Hits j Hj) as [Hj1 Hjne].
    replace j with (S (j - 1)) in Hc' by lia.
    destruct (passes_disjoint orders i (j - 1) r c r' c' Hnd ltac:(lia)
                Hr Hc Hr' Hc') as (D1 & D2 & D3 & D4).
    destruct Hab as [Hab|Hab]; rewrite Hab; split; assumption. }
  assert (forall a b, (a, b) = (r, c) \/ (a, b) = (c, r) ->
            get tree' a b = get t2 a b) as Hafter.
  { intros a b Hab. apply Hframe3. apply (Hoff _ a b); [|exact Hab].
    intros j Hj. apply in_seq in Hj. lia. }
  assert (forall a b, (a, b) = (r, c) \/ (a, b) = (c, r) ->
            get t1 a b = get tree a b) as Hbefore.
  { intros a b Hab. apply Hframe1. apply (Hoff _ a b); [|exact Hab].
    intros j Hj. apply in_seq in Hj. lia. }
  rewrite (Hbefore r c (or_introl eq_refl)) in Ex.
  rewrite (Hbefore c r (or_intror eq_refl)) in Ey.
  rewrite (item_get NaN tree r c x Ex), (item_get NaN tree c r y Ey).
  exists p, p_rev. split; [exact Ep|]. split; [exact Epr|].
  rewrite (Hafter r c (or_introl eq_refl)), (Hafter c r (or_intror eq_refl)).
  destruct (fgeb p p_rev); destruct Hdir as [G0 Gm];
    (split; [exact (Gm Hrc)|exact G0]).
Qed.

Lemma orient_settles_each_pair_witness :
  exists tree',
    orient [0; 1] [Fin 0] [Fin 0] Tree2 = Ok tree' /\
    forall i r c, [0; 1] !! i = Some r -> [0; 1] !! S i = Some c ->
      exists p p_rev,
        [Fin 0] !! i = Some p /\ [Fin 0] !! i = Some p_rev /\
        if fgeb p p_rev
        then get tree' r c = Ok (py_max (item NaN Tree2 r c) (item NaN Tree2 c r))
             /\ get tree' c r = Ok (Fin 0)
        else get tree' c r = Ok (py_max (item NaN Tree2 r c) (item NaN Tree2 c r))
             /\ get tree' r c = Ok (Fin 0).
Proof.
  apply (orient_settles_each_pair [0; 1] [Fin 0] [Fin 0] Tree2 2).
  - apply wf_amap. split; [reflexivity|]. repeat constructor.
  - reflexivity.
  - reflexivity.
  - repeat constructor.
  - apply NoDup_cons. split; [|apply NoDup_singleton].
    intros H. apply list_elem_of_In in H. simpl in H.
    destruct H as [H|[]]. discriminate H.
  - simpl. lia.
  - simpl. lia.
Defined.

(** ** The orienter as a whole: too short an ordering *)

(** X13.  [construct_velocity_tree] needs at least two clusters in the
    ordering: on valid inputs with an ordering of length 0 or 1 the
    aggregator runs, the evaluator then fails with [IndexError], and the
    tree is not returned. *)
Theorem construct_velocity_tree_short_ordering (ln : Q -> Q)
  (T R : ndarray Q) (orders : list nat) (tree : ndarray fval) :
  valid_input T R -> length orders < 2 ->
  construct_velocity_tree ln T R orders tree = Raise IndexError.
Proof.
  intros Hv Hlen.
  destruct (raw_stage_ok T R Hv)
    as (hp & asg & tr & totals & _ & _ & _ & EM & _).
  unfold construct_velocity_tree. rewrite EM. cbn [bind].
  unfold _calculate_segment_probability.
  destruct orders as [|o0 [|o1 rest]]; simpl in *; [reflexivity|reflexivity|lia].
Qed.

Lemma construct_velocity_tree_short_ordering_witness :
  construct_velocity_tree ln_affine T3 I3 [0] Tree2 = Raise IndexError.
Proof.
  apply construct_velocity_tree_short_ordering; [exact valid_T3_I3|simpl; lia].
Defined.

(** ** The angle helper: what the components are *)

Section AngleComponents.

Local Open Scope R_scope.

Local Abbreviation squares v := (fold_right (fun x acc => x * x + acc) 0 v).

Lemma squares_nonneg (v : list R) : 0 <= squares v.
Proof.
  induction v as [|x v IH]; simpl; [lra|].
  pose proof (Rle_0_sqr x) as Hx. unfold Rsqr in Hx. lra.
Qed.

Lemma square_le_squares (v : list R) (i : nat) (a : R) :
  v !! i = Some a -> a * a <= squares v.
Proof.
  revert i. induction v as [|x v IH]; intros i H; [discriminate|].
  destruct i as [|i]; simpl in H; simpl.
  - inversion H. subst x. pose proof (squares_nonneg v). lra.
  - specialize (IH i H). pose proof (Rle_0_sqr x) as Hx. unfold Rsqr in Hx.
    lra.
Qed.

Lemma component_le_norm (v : list R) (i : nat) (a : R) :
  v !! i = Some a -> Rabs a <= norm v.
Proof.
  intros H. unfold norm. rewrite <- sqrt_Rsqr_abs.
  apply sqrt_le_1_alt. unfold Rsqr. exact (square_le_squares v i a H).
Qed.

Lemma unit_component (v : list R) (i : nat) (a : R) :
  norm v <> 0 -> v !! i = Some a -> -1 <= a / norm v <= 1.
Proof.
  intros Hn H.
  assert (0 < norm v) as Hpos.
  { pose proof (sqrt_pos (squares v)) as Hs. unfold norm in *. lra. }
  pose proof (component_le_norm v i a H) as Hle.
  assert (- norm v <= a <= norm v) as Hbetween
    by (unfold Rabs in Hle; destruct (Rcase_abs a); lra).
  split.
  - apply Rmult_le_reg_r with (norm v); [exact Hpos|].
    unfold Rdiv. rewrite Rmult_assoc, Rinv_l by exact Hn. lra.
  - apply Rmult_le_reg_r with (norm v); [exact Hpos|].
    unfold Rdiv. rewrite Rmult_assoc, Rinv_l by exact Hn. lra.
Qed.

Lemma unit_product (u v : R) :
  -1 <= u <= 1 -> -1 <= v <= 1 -> -1 <= u * v <= 1.
Proof. intros Hu Hv. split; nra. Qed.





End AngleComponents.



(** X14.  With nonzero difference vectors every value that
    [calculate_angle] returns is a proper angle: the product given to
    [arccos] lies in [-1, 1], the value lies in [0, pi], and its cosine is
    the product of the two unit vectors at that coordinate. *)
Theorem calculate_angle_components (o y x : list R) (d : nat) :
  length o = d -> length y = d -> length x = d ->
  norm (vsub y o) <> 0%R -> norm (vsub x o) <> 0%R ->
  forall i, i < d ->
    exists u v a,
      vdiv (vsub y o) (norm (vsub y o)) !! i = Some u /\
      vdiv (vsub x o) (norm (vsub x o)) !! i = Some v /\
      calculate_angle o y x !! i = Some a /\
      (-1 <= u * v <= 1)%R /\ (0 <= a <= PI)%R /\ cos a = (u * v)%R.
Proof.
  intros Ho Hy Hx Hny Hnx i Hi.
  destruct (lookup_lt_is_Some_2 o i) as [oi Hoi]; [lia|].
  destruct (lookup_lt_is_Some_2 y i) as [yi Hyi]; [lia|].
  destruct (lookup_lt_is_Some_2 x i) as [xi Hxi]; [lia|].
  pose proof (lookup_vsub y o i yi oi Hyi Hoi) as Hyo.
  pose proof (lookup_vsub x o i xi oi Hxi Hoi) as Hxo.
  pose proof (unit_component _ i _ Hny Hyo) as Hu.
  pose proof (unit_component _ i _ Hnx Hxo) as Hv.
  pose proof (unit_product _ _ Hu Hv) as Huv.
  exists ((yi - oi) / norm (vsub y o))%R, ((xi - oi) / norm (vsub x o))%R.
  eexists.
  split; [exact (lookup_vdiv _ _ i _ Hyo)|].
  split; [exact (lookup_vdiv _ _ i _ Hxo)|].
  split.
  { unfold calculate_angle. rewrite lookup_map, lookup_zip_with.
    rewrite (lookup_vdiv _ _ i _ Hyo), (lookup_vdiv _ _ i _ Hxo).
    reflexivity. }
  split; [exact Huv|]. split.
  - apply acos_bound.
  - apply cos_acos; apply Huv.
Qed.

Lemma calculate_angle_components_witness :
  exists u v a,
    vdiv (vsub [1; 0]%R [0; 0]%R) (norm (vsub [1; 0]%R [0; 0]%R)) !! 1
      = Some u /\
    vdiv (vsub [1; 0]%R [0; 0]%R) (norm (vsub [1; 0]%R [0; 0]%R)) !! 1
      = Some v /\
    calculate_angle [0; 0]%R [1; 0]%R [1; 0]%R !! 1 = Some a /\
    (-1 <= u * v <= 1)%R /\ (0 <= a <= PI)%R /\ cos a = (u * v)%R.
Proof.
  apply (calculate_angle_components [0; 0]%R [1; 0]%R [1; 0]%R 2).
  - reflexivity.
  - reflexivity.
  - reflexivity.
  - change (vsub [1; 0] [0; 0])%R with [1 - 0; 0 - 0]%R. rewrite norm_e1. lra.
  - change (vsub [1; 0] [0; 0])%R with [1 - 0; 0 - 0]%R. rewrite norm_e1. lra.
  - lia.
Defined.



(** ** Branch direction voter: what the voter returns *)

Lemma voter_stops_at_first_branch (valid_idx_of : nat -> list nat)
  (angle_deg : nat -> nat -> result fval) (n : nat) (path : list nat)
  (rest : list (list nat)) :
  exists e, vote_branches valid_idx_of angle_deg n (path :: rest) = Raise e.
Proof.
  unfold vote_branches. cbn [for_each].
  destruct path as [|u path].
  - exists IndexError. reflexivity.
  - exists TypeError. rewrite tally_nonempty. reflexivity.
Qed.

(** X16.  As it is written the voter orients nothing.  On every branch with
    at least one node the vote loop fails with [TypeError] at its first
    statement, [u = path(bp)]; on an empty branch the report fails with
    [IndexError]; so [dG] is returned only when there is no branch at all,
    and is then the zero matrix. *)
Theorem voter_returns_for_no_branch (valid_idx_of : nat -> list nat)
  (angle_deg : nat -> nat -> result fval) (n : nat)
  (branch_cell : list (list nat)) (dG : ndarray fval) :
  vote_branches valid_idx_of angle_deg n branch_cell = Ok dG ->
  branch_cell = [] /\ dG = full n n (Fin 0) /\
  (forall u path rest,
     tally valid_idx_of angle_deg (u :: path) = Raise TypeError /\
     vote_branches valid_idx_of angle_deg n ((u :: path) :: rest)
       = Raise TypeError) /\
  (forall rest,
     vote_branches valid_idx_of angle_deg n ([] :: rest) = Raise IndexError).
Proof.
  intros E. destruct branch_cell as [|path rest].
  - split; [reflexivity|]. split.
    + unfold vote_branches in E. simpl in E. inversion E. reflexivity.
    + split.
      * intros u path rest. split; [apply tally_nonempty|].
        unfold vote_branches. cbn [for_each]. rewrite tally_nonempty.
        reflexivity.
      * intros rest. reflexivity.
  - destruct (voter_stops_at_first_branch valid_idx_of angle_deg n path rest)
      as [e He].
    rewrite He in E. discriminate.
Qed.

Lemma voter_returns_for_no_branch_witness :
  ([] : list (list nat)) = [] /\ full 3 3 (Fin 0) = full 3 3 (Fin 0) /\
  vote_branches (fun _ => [0]) (fun _ _ => Ok (Fin 0)) 3 [[0; 1]]
    = Raise TypeError.
Proof.
  destruct (voter_returns_for_no_branch (fun _ => [0]) (fun _ _ => Ok (Fin 0))
              3 [] (full 3 3 (Fin 0)) eq_refl) as (H1 & H2 & H3 & _).
  split; [exact H1|]. split; [exact H2|]. apply (H3 0 [1] []).
Defined.

(** ** The edge list of the contracted graph *)

Section EdgeListFacts.

Variable sG : ndarray fval.
Hypothesis sG_wf : wf sG.
Hypothesis two_rows : 2 <= shape0 sG.

(** The nonzero cells among a list of cells, in the order of the list. *)
Local Abbreviation nonzero cells :=
  (List.filter (fun ij : nat * nat =>
                  fneb (item NaN sG (fst ij) (snd ij)) (Fin 0)) cells).

Local Abbreviation extended st cells :=
  (fst (fst st) ++ map fst (nonzero cells),
   snd (fst st) ++ map snd (nonzero cells),
   snd st ++ map (fun ij : nat * nat => item NaN sG 1 (snd ij)) (nonzero cells)).

Lemma edge_inner_loop (i : nat) (js : list nat) :
  i < shape0 sG -> Forall (fun j => j < shape1 sG) js ->
  forall st,
    for_each (edge_body sG i) js st = Ok (extended st (map (pair i) js)).
Proof.
  intros Hi. induction js as [|j js IH]; intros Hjs st.
  - simpl. rewrite !app_nil_r. destruct st as [[row col] val]. reflexivity.
  - apply Forall_cons in Hjs. destruct Hjs as [Hj Hjs].
    destruct (get_lt sG i j sG_wf Hi Hj) as [x Ex].
    destruct (get_lt sG 1 j sG_wf ltac:(lia) Hj) as [v Ev].
    cbn [for_each map List.filter fst snd]. unfold edge_body at 1.
    rewrite Ex. cbn [bind]. rewrite (item_get NaN sG i j x Ex).
    destruct (fneb x (Fin 0)).
    + rewrite Ev. cbn [bind]. rewrite (IH Hjs).
      cbn [fst snd map]. rewrite (item_get NaN sG 1 j v Ev).
      rewrite <- !app_assoc. reflexivity.
    + cbn [bind]. apply (IH Hjs).
Qed.

Lemma edge_outer_loop (is_ : list nat) :
  Forall (fun i => i < shape0 sG) is_ ->
  forall st,
    for_each
      (fun i st => for_each (edge_body sG i) (seq 0 (shape1 sG)) st) is_ st
    = Ok (extended st (list_prod is_ (seq 0 (shape1 sG)))).
Proof.
  induction is_ as [|i is_ IH]; intros His st.
  - simpl. rewrite !app_nil_r. destruct st as [[row col] val]. reflexivity.
  - apply Forall_cons in His. destruct His as [Hi His].
    cbn [for_each list_prod]. rewrite (edge_inner_loop i); [|exact Hi|].
    + cbn [bind]. rewrite (IH His). cbn [fst snd].
      rewrite List.filter_app, !map_app, <- !app_assoc. reflexivity.
    + apply List.Forall_forall. intros j Hj. apply in_seq in Hj. lia.
Qed.

End EdgeListFacts.

(** X18.  The lists built from the contracted graph: [row] and [col] name
    exactly the nonzero cells, row by row and left to right, and [val]
    holds for each of them the entry of row 1 in the cell's column, not the
    entry of the cell itself. *)
Theorem edge_lists_cells (sG : ndarray fval) :
  wf sG -> 2 <= shape0 sG ->
  edge_lists sG =
  Ok (map fst
        (List.filter (fun ij : nat * nat =>
                        fneb (item NaN sG (fst ij) (snd ij)) (Fin 0))
           (list_prod (seq 0 (shape0 sG)) (seq 0 (shape1 sG)))),
      map snd
        (List.filter (fun ij : nat * nat =>
                        fneb (item NaN sG (fst ij) (snd ij)) (Fin 0))
           (list_prod (seq 0 (shape0 sG)) (seq 0 (shape1 sG)))),
      map (fun ij : nat * nat => item NaN sG 1 (snd ij))
        (List.filter (fun ij : nat * nat =>
                        fneb (item NaN sG (fst ij) (snd ij)) (Fin 0))
           (list_prod (seq 0 (shape0 sG)) (seq 0 (shape1 sG))))).
Proof.
  intros W H2. unfold edge_lists.
  rewrite (edge_outer_loop sG W H2); [reflexivity|].
  apply List.Forall_forall. intros i Hi. apply in_seq in Hi. lia.
Qed.

Lemma edge_lists_cells_witness :
  edge_lists Tree2 = Ok ([0; 1], [1; 0], [Fin 0; Fin 1]).
Proof.
  rewrite (edge_lists_cells Tree2).
  - reflexivity.
  - apply wf_amap. split; [reflexivity|]. repeat constructor.
  - simpl. lia.
Defined.

(** ** Moments by stratum *)

Section StratifyFacts.

Context {key : Type} `{EqDecision key}.
Variable leb : key -> key -> bool.
Variable eqb : key -> key -> bool.

Lemma insert_sorted_Permutation (x : key) (l : list key) :
  Permutation (insert_sorted leb x l) (x :: l).
Proof.
  induction l as [|y t IH]; simpl; [reflexivity|].
  destruct (leb x y); [reflexivity|].
  rewrite IH. apply perm_swap.
Qed.

Lemma np_unique_Permutation (strata : list key) :
  Permutation (np_unique leb strata) (remove_dups strata).
Proof.
  unfold np_unique. induction (remove_dups strata) as [|x l IH]; simpl;
    [reflexivity|].
  rewrite insert_sorted_Permutation, IH. reflexivity.
Qed.

Lemma np_unique_NoDup (strata : list key) : NoDup (np_unique leb strata).
Proof.
  rewrite np_unique_Permutation. apply NoDup_remove_dups.
Qed.

Lemma np_unique_In (strata : list key) (v : key) :
  In v (np_unique leb strata) <-> In v strata.
Proof.
  rewrite <- !list_elem_of_In, np_unique_Permutation.
  apply elem_of_remove_dups.
Qed.

Context {A : Type}.

(** The elements of [arr] whose stratum is [v], in the order of [arr]. *)
Local Abbreviation members arr strata v :=
  (map fst (List.filter (fun xt : A * key => bool_decide (snd xt = v))
              (zip arr strata))).

Lemma mask_of_stratum (arr : list A) (strata : list key) (v : key) :
  map fst (List.filter snd
             (zip arr (map (fun t => bool_decide (t = v)) strata))) =
  members arr strata v.
Proof.
  revert strata. induction arr as [|x arr IH]; intros [|t strata]; simpl;
    try reflexivity.
  destruct (bool_decide (t = v)); simpl; rewrite IH; reflexivity.
Qed.

Lemma mask_select_stratum (arr : list A) (strata : list key) (v : key) :
  length arr = length strata ->
  mask_select arr (map (fun t => bool_decide (t = v)) strata) =
  Ok (members arr strata v).
Proof.
  intros Hlen. unfold mask_select. rewrite length_map, Hlen, Nat.eqb_refl.
  rewrite mask_of_stratum. reflexivity.
Qed.

Lemma members_nonempty (arr : list A) (strata : list key) (v : key) :
  length arr = length strata -> In v strata -> members arr strata v <> [].
Proof.
  revert strata. induction arr as [|x arr IH]; intros [|t strata] Hlen Hin;
    simpl in *; try discriminate; [destruct Hin|].
  destruct (bool_decide (t = v)) eqn:E; simpl; [discriminate|].
  apply IH; [lia|]. destruct Hin as [->|Hin]; [|exact Hin].
  apply bool_decide_eq_false in E. congruence.
Qed.

(** Where [==] on the labels present is being the same value, the mask of
    a label is the mask of the places that carry it. *)
Lemma mask_by_eqb (strata : list key) (v : key) :
  (forall t w, In t strata -> (eqb t w = true <-> t = w)) ->
  map (fun t => eqb t v) strata = map (fun t => bool_decide (t = v)) strata.
Proof.
  intros Heq. apply map_ext_in. intros t Ht.
  destruct (bool_decide (t = v)) eqn:E.
  - apply bool_decide_eq_true in E. apply (Heq t v Ht). exact E.
  - apply bool_decide_eq_false in E.
    destruct (eqb t v) eqn:E'; [|reflexivity].
    exfalso. apply E. apply (Heq t v Ht). exact E'.
Qed.

Lemma stratify_Ok (arr : list A) (strata : list key) :
  length arr = length strata ->
  (forall t w, In t strata -> (eqb t w = true <-> t = w)) ->
  stratify leb eqb arr strata =
  Ok (map (fun v => members arr strata v) (np_unique leb strata)).
Proof.
  intros Hlen Heq. unfold stratify.
  induction (np_unique leb strata) as [|v s IH]; simpl; [reflexivity|].
  rewrite (mask_by_eqb strata v Heq).
  rewrite (mask_select_stratum arr strata v Hlen). cbn [bind].
  rewrite IH. reflexivity.
Qed.

(** One more element in one stratum is one more element in all. *)
Lemma concat_one_more (G : key -> list A) (x : A) (t : key) (ks : list key) :
  NoDup ks -> In t ks ->
  Permutation
    (concat (map (fun v => if bool_decide (t = v) then x :: G v else G v) ks))
    (x :: concat (map G ks)).
Proof.
  induction ks as [|k ks IH]; intros Hnd Hin; [destruct Hin|].
  apply NoDup_cons in Hnd. destruct Hnd as [Hk Hnd]. simpl.
  destruct (bool_decide (t = k)) eqn:E.
  - apply bool_decide_eq_true in E. subst k.
    assert (map (fun v => if bool_decide (t = v) then x :: G v else G v) ks
            = map G ks) as ->; [|reflexivity].
    apply map_ext_in. intros v Hv.
    destruct (bool_decide (t = v)) eqn:Ev; [|reflexivity].
    apply bool_decide_eq_true in Ev. subst v.
    exfalso. apply Hk. apply list_elem_of_In. exact Hv.
  - apply bool_decide_eq_false in E.
    destruct Hin as [->|Hin]; [congruence|].
    rewrite (IH Hnd Hin). symmetry. apply Permutation_middle.
Qed.

Lemma members_partition (l : list (A * key)) (ks : list key) :
  NoDup ks -> (forall xt, In xt l -> In (snd xt) ks) ->
  Permutation
    (concat (map (fun v =>
                    map fst (List.filter
                               (fun xt : A * key => bool_decide (snd xt = v)) l))
                 ks))
    (map fst l).
Proof.
  intros Hnd. induction l as [|[x t] l IH]; intros Hcov.
  - simpl. clear Hnd Hcov.
    induction ks as [|k ks IHk]; simpl; [reflexivity|exact IHk].
  - simpl.
    rewrite <- (IH (fun xt Hin => Hcov xt (or_intror Hin))).
    rewrite <- (concat_one_more _ x t ks Hnd (Hcov (x, t) (or_introl eq_refl))).
    assert (forall v,
              map fst (if bool_decide (t = v)
                       then (x, t) :: List.filter
                              (fun xt : A * key => bool_decide (snd xt = v)) l
                       else List.filter
                              (fun xt : A * key => bool_decide (snd xt = v)) l)
              = if bool_decide (t = v)
                then x :: map fst (List.filter
                              (fun xt : A * key => bool_decide (snd xt = v)) l)
                else map fst (List.filter
                              (fun xt : A * key => bool_decide (snd xt = v)) l))
      as Hcase by (intros v; destruct (bool_decide (t = v)); reflexivity).
    rewrite (map_ext _ _ Hcase). reflexivity.
Qed.

Lemma stratify_concat (arr : list A) (strata : list key) :
  length arr = length strata ->
  Permutation
    (concat (map (fun v => members arr strata v) (np_unique leb strata))) arr.
Proof.
  intros Hlen.
  rewrite (members_partition (zip arr strata) (np_unique leb strata)).
  - rewrite fst_zip by lia. reflexivity.
  - apply np_unique_NoDup.
  - intros [x t] Hin. apply np_unique_In. simpl.
    apply list_elem_of_In in Hin. apply elem_of_zip_r in Hin.
    apply list_elem_of_In. exact Hin.
Qed.

End StratifyFacts.

(** X19.  For an array and stratum labels of one length, where [==] on the
    labels is being the same value (so that no label is [nan]), [stratify]
    returns one group per distinct label, in the order of [np.unique]; the
    group of a label holds the elements carrying that label, in their order
    in the array, and no group is empty. *)
Theorem stratify_groups {key : Type} `{EqDecision key}
  (leb eqb : key -> key -> bool) {A : Type} (arr : list A)
  (strata : list key) :
  length arr = length strata ->
  (forall t w, In t strata -> (eqb t w = true <-> t = w)) ->
  exists groups,
    stratify leb eqb arr strata = Ok groups /\
    NoDup (np_unique leb strata) /\
    (forall v, In v (np_unique leb strata) <-> In v strata) /\
    Forall2
      (fun v g =>
         g = map fst (List.filter (fun xt : A * key => bool_decide (snd xt = v))
                        (zip arr strata)) /\
         g <> [])
      (np_unique leb strata) groups.
Proof.
  intros Hlen Heq.
  eexists. split; [exact (stratify_Ok leb eqb arr strata Hlen Heq)|].
  split; [apply np_unique_NoDup|]. split; [apply np_unique_In|].
  apply Forall2_fmap_r. apply Forall_Forall2_diag.
  apply List.Forall_forall. intros v Hv. split; [reflexivity|].
  apply members_nonempty; [exact Hlen|]. apply np_unique_In in Hv. exact Hv.
Qed.

Lemma nat_labels (strata : list nat) :
  forall t w, In t strata -> (Nat.eqb t w = true <-> t = w).
Proof. intros t w _. apply Nat.eqb_eq. Qed.

Lemma stratify_groups_witness :
  exists groups,
    stratify Nat.leb Nat.eqb [10; 20; 30; 40]%Z [2; 1; 2; 1] = Ok groups /\
    NoDup (np_unique Nat.leb [2; 1; 2; 1]) /\
    (forall v, In v (np_unique Nat.leb [2; 1; 2; 1]) <-> In v [2; 1; 2; 1]) /\
    Forall2
      (fun v g =>
         g = map fst (List.filter (fun xt : Z * nat => bool_decide (snd xt = v))
                        (zip [10; 20; 30; 40]%Z [2; 1; 2; 1])) /\
         g <> [])
      (np_unique Nat.leb [2; 1; 2; 1]) groups.
Proof.
  apply (stratify_groups Nat.leb Nat.eqb [10; 20; 30; 40]%Z [2; 1; 2; 1]).
  - reflexivity.
  - apply nat_labels.
Defined.

(** X20.  [stratify] loses and repeats nothing: for an array and labels of
    one length, where [==] on the labels is being the same value (no [nan]
    label), the groups put one after the other are a rearrangement of the
    array. *)
Theorem stratify_partition {key : Type} `{EqDecision key}
  (leb eqb : key -> key -> bool) {A : Type} (arr : list A)
  (strata : list key) :
  length arr = length strata ->
  (forall t w, In t strata -> (eqb t w = true <-> t = w)) ->
  exists groups,
    stratify leb eqb arr strata = Ok groups /\
    Permutation (concat groups) arr.
Proof.
  intros Hlen Heq.
  eexists. split; [exact (stratify_Ok leb eqb arr strata Hlen Heq)|].
  apply stratify_concat. exact Hlen.
Qed.

Lemma stratify_partition_witness :
  exists groups,
    stratify Nat.leb Nat.eqb [10; 20; 30; 40]%Z [2; 1; 2; 1] = Ok groups /\
    Permutation (concat groups) [10; 20; 30; 40]%Z.
Proof.
  apply (stratify_partition Nat.leb Nat.eqb [10; 20; 30; 40]%Z [2; 1; 2; 1]).
  - reflexivity.
  - apply nat_labels.
Defined.

(** X21.  [stratify] fails with [IndexError] when there are labels and the
    array has not as many elements as there are labels: the first mask
    does not fit the array. *)
Theorem stratify_length_mismatch {key : Type} `{EqDecision key}
  (leb eqb : key -> key -> bool) {A : Type} (arr : list A)
  (strata : list key) :
  strata <> [] -> length arr <> length strata ->
  stratify leb eqb arr strata = Raise IndexError.
Proof.
  intros Hne Hlen. unfold stratify.
  destruct (np_unique leb strata) as [|v s] eqn:Es.
  - exfalso. destruct strata as [|t strata]; [congruence|].
    assert (In t (np_unique leb (t :: strata))) as Hin
      by (apply np_unique_In; left; reflexivity).
    rewrite Es in Hin. destruct Hin.
  - simpl. unfold mask_select. rewrite length_map.
    destruct (Nat.eqb_spec (length strata) (length arr)) as [Heq|_];
      [congruence|reflexivity].
Qed.

Lemma stratify_length_mismatch_witness :
  stratify Nat.leb Nat.eqb [10; 20; 30]%Z [2; 1] = Raise IndexError.
Proof.
  apply stratify_length_mismatch; [discriminate|simpl; lia].
Defined.

(** *** Means by stratum *)

Lemma np_sum_Permutation (l1 l2 : list Q) :
  Permutation l1 l2 -> (np_sum l1 == np_sum l2)%Q.
Proof.
  induction 1 as [|x l l' _ IH|x y l|l l' l'' _ IH1 _ IH2].
  - reflexivity.
  - rewrite !np_sum_cons, IH. reflexivity.
  - rewrite !np_sum_cons. ring.
  - rewrite IH1. exact IH2.
Qed.

Lemma np_sum_concat (gs : list (list Q)) :
  (np_sum (concat gs) == np_sum (map np_sum gs))%Q.
Proof.
  induction gs as [|g gs IH]; simpl; [reflexivity|].
  rewrite np_sum_app, np_sum_cons, IH. reflexivity.
Qed.

Lemma size_nonzero {A} (g : list A) :
  g <> [] -> ~ (inject_Z (Z.of_nat (length g)) == 0)%Q.
Proof.
  intros Hne Hz. destruct g as [|x g]; [congruence|].
  unfold Qeq in Hz. simpl in Hz. lia.
Qed.

(** The mean of a nonempty array is a number. *)
Lemma np_mean_nonempty (g : list Q) :
  g <> [] ->
  np_mean g = Fin (np_sum g / inject_Z (Z.of_nat (length g))).
Proof.
  intros Hne. unfold np_mean, fdiv.
  destruct (Qeq_bool (inject_Z (Z.of_nat (length g))) 0) eqn:E; [|reflexivity].
  apply Qeq_bool_eq in E. exfalso. exact (size_nonzero g Hne E).
Qed.

(** X22.  The means by stratum, [strat_mom(arr, strata, np.mean)], for an
    array of numbers and labels of one length, in exact arithmetic (the
    rounding and the overflow of the doubles aside) and where [==] on the
    labels is being the same value (no [nan] label): no group is empty, so
    no mean is the [nan] of an empty slice, each mean is the sum of its
    group divided by its size, and the means weighted by the sizes of
    their groups add up to the sum of the whole array. *)
Theorem strat_mom_mean {key : Type} `{EqDecision key}
  (leb eqb : key -> key -> bool) (arr : list Q) (strata : list key) :
  length arr = length strata ->
  (forall t w, In t strata -> (eqb t w = true <-> t = w)) ->
  exists groups means,
    stratify leb eqb arr strata = Ok groups /\
    strat_mom leb eqb arr strata np_mean = Ok (map Fin means) /\
    Forall (fun g => g <> []) groups /\
    means = map (fun g => np_sum g / inject_Z (Z.of_nat (length g)))%Q groups /\
    (np_sum (zip_with (fun g m => inject_Z (Z.of_nat (length g)) * m)
               groups means) == np_sum arr)%Q.
Proof.
  intros Hlen Heq.
  pose proof (stratify_Ok leb eqb arr strata Hlen Heq) as E.
  set (groups := map _ (np_unique leb strata)) in E.
  assert (Forall (fun g => g <> []) groups) as Hne.
  { apply List.Forall_forall. intros g Hg. apply in_map_iff in Hg.
    destruct Hg as (v & <- & Hv).
    apply members_nonempty; [exact Hlen|]. apply np_unique_In in Hv. exact Hv. }
  assert (Permutation (concat groups) arr) as Hperm
    by (apply (stratify_concat leb); exact Hlen).
  exists groups,
    (map (fun g => np_sum g / inject_Z (Z.of_nat (length g)))%Q groups).
  split; [exact E|]. split; [|split; [exact Hne|split; [reflexivity|]]].
  - unfold strat_mom. rewrite E. cbn [bind]. f_equal.
    rewrite map_map. apply map_ext_in. intros g Hg.
    apply np_mean_nonempty.
    exact (proj1 (List.Forall_forall _ _) Hne g Hg).
  - rewrite <- (np_sum_Permutation _ _ Hperm), np_sum_concat.
    clear E Hperm. induction groups as [|g gs IH]; [reflexivity|].
    apply Forall_cons in Hne. destruct Hne as [Hg Hgs].
    cbn [map zip_with]. rewrite !np_sum_cons, (IH Hgs).
    apply Qplus_comp; [|reflexivity].
    field. exact (size_nonzero g Hg).
Qed.

Lemma strat_mom_mean_witness :
  exists groups means,
    stratify Nat.leb Nat.eqb [1; 2; 3; 6]%Q [2; 1; 2; 1] = Ok groups /\
    strat_mom Nat.leb Nat.eqb [1; 2; 3; 6]%Q [2; 1; 2; 1] np_mean
      = Ok (map Fin means) /\
    Forall (fun g => g <> []) groups /\
    means = map (fun g => np_sum g / inject_Z (Z.of_nat (length g)))%Q groups /\
    (np_sum (zip_with (fun g m => inject_Z (Z.of_nat (length g)) * m)
               groups means) == np_sum [1; 2; 3; 6])%Q.
Proof.
  apply (strat_mom_mean Nat.leb Nat.eqb [1; 2; 3; 6]%Q [2; 1; 2; 1]).
  - reflexivity.
  - apply nat_labels.
Defined.

(** ** First moments *)

Section MomentFacts.

(** A matrix of numbers: [n] by [m], the entry [(i, j)] equal to [f i j]. *)
Local Abbreviation entries M n m f :=
  (wf M /\ shape0 M = n%nat /\ shape1 M = m%nat /\
   forall i j, i < n -> j < m ->
     exists q, get M i j = Ok (Fin q) /\ (q == f i j)%Q).

Lemma fsum_entries (h : nat -> fval) (f : nat -> Q) (ks : list nat) :
  (forall k, In k ks -> exists q, h k = Fin q /\ (q == f k)%Q) ->
  forall acc,
    exists s, fold_left fadd (map h ks) (Fin acc) = Fin s /\
              (s == acc + np_sum (map f ks))%Q.
Proof.
  induction ks as [|k ks IH]; intros Hh acc.
  - exists acc. split; [reflexivity|]. unfold np_sum. simpl. ring.
  - destruct (Hh k (or_introl eq_refl)) as (q & Hq & Hqf).
    destruct (IH (fun k' Hin => Hh k' (or_intror Hin)) (acc + q)%Q)
      as (s & Es & Hs).
    exists s. cbn [map fold_left]. rewrite Hq. cbn [fadd].
    split; [exact Es|]. rewrite Hs. cbn [map]. rewrite np_sum_cons, Hqf. ring.
Qed.

Lemma entries_amap (Mq : ndarray Q) (n m : nat) :
  wf Mq -> shape0 Mq = n -> shape1 Mq = m ->
  entries (amap Fin Mq) n m (fun i j => item 0%Q Mq i j).
Proof.
  intros W S0 S1. split; [apply wf_amap; exact W|].
  split; [exact S0|]. split; [exact S1|].
  intros i j Hi Hj. destruct (get_lt Mq i j W) as [x Ex]; [lia|lia|].
  exists x. rewrite get_amap, Ex. split; [reflexivity|].
  rewrite (item_get 0%Q Mq i j x Ex). reflexivity.
Qed.

Lemma matmul_entries (A B : ndarray fval) (n m p : nat)
  (f g : nat -> nat -> Q) :
  entries A n m f -> entries B m p g ->
  exists C,
    matmul A B = Ok C /\
    entries C n p (fun i j => np_sum (map (fun k => f i k * g k j)%Q (seq 0 m))).
Proof.
  intros (WA & A0 & A1 & HA) (WB & B0 & B1 & HB).
  unfold matmul. rewrite A1, B0, Nat.eqb_refl, A0, B1.
  eexists. split; [reflexivity|].
  split; [apply wf_tabulate|]. split; [reflexivity|]. split; [reflexivity|].
  intros i j Hi Hj. rewrite get_tabulate by assumption.
  destruct (fsum_entries
              (fun k => fmul (item NaN A i k) (item NaN B k j))
              (fun k => f i k * g k j)%Q (seq 0 m)) with (acc := 0%Q)
    as (s & Es & Hs).
  { intros k Hk. apply in_seq in Hk.
    destruct (HA i k Hi ltac:(lia)) as (a & Ga & Ha).
    destruct (HB k j ltac:(lia) Hj) as (b & Gb & Hb).
    exists (a * b)%Q.
    rewrite (item_get NaN A i k _ Ga), (item_get NaN B k j _ Gb).
    split; [reflexivity|]. rewrite Ha, Hb. reflexivity. }
  exists s. split; [f_equal; exact Es|]. rewrite Hs. ring.
Qed.

Lemma diag_entries (v : list fval) (d : nat -> Q) :
  (forall i, i < length v -> exists q, v !! i = Some (Fin q) /\ (q == d i)%Q) ->
  entries (np_diag v) (length v) (length v)
    (fun i j => if i =? j then d i else 0%Q).
Proof.
  intros Hv. unfold np_diag.
  split; [apply wf_tabulate|]. split; [reflexivity|]. split; [reflexivity|].
  intros i j Hi Hj. rewrite get_tabulate by assumption.
  destruct (i =? j).
  - destruct (Hv i Hi) as (q & Hq & Hqd). exists q.
    rewrite (nth_lookup_Some _ _ NaN _ Hq). split; [reflexivity|exact Hqd].
  - exists 0%Q. split; reflexivity.
Qed.

(** A sum in which one term only is not 0. *)
Lemma np_sum_single (a : Q) (f : nat -> Q) (i s n : nat) :
  (np_sum (map (fun k => (if i =? k then a else 0) * f k)%Q (seq s n)) ==
   if (s <=? i) && (i <? s + n) then a * f i else 0)%Q.
Proof.
  revert s. induction n as [|n IH]; intros s.
  - simpl. replace (i <? s + 0) with (i <? s) by (f_equal; lia).
    destruct (Nat.leb_spec s i), (Nat.ltb_spec i s); try lia; reflexivity.
  - cbn [seq map]. rewrite np_sum_cons, IH.
    destruct (Nat.eqb_spec i s) as [->|Hne].
    + replace (S s <=? s) with false by (symmetry; apply Nat.leb_gt; lia).
      replace (s <=? s) with true by (symmetry; apply Nat.leb_le; lia).
      replace (s <? s + S n) with true by (symmetry; apply Nat.ltb_lt; lia).
      simpl. ring.
    + destruct (Nat.leb_spec (S s) i), (Nat.leb_spec s i); try lia;
        destruct (Nat.ltb_spec i (S s + n)), (Nat.ltb_spec i (s + S n));
        try lia; simpl; ring.
Qed.

Lemma np_sum_scale {A} (f : A -> Q) (t : Q) (l : list A) :
  (np_sum (map (fun a => t * f a) l) == t * np_sum (map f l))%Q.
Proof.
  induction l as [|a l IH]; simpl.
  - unfold np_sum. simpl. ring.
  - rewrite !np_sum_cons, IH. ring.
Qed.

Lemma list_by_index {A} (d : A) (l : list A) :
  map (fun j => nth j l d) (seq 0 (length l)) = l.
Proof.
  induction l as [|x l IH]; simpl; [reflexivity|].
  f_equal. rewrite <- seq_shift, map_map. exact IH.
Qed.

Lemma row_by_item (Wq : ndarray Q) (i : nat) (r : list Q) :
  wf Wq -> rows Wq !! i = Some r ->
  r = map (fun j => item 0%Q Wq i j) (seq 0 (shape1 Wq)).
Proof.
  intros [_ Hc] Hr.
  rewrite <- (proj1 (Forall_lookup _ _) Hc i r Hr).
  rewrite <- (list_by_index 0%Q r) at 1.
  apply map_ext_in. intros j Hj. apply in_seq in Hj.
  unfold item, get, index. rewrite Hr. cbn [bind].
  destruct (lookup_lt_is_Some_2 r j) as [x Hx]; [lia|].
  rewrite Hx. apply (nth_lookup_Some _ _ _ _ Hx).
Qed.

(** [calc_1nd_moment] with normalisation on matrices of numbers whose rows
    of weights have nonzero sums. *)
Lemma first_moment_entries (Xq Wq : ndarray Q) (n g : nat) :
  wf Wq -> shape0 Wq = n -> shape1 Wq = n ->
  wf Xq -> shape0 Xq = n -> shape1 Xq = g ->
  (forall i, i < n -> ~ (weight_sum Wq i == 0)%Q) ->
  exists M,
    calc_1nd_moment (amap Fin Xq) (amap Fin Wq) true = Ok M /\
    entries M n g (fun i c => weighted_sum Wq Xq i c / weight_sum Wq i)%Q.
Proof.
  intros WW W0 W1 WX X0 X1 Hd.
  pose proof (entries_amap Wq n n WW W0 W1) as HW.
  pose proof (entries_amap Xq n g WX X0 X1) as HX.
  set (v := map (fdiv (Fin 1)) (row_sums (amap Fin Wq))).
  assert (length v = n) as Hlen.
  { unfold v, row_sums, amap. cbn [rows].
    rewrite !length_map. destruct WW as [Hr _]. lia. }
  assert (forall i, i < length v ->
            exists q, v !! i = Some (Fin q) /\ (q == 1 / weight_sum Wq i)%Q)
    as Hv.
  { intros i Hi. destruct WW as [Hr Hc].
    destruct (lookup_lt_is_Some_2 (rows Wq) i) as [r Er]; [lia|].
    exists (1 / np_sum r)%Q.
    assert (r = map (fun j => item 0%Q Wq i j) (seq 0 (shape1 Wq))) as Hrow
      by (apply row_by_item; [split; assumption|exact Er]).
    assert (np_sum r = weight_sum Wq i) as Hsum
      by (unfold weight_sum; rewrite <- Hrow; reflexivity).
    split; [|rewrite Hsum; reflexivity].
    unfold v, row_sums, amap. cbn [rows].
    rewrite !lookup_map, Er. cbn [option_map]. simpl.
    rewrite row_total_Fin. unfold fdiv.
    destruct (Qeq_bool (np_sum r) 0) eqn:E; [|reflexivity].
    apply Qeq_bool_eq in E. rewrite Hsum in E.
    exfalso. apply (Hd i); [lia|exact E]. }
  pose proof (diag_entries v (fun i => 1 / weight_sum Wq i)%Q Hv) as HD.
  rewrite Hlen in HD.
  destruct (matmul_entries _ _ n n n _ _ HD HW) as (W' & EW' & HW').
  destruct (matmul_entries _ _ n n g _ _ HW' HX)
    as (M & EM & (WM & M0 & M1 & HM)).
  exists M. split.
  { unfold calc_1nd_moment. fold v. rewrite EW'. cbn [bind]. exact EM. }
  split; [exact WM|]. split; [exact M0|]. split; [exact M1|].
  intros i c Hi Hc. destruct (HM i c Hi Hc) as (q & Gq & Hq).
  exists q. split; [exact Gq|]. rewrite Hq.
  unfold weighted_sum. rewrite W1.
  rewrite <- np_sum_div. apply np_sum_ext. intros j Hj. apply in_seq in Hj.
  rewrite np_sum_single.
  replace ((0 <=? i) && (i <? 0 + n)) with true.
  - field. apply Hd. exact Hi.
  - symmetry. apply andb_true_iff. split; [apply Nat.leb_le|apply Nat.ltb_lt];
      lia.
Qed.

End MomentFacts.

(** X23.  With normalisation, on matrices of numbers in which every row of
    weights has a nonzero sum, [calc_1nd_moment] returns weighted averages:
    the entry for cell [i] and column [c] is the sum of the entries of that
    column weighted by row [i] of [W], divided by the sum of the weights of
    the row. *)
Theorem calc_1nd_moment_weighted_average (Xq Wq : ndarray Q) (n g : nat) :
  wf Wq -> shape0 Wq = n -> shape1 Wq = n ->
  wf Xq -> shape0 Xq = n -> shape1 Xq = g ->
  (forall i, i < n -> ~ (weight_sum Wq i == 0)%Q) ->
  exists M,
    calc_1nd_moment (amap Fin Xq) (amap Fin Wq) true = Ok M /\
    wf M /\ shape0 M = n /\ shape1 M = g /\
    forall i c, i < n -> c < g ->
      exists v, get M i c = Ok (Fin v) /\
                (v == weighted_sum Wq Xq i c / weight_sum Wq i)%Q.
Proof.
  intros WW W0 W1 WX X0 X1 Hd.
  destruct (first_moment_entries Xq Wq n g WW W0 W1 WX X0 X1 Hd)
    as (M & EM & WM & M0 & M1 & HM).
  exists M. split; [exact EM|]. split; [exact WM|]. split; [exact M0|].
  split; [exact M1|exact HM].
Qed.

Lemma calc_1nd_moment_weighted_average_witness :
  exists M,
    calc_1nd_moment (amap Fin (Arr 2 1 [[2]; [4]]%Q))
      (amap Fin (Arr 2 2 [[1; 1]; [0; 2]]%Q)) true = Ok M /\
    wf M /\ shape0 M = 2 /\ shape1 M = 1 /\
    forall i c, i < 2 -> c < 1 ->
      exists v, get M i c = Ok (Fin v) /\
                (v == weighted_sum (Arr 2 2 [[1; 1]; [0; 2]]%Q)
                        (Arr 2 1 [[2]; [4]]%Q) i c
                      / weight_sum (Arr 2 2 [[1; 1]; [0; 2]]%Q) i)%Q.
Proof.
  apply (calc_1nd_moment_weighted_average (Arr 2 1 [[2]; [4]]%Q)
           (Arr 2 2 [[1; 1]; [0; 2]]%Q) 2 1).
  - split; [reflexivity|]. repeat constructor.
  - reflexivity.
  - reflexivity.
  - split; [reflexivity|]. repeat constructor.
  - reflexivity.
  - reflexivity.
  - intros [|[|i]] Hi; try lia; vm_compute; discriminate.
Defined.

Lemma np_sum_le {A} (f g : A -> Q) (l : list A) :
  (forall a, In a l -> (f a <= g a)%Q) ->
  (np_sum (map f l) <= np_sum (map g l))%Q.
Proof.
  induction l as [|a l IH]; intros H; simpl; [apply Qle_refl|].
  rewrite !np_sum_cons. apply Qplus_le_compat.
  - apply H. left. reflexivity.
  - apply IH. intros a' Ha'. apply H. right. exact Ha'.
Qed.

Lemma np_sum_scale_r {A} (f : A -> Q) (t : Q) (l : list A) :
  (np_sum (map (fun a => f a * t) l) == np_sum (map f l) * t)%Q.
Proof.
  induction l as [|a l IH]; simpl.
  - unfold np_sum. simpl. ring.
  - rewrite !np_sum_cons, IH. ring.
Qed.

(** X24.  In exact arithmetic (the rounding of the doubles aside),
    smoothing a constant gives the constant: with normalisation and nonzero
    sums of weights, a column of [X] whose entries all equal [x] is returned
    with all entries equal to [x], whatever the weights. *)
Theorem calc_1nd_moment_constant (Xq Wq : ndarray Q) (n g : nat) (c : nat)
  (x : Q) :
  wf Wq -> shape0 Wq = n -> shape1 Wq = n ->
  wf Xq -> shape0 Xq = n -> shape1 Xq = g ->
  (forall i, i < n -> ~ (weight_sum Wq i == 0)%Q) ->
  c < g -> (forall j, j < n -> (item 0 Xq j c == x)%Q) ->
  exists M,
    calc_1nd_moment (amap Fin Xq) (amap Fin Wq) true = Ok M /\
    forall i, i < n -> exists v, get M i c = Ok (Fin v) /\ (v == x)%Q.
Proof.
  intros WW W0 W1 WX X0 X1 Hd Hc Hx.
  destruct (first_moment_entries Xq Wq n g WW W0 W1 WX X0 X1 Hd)
    as (M & EM & _ & _ & _ & HM).
  exists M. split; [exact EM|].
  intros i Hi. destruct (HM i c Hi Hc) as (v & Gv & Hv).
  exists v. split; [exact Gv|]. rewrite Hv.
  assert (weighted_sum Wq Xq i c == weight_sum Wq i * x)%Q as ->.
  { unfold weighted_sum, weight_sum. rewrite <- np_sum_scale_r.
    apply np_sum_ext. intros j Hj. apply in_seq in Hj.
    rewrite (Hx j ltac:(lia)). reflexivity. }
  field. apply Hd. exact Hi.
Qed.

Lemma calc_1nd_moment_constant_witness :
  exists M,
    calc_1nd_moment (amap Fin (Arr 2 1 [[3]; [3]]%Q))
      (amap Fin (Arr 2 2 [[1; 1]; [0; 2]]%Q)) true = Ok M /\
    forall i, i < 2 -> exists v, get M i 0 = Ok (Fin v) /\ (v == 3)%Q.
Proof.
  apply (calc_1nd_moment_constant (Arr 2 1 [[3]; [3]]%Q)
           (Arr 2 2 [[1; 1]; [0; 2]]%Q) 2 1 0 3%Q).
  - split; [reflexivity|]. repeat constructor.
  - reflexivity.
  - reflexivity.
  - split; [reflexivity|]. repeat constructor.
  - reflexivity.
  - reflexivity.
  - intros [|[|i]] Hi; try lia; vm_compute; discriminate.
  - lia.
  - intros [|[|j]] Hj; try lia; reflexivity.
Defined.

(** X25.  In exact arithmetic (the rounding of the doubles aside), with
    weights [>= 0], normalisation and nonzero sums of weights, smoothing
    stays within the data: if the entries of a column of [X] lie between
    [lo] and [hi], so do the entries of that column in the result of
    [calc_1nd_moment]. *)
Theorem calc_1nd_moment_within_range (Xq Wq : ndarray Q) (n g : nat) (c : nat)
  (lo hi : Q) :
  wf Wq -> shape0 Wq = n -> shape1 Wq = n ->
  wf Xq -> shape0 Xq = n -> shape1 Xq = g ->
  (forall i, i < n -> ~ (weight_sum Wq i == 0)%Q) ->
  nonnegative Wq ->
  c < g -> (forall j, j < n -> (lo <= item 0 Xq j c <= hi)%Q) ->
  exists M,
    calc_1nd_moment (amap Fin Xq) (amap Fin Wq) true = Ok M /\
    forall i, i < n -> exists v, get M i c = Ok (Fin v) /\ (lo <= v <= hi)%Q.
Proof.
  intros WW W0 W1 WX X0 X1 Hd Hnn Hc Hx.
  destruct (first_moment_entries Xq Wq n g WW W0 W1 WX X0 X1 Hd)
    as (M & EM & _ & _ & _ & HM).
  exists M. split; [exact EM|].
  intros i Hi. destruct (HM i c Hi Hc) as (v & Gv & Hv).
  exists v. split; [exact Gv|]. rewrite Hv.
  assert (forall j, j < n -> (0 <= item 0 Wq i j)%Q) as Hw.
  { intros j Hj. destruct (get_lt Wq i j WW) as [w Ew]; [lia|lia|].
    rewrite (item_get 0%Q Wq i j w Ew). exact (Hnn i j w Ew). }
  assert (0 < weight_sum Wq i)%Q as Hpos.
  { assert (0 <= weight_sum Wq i)%Q as Hge.
    { unfold weight_sum. apply np_sum_nonneg. intros w Hin.
      apply in_map_iff in Hin. destruct Hin as (j & <- & Hj).
      apply in_seq in Hj. apply Hw. lia. }
    apply Qle_lt_or_eq in Hge. destruct Hge as [Hlt|Heq]; [exact Hlt|].
    exfalso. apply (Hd i Hi). symmetry. exact Heq. }
  assert (lo * weight_sum Wq i <= weighted_sum Wq Xq i c)%Q as Hlo.
  { unfold weighted_sum, weight_sum.
    rewrite <- np_sum_scale. apply np_sum_le. intros j Hj. apply in_seq in Hj.
    cbv beta. rewrite (Qmult_comm (item 0%Q Wq i j)).
    apply Qmult_le_compat_r; [apply Hx; lia|apply Hw; lia]. }
  assert (weighted_sum Wq Xq i c <= hi * weight_sum Wq i)%Q as Hhi.
  { unfold weighted_sum, weight_sum.
    rewrite <- np_sum_scale. apply np_sum_le. intros j Hj. apply in_seq in Hj.
    cbv beta. rewrite (Qmult_comm (item 0%Q Wq i j)).
    apply Qmult_le_compat_r; [apply Hx; lia|apply Hw; lia]. }
  split.
  - apply Qle_shift_div_l; assumption.
  - apply Qle_shift_div_r; assumption.
Qed.

Lemma calc_1nd_moment_within_range_witness :
  exists M,
    calc_1nd_moment (amap Fin (Arr 2 1 [[2]; [4]]%Q))
      (amap Fin (Arr 2 2 [[1; 1]; [0; 2]]%Q)) true = Ok M /\
    forall i, i < 2 -> exists v, get M i 0 = Ok (Fin v) /\ (2 <= v <= 4)%Q.
Proof.
  apply (calc_1nd_moment_within_range (Arr 2 1 [[2]; [4]]%Q)
           (Arr 2 2 [[1; 1]; [0; 2]]%Q) 2 1 0 2%Q 4%Q).
  - split; [reflexivity|]. repeat constructor.
  - reflexivity.
  - reflexivity.
  - split; [reflexivity|]. repeat constructor.
  - reflexivity.
  - reflexivity.
  - intros [|[|i]] Hi; try lia; vm_compute; discriminate.
  - apply nonnegative_rows. simpl.
    repeat (constructor; try (unfold Qle; simpl; lia)).
  - lia.
  - intros [|[|j]] Hj; try lia; split; vm_compute; discriminate.
Defined.
